(** * lipyd: the MS2 scan, the fragment database and the chain solver

    A shallow embedding of the parts of [lipyd/ms2.py] and [lipyd/fragdb.py]
    that carry the scan's two sort orders, the tolerance lookups, the chain
    combination solver, the intensity-ratio check and the score percentage.

    Numbers.  Python floats and numpy float64 values are idealised as exact
    rationals ([Qc], rationals in lowest terms, so that equal numbers are
    equal terms), with a separate [NaN] for the neutral loss of an unknown
    precursor.  Rounding error is therefore outside the model, and so are
    the [inf] and [nan] numpy gives for a division by zero: where the code
    divides by zero the model stops with [ZeroDivisionError], as Python
    floats do (a scan whose largest intensity is zero, a peak at the
    precursor m/z).  The intensity-ratio check uses logarithms and is
    embedded over [R].  Carbon counts, unsaturations and scores are Python
    integers: [Z].

    Exceptions are explicit: a computation returns an [outcome]. *)

From Stdlib Require Import List ZArith QArith Qcanon Qround Lia Lra Bool.
From Stdlib Require Qcabs Lqa.
From Stdlib Require Import String Permutation Sorted Reals.
Import ListNotations.

Set Implicit Arguments.

(* ------------------------------------------------------------------ *)
(** ** Exceptions and the error monad *)

Inductive Exc : Type :=
| IndexError
| KeyError
| ValueError
| AttributeError
| TypeError
| ZeroDivisionError.

Inductive outcome (A : Type) : Type :=
| Ok (a : A)
| Raise (e : Exc).

Arguments Ok {A} a.
Arguments Raise {A} e.

Definition bind {A B : Type} (m : outcome A) (f : A -> outcome B) : outcome B :=
  match m with
  | Ok a => f a
  | Raise e => Raise e
  end.

Declare Scope outcome_scope.
Delimit Scope outcome_scope with outcome.
Notation "x <- m ;; k" := (bind m (fun x => k))
  (at level 61, m at next level, right associativity) : outcome_scope.
Notation "' p <- m ;; k" := (bind m (fun p => k))
  (at level 61, p pattern, m at next level, right associativity) : outcome_scope.
Open Scope outcome_scope.

(** [for x in l: ...] over a body that may raise: the results in order,
    or the first exception. *)
Fixpoint mapM {A B : Type} (f : A -> outcome B) (l : list A) : outcome (list B) :=
  match l with
  | [] => Ok []
  | x :: r => y <- f x ;; ys <- mapM f r ;; Ok (y :: ys)
  end.

(** What a generator has produced when it stops: the values it yielded, and
    the exception that ended it, if one did. *)
Record gen (A : Type) : Type := mkGen {
  yielded : list A;
  raised : option Exc
}.

Arguments mkGen {A} yielded raised.

(* ------------------------------------------------------------------ *)
(** ** Numbers *)


(** A float that may be [numpy.nan]. *)
Inductive flt : Type :=
| Fin (q : Qc)
| NaN.

Definition Qcleb (x y : Qc) : bool := Qle_bool (this x) (this y).
Definition Qcltb (x y : Qc) : bool := negb (Qle_bool (this y) (this x)).
Definition Qceqb (x y : Qc) : bool := Qeq_bool (this x) (this y).

(** [x or default] on an optional number: [None] and [0] are falsy. *)
Definition or_default (x : option Qc) (default : Qc) : Qc :=
  match x with
  | Some t => if Qceqb t 0%Qc then default else t
  | None => default
  end.

(** [a[i]] for a list and a non-negative index. *)
Definition getitem {A : Type} (a : list A) (i : nat) : outcome A :=
  match nth_error a i with
  | Some x => Ok x
  | None => Raise IndexError
  end.

(** [a[isort]]: numpy indexing by an array of non-negative indices. *)
Definition reindex {A : Type} (a : list A) (isort : list nat) : outcome (list A) :=
  mapM (getitem a) isort.

(** [a[mask]]: numpy indexing by a boolean mask of the same length. *)
Fixpoint mask_select {A : Type} (a : list A) (mask : list bool) : list A :=
  match a, mask with
  | x :: r, b :: m => if b then x :: mask_select r m else mask_select r m
  | _, _ => []
  end.

(** [numpy.arange(n)]. *)
Definition arange (n : nat) : list nat := seq 0 n.

(** [a.max()]: raises on an empty array. *)
Definition array_max (a : list Qc) : outcome Qc :=
  match a with
  | [] => Raise ValueError
  | x :: r => Ok (fold_left (fun m y => if Qcleb m y then y else m) r x)
  end.

(* ------------------------------------------------------------------ *)
(** ** lipyd.lookup: the tolerance matcher *)

Module lookup.

(** Modelled from the spec: [lipyd/lookup.py] is not among the sources.
    The match predicate of section 4.1:
    [|haystack[i] - needle| <= needle * tolerance_ppm * 1e-6]. *)
Definition ppm_match (h needle tolerance : Qc) : bool :=
  Qcleb (Qcabs.Qcabs (h - needle)%Qc) (needle * tolerance * Q2Qc 1e-6)%Qc.

(** Modelled from the spec: [lookup.findall] "returns exactly the set of
    indices satisfying the predicate" (section 8), here in ascending
    order, starting the count at [i]. *)
Fixpoint findall_from (i : nat) (haystack : list Qc) (needle tolerance : Qc)
  : list nat :=
  match haystack with
  | [] => []
  | h :: r =>
      if ppm_match h needle tolerance
      then i :: findall_from (S i) r needle tolerance
      else findall_from (S i) r needle tolerance
  end.

Definition findall (haystack : list Qc) (needle : flt) (tolerance : Qc)
  : list nat :=
  match needle with
  | Fin m => findall_from 0 haystack m tolerance
  | NaN => []
  end.

(** The best match seen so far, scanning from index [i]: a later match
    replaces it only when it is strictly closer. *)
Fixpoint find_from (i : nat) (haystack : list Qc) (needle tolerance : Qc)
    (best : option (nat * Qc)) : option (nat * Qc) :=
  match haystack with
  | [] => best
  | h :: r =>
      let d := Qcabs.Qcabs (h - needle)%Qc in
      let best' :=
        if ppm_match h needle tolerance then
          match best with
          | None => Some (i, d)
          | Some (_, db) => if Qcltb d db then Some (i, d) else best
          end
        else best in
      find_from (S i) r needle tolerance best'
  end.

(** Modelled from the spec: [lookup.find] returns the index of the
    closest match, the lower index on a tie, and nothing when no element
    matches or the haystack is empty; it never raises (section 4.1).
    Every comparison with [nan] is false, so [nan] matches nothing. *)
Definition find (haystack : list Qc) (needle : flt) (tolerance : Qc)
  : option nat :=
  match needle with
  | Fin m => option_map fst (find_from 0 haystack m tolerance None)
  | NaN => None
  end.

End lookup.

(* ------------------------------------------------------------------ *)
(** ** lipyd.fragdb: the fragment database and the annotator *)

Inductive IonMode : Type := pos | neg.

Module fragdb.

(** Modelled from the spec: the constraint type is declared in
    [lipyd/fragment.py], which is not among the sources (section 3,
    FragConstraint). *)
Record FragConstraint : Type := {
  hg : string;
  sub : list string;
  sph : option string;
  chaintype_ : option string
}.

(** A row of the [fragments] array, and the named tuple
    [FragmentAnnotation] built from it: the same columns.  The carbon
    count and the unsaturation (columns 4 and 5) are kept together: a row
    has both, or holds [nan] in both ([None]). *)
Record FragmentAnnotation : Type := {
  mz : Qc;
  name : string;
  fragtype : string;
  chaintype : string;
  cu : option (Z * Z);
  charge : Z
}.

Definition c (a : FragmentAnnotation) : option Z := option_map fst (cu a).
Definition u (a : FragmentAnnotation) : option Z := option_map snd (cu a).

Module FragmentDatabaseAggregator.

Record t : Type := {
  fragments : list FragmentAnnotation;
  tolerance : Qc;
  frags_by_name : list (string * nat);
  constraints : list (string * list FragConstraint)
}.

(** [dict.get(key, None)] on an association list. *)
Fixpoint dict_get {V : Type} (d : list (string * V)) (key : string)
  : option V :=
  match d with
  | [] => None
  | (k, v) :: r => if String.eqb k key then Some v else dict_get r key
  end.

Definition get_constraints (self : t) (fragtype : string)
  : list FragConstraint :=
  match dict_get (constraints self) fragtype with
  | Some cs => cs
  | None => []
  end.

(** [lookup]: the fragments in the database matching the m/z within the
    range of tolerance, [tolerance or self.tolerance].  The database is
    one with rows: of no rows numpy makes an array of one dimension, on
    which [self.fragments[:,0]] raises [IndexError], and that case is not
    modelled (the facts on lookups say so where it matters). *)
Definition lookup (self : t) (mz : flt) (nl : bool) (tol : option Qc)
  : outcome (list FragmentAnnotation) :=
  let idx := lookup.findall (map fragdb.mz (fragments self)) mz
               (or_default tol (tolerance self)) in
  (* filtering for NL or not NL *)
  idx' <- mapM (fun i =>
            row <- getitem (fragments self) i ;;
            Ok (i, if nl then Z.eqb (charge row) 0
                   else negb (Z.eqb (charge row) 0))) idx ;;
  reindex (fragments self) (map fst (filter snd idx')).

(** [lookup_nl]: the neutral loss fragments matching the m/z.
    [mz / nlmz] raises for Python floats when [nlmz] is zero (numpy
    scalars give inf or nan there, which this model does not have). *)
Definition lookup_nl (self : t) (mz precursor : Qc) (tol : option Qc)
  : outcome (list FragmentAnnotation) :=
  let nlmz := (precursor - mz)%Qc in
  if Qceqb nlmz 0%Qc then Raise ZeroDivisionError
  else
    let nl_tolerance := (mz / nlmz * or_default tol (tolerance self))%Qc in
    lookup self (Fin nlmz) true (Some nl_tolerance).

Definition by_name (self : t) (name : string)
  : outcome (option FragmentAnnotation) :=
  match dict_get (frags_by_name self) name with
  | Some i => row <- getitem (fragments self) i ;; Ok (Some row)
  | None => Ok None
  end.

End FragmentDatabaseAggregator.

Section module_functions.

(** [get_db(ionmode)]: the per-ion-mode database held by the module. *)
Variable get_db : IonMode -> FragmentDatabaseAggregator.t.

(** [settings.get('ms2_tolerance')]. *)
Variable ms2_tolerance : Qc.

Definition lookup (mz : flt) (ionmode : IonMode) (nl : bool)
    (tol : option Qc) : outcome (list FragmentAnnotation) :=
  FragmentDatabaseAggregator.lookup (get_db ionmode) mz nl tol.

Definition lookup_nl (mz precursor : Qc) (ionmode : IonMode)
    (tol : option Qc) : outcome (list FragmentAnnotation) :=
  FragmentDatabaseAggregator.lookup_nl (get_db ionmode) mz precursor tol.

Definition constraints (fragtype : string) (ionmode : IonMode)
  : list FragConstraint :=
  FragmentDatabaseAggregator.get_constraints (get_db ionmode) fragtype.

Definition by_name (name : string) (ionmode : IonMode)
  : outcome (option FragmentAnnotation) :=
  FragmentDatabaseAggregator.by_name (get_db ionmode) name.

(** [FragmentAnnotator(mzs, ionmode, precursor, tolerance).annotate(mz)]:
    neutral-loss identities first, when a precursor is known (and is not
    zero), then the identities of the charged ion.  The annotator's
    tolerance is [tolerance or settings.get('ms2_tolerance')]. *)
Definition annotate (ionmode : IonMode) (precursor : option Qc)
    (tol : option Qc) (mz : Qc) : outcome (list FragmentAnnotation) :=
  let tolerance := or_default tol ms2_tolerance in
  nl_annot <-
    (match precursor with
     | Some p =>
         if Qceqb p 0%Qc then Ok []
         else lookup_nl mz p ionmode (Some tolerance)
     | None => Ok []
     end) ;;
  annot <- lookup (Fin mz) ionmode false (Some tolerance) ;;
  Ok (nl_annot ++ annot).

(** [list(FragmentAnnotator(...))]. *)
Definition annotator (mzs : list Qc) (ionmode : IonMode)
    (precursor : option Qc) (tol : option Qc)
  : outcome (list (list FragmentAnnotation)) :=
  mapM (annotate ionmode precursor tol) mzs.

End module_functions.

End fragdb.

(* ------------------------------------------------------------------ *)
(** ** lipyd.lipproc: the records consumed from the MS1 stage *)

Module lipproc.

(** Modelled from the spec: [lipyd/lipproc.py] is not among the sources;
    the shapes follow section 3 (MS1Record) and the attributes this code
    reads: [hg.main], [hg.sub], [attr.sph], [attr.ether], [attr.oh]. *)
Record Headgroup : Type := {
    main : string;
    sub : list string
  }.

Record ChainAttr : Type := {
    sph : string;
    ether : bool;
    oh : list string
  }.

Module Chain.
Record t : Type := {
    c : Z;
    u : Z;
    typ : string;
    attr : ChainAttr
  }.
End Chain.

Module ChainSummary.
Record t : Type := {
    c : Z;
    u : Z;
    typ : list string;
    attr : list ChainAttr
  }.

(** [len(chainsum)]: the number of chain positions. *)
Definition len (cs : t) : nat := List.length (typ cs).
End ChainSummary.

Record LipidRecord : Type := {
    hg : option Headgroup;
    chainsum : option ChainSummary.t;
    chains : list Chain.t
  }.

End lipproc.

(* ------------------------------------------------------------------ *)
(** ** lipyd.ms2: data *)

Module ChainFragment.
Record t : Type := {
    c : Z;
    u : Z;
    fragtype : string;
    chaintype : string;
    i : nat;
    intensity : Qc
  }.
End ChainFragment.

Record ChainIdentificationDetails : Type := {
  rank : list (option nat);
  details_i : list (option Qc);
  details_fragtype : list (option string)
}.

Inductive SortKey : Type := by_mzs | by_intensities.

(** [numpy.array(rows)] for the rows an annotator gives, one tuple of
    annotations for each peak, each annotation a named tuple of seven
    fields.  With at least one row, and the same number of annotations
    in every row, not zero, numpy takes the named tuples for sequences as
    well and makes a three-dimensional array of their fields (peaks by
    annotations by 7, as strings).  In every other case it makes a
    one-dimensional array of the rows, which holds the tuples of named
    tuples as they are (when no row has an annotation, peaks by 0, which
    holds nothing).  [fields_only rows] tells the first case.  (A ragged
    list makes an array on the numpy versions that have [np.object], which
    the source uses.) *)
Definition fields_only {A : Type} (rows : list (list A)) : bool :=
  match rows with
  | [] => false
  | r :: rest =>
      negb (Nat.eqb (List.length r) 0) &&
      forallb (fun r' => Nat.eqb (List.length r') (List.length r)) rest
  end.

(** The annotations held at one index, for code that goes on to read the
    attributes [fragtype], [chaintype], [c] or [u] of each: what an array
    of fields holds there are arrays, which have no such attributes, so
    that the first one read raises [AttributeError]. *)
Definition named_annotations (fields : bool)
    (aa : list fragdb.FragmentAnnotation)
  : outcome (list fragdb.FragmentAnnotation) :=
  match aa with
  | [] => Ok []
  | _ :: _ => if fields then Raise AttributeError else Ok aa
  end.

(** An entry of [Scan.adducts].  [adduct_annot_fields] tells if the
    annotation array is an array of fields (see [fields_only]). *)
Record AdductData : Type := {
  fake_precursor : Qc;
  adduct_annot_ : list (list fragdb.FragmentAnnotation);
  adduct_annot_fields : bool;
  adduct_chain_list_ : list ChainFragment.t
}.

(** The attributes of a [Scan] object.  An attribute that [hasattr] may
    find missing is an [option].  [annot] holds the rows of the annotation
    array, and [annot_fields] tells if that array is an array of fields
    (see [fields_only]): indexing the array by an index array, as [sort]
    does, keeps it the kind of array it is. *)
Record Scan : Type := {
  tolerance : Qc;
  sorted_by : option SortKey;
  mzs : list Qc;
  ionmode : IonMode;
  adducts : list (string * AdductData);
  intensities : list Qc;
  precursor : option Qc;
  annot : option (list (list fragdb.FragmentAnnotation));
  annot_fields : bool;
  imax : option Qc;
  inorm : option (list Qc);
  iisort : option (list nat);
  irank : option (list nat);
  imzsort : option (list nat);
  chain_list : option (list ChainFragment.t);
  check_ratio_g : bool;
  check_ratio_s : bool;
  iratio_logbase : R;
  chain_details : bool
}.

(** What the code takes from outside the files embedded here. *)
Class Externals : Type := {
  (** [numpy.argsort]: the order it gives to equal keys is not fixed. *)
  argsort : list Qc -> list nat;
  (** [fragdb.get_db]. *)
  get_db : IonMode -> fragdb.FragmentDatabaseAggregator.t;
  (** [settings.get] for the keys read here. *)
  ms2_tolerance : Qc;
  even_chain_fragment_intensity_ratios_gl_gpl : bool;
  even_chain_fragment_intensity_ratios_sl : bool;
  chain_fragment_instensity_ratios_logbase : R;
  ms2_scan_chain_details : bool;
  (** [lipproc.match_constraints(record, constr)]: whether the record
      matches, and the chain positions the fragment may come from. *)
  match_constraints :
    lipproc.LipidRecord -> list fragdb.FragConstraint -> bool * list nat;
  (** [lipproc.sum_chains]. *)
  sum_chains : list lipproc.Chain.t -> lipproc.ChainSummary.t;
  (** The precursor converted to the reference adduct, as [Scan.adduct]
      computes it from [settings.get('ad2ex')] and [mzmod.Mz]. *)
  reference_precursor : IonMode -> string -> option Qc -> outcome Qc
}.

(* ------------------------------------------------------------------ *)
(** ** lipyd.ms2: the scan and its two sort orders *)

Section ms2.

Context {E : Externals}.

Definition opt_reindex {A : Type} (a : option (list A)) (isort : list nat)
  : outcome (option (list A)) :=
  match a with
  | Some l => l' <- reindex l isort ;; Ok (Some l')
  | None => Ok None
  end.

(** The scan with its per-peak arrays replaced. *)
Definition with_arrays (self : Scan) (intensities' mzs' : list Qc)
    (irank' : option (list nat))
    (annot' : option (list (list fragdb.FragmentAnnotation)))
    (inorm' : option (list Qc)) (adducts' : list (string * AdductData))
  : Scan :=
  {| tolerance := tolerance self; sorted_by := sorted_by self; mzs := mzs';
     ionmode := ionmode self; adducts := adducts';
     intensities := intensities'; precursor := precursor self;
     annot := annot'; annot_fields := annot_fields self;
     imax := imax self; inorm := inorm';
     iisort := iisort self; irank := irank'; imzsort := imzsort self;
     chain_list := chain_list self; check_ratio_g := check_ratio_g self;
     check_ratio_s := check_ratio_s self;
     iratio_logbase := iratio_logbase self;
     chain_details := chain_details self |}.

Definition with_sorted_by (self : Scan) (k : option SortKey) : Scan :=
  {| tolerance := tolerance self; sorted_by := k; mzs := mzs self;
     ionmode := ionmode self; adducts := adducts self;
     intensities := intensities self; precursor := precursor self;
     annot := annot self; annot_fields := annot_fields self;
     imax := imax self; inorm := inorm self;
     iisort := iisort self; irank := irank self; imzsort := imzsort self;
     chain_list := chain_list self; check_ratio_g := check_ratio_g self;
     check_ratio_s := check_ratio_s self;
     iratio_logbase := iratio_logbase self;
     chain_details := chain_details self |}.

(** The scan with its cached index arrays replaced. *)
Definition with_indices (self : Scan)
    (iisort' irank' imzsort' : option (list nat)) : Scan :=
  {| tolerance := tolerance self; sorted_by := sorted_by self;
     mzs := mzs self; ionmode := ionmode self; adducts := adducts self;
     intensities := intensities self; precursor := precursor self;
     annot := annot self; annot_fields := annot_fields self;
     imax := imax self; inorm := inorm self;
     iisort := iisort'; irank := irank'; imzsort := imzsort';
     chain_list := chain_list self; check_ratio_g := check_ratio_g self;
     check_ratio_s := check_ratio_s self;
     iratio_logbase := iratio_logbase self;
     chain_details := chain_details self |}.

Definition sort_adduct (isort : list nat) (entry : string * AdductData)
  : outcome (string * AdductData) :=
  let (ad, data) := entry in
  a' <- reindex (adduct_annot_ data) isort ;;
  Ok (ad, {| fake_precursor := fake_precursor data;
             adduct_annot_ := a';
             adduct_annot_fields := adduct_annot_fields data;
             adduct_chain_list_ := adduct_chain_list_ data |}).

(** [ScanBase.sort]: applies sorted indices to the scan. *)
Definition sort (self : Scan) (isort : list nat) : outcome Scan :=
  intensities' <- reindex (intensities self) isort ;;
  mzs' <- reindex (mzs self) isort ;;
  irank' <- opt_reindex (irank self) isort ;;
  annot' <- opt_reindex (annot self) isort ;;
  inorm' <- opt_reindex (inorm self) isort ;;
  adducts' <- mapM (sort_adduct isort) (adducts self) ;;
  Ok (with_arrays self intensities' mzs' irank' annot' inorm' adducts').

(** [ScanBase.sort_mz]: sorts the scan by m/z values ascending. *)
Definition sort_mz (self : Scan) : outcome Scan :=
  match sorted_by self with
  | Some by_mzs => Ok self
  | sb =>
      s' <- (match imzsort self, sb with
             | Some im, Some by_intensities => sort self im
             | _, _ => sort self (argsort (mzs self))
             end) ;;
      Ok (with_sorted_by s' (Some by_mzs))
  end.

(** [ScanBase.sort_intensity]: sorts the scan by intensities descending. *)
Definition sort_intensity (self : Scan) : outcome Scan :=
  match sorted_by self with
  | Some by_intensities => Ok self
  | sb =>
      s' <- (match iisort self, sb with
             | Some ii, Some by_mzs => sort self ii
             | _, _ => sort self (rev (argsort (intensities self)))
             end) ;;
      Ok (with_sorted_by s' (Some by_intensities))
  end.

(** [x or self.precursor] on an optional precursor. *)
Definition or_precursor (x own : option Qc) : option Qc :=
  match x with
  | Some p => if Qceqb p 0%Qc then own else Some p
  | None => own
  end.

(** [ScanBase.get_annot]: the rows of the array it returns, which are
    what [list(annotator)] holds; the array [numpy.array] makes of them is
    an array of fields when [fields_only] says so. *)
Definition get_annot (self : Scan) (precursor' tolerance' : option Qc)
  : outcome (list (list fragdb.FragmentAnnotation)) :=
  fragdb.annotator get_db ms2_tolerance (mzs self) (ionmode self)
    (or_precursor precursor' (precursor self))
    (Some (or_default tolerance' (tolerance self))).

(** [Scan._build_chain_list]: one chain fragment per annotation that has a
    carbon count, with the peak's index and intensity.  It reads [a.c] of
    each annotation.  An annotation array given as argument comes with
    whether it is an array of fields. *)
Definition chain_fragments_of (self : Scan) (fields : bool) (i : nat)
    (aa : list fragdb.FragmentAnnotation)
  : outcome (list ChainFragment.t) :=
  aa <- named_annotations fields aa ;;
  mapM (fun a : fragdb.FragmentAnnotation * (Z * Z) =>
          ins <- getitem (intensities self) i ;;
          Ok {| ChainFragment.c := fst (snd a);
                ChainFragment.u := snd (snd a);
                ChainFragment.fragtype := fragdb.fragtype (fst a);
                ChainFragment.chaintype := fragdb.chaintype (fst a);
                ChainFragment.i := i;
                ChainFragment.intensity := ins |})
    (flat_map (fun a =>
                 match fragdb.cu a with
                 | Some (cc, uu) => if Z.eqb cc 0 then [] else [(a, (cc, uu))]
                 | None => []
                 end) aa).

Definition _build_chain_list (self : Scan)
    (annot' : option (list (list fragdb.FragmentAnnotation) * bool))
  : outcome (list ChainFragment.t) :=
  ' (a, fields) <- (match annot' with
                    | Some af => Ok af
                    | None => match annot self with
                              | Some a => Ok (a, annot_fields self)
                              | None => Raise AttributeError
                              end
                    end) ;;
  ls <- mapM (fun ia => chain_fragments_of self fields (fst ia) (snd ia))
          (combine (seq 0 (List.length a)) a) ;;
  Ok (List.concat ls).

(** [self.annot = self.get_annot()]: the scan with the array made of the
    rows. *)
Definition with_annot (self : Scan)
    (rows : list (list fragdb.FragmentAnnotation)) : Scan :=
  {| tolerance := tolerance self; sorted_by := sorted_by self;
     mzs := mzs self; ionmode := ionmode self; adducts := adducts self;
     intensities := intensities self; precursor := precursor self;
     annot := Some rows; annot_fields := fields_only rows;
     imax := imax self; inorm := inorm self;
     iisort := iisort self; irank := irank self; imzsort := imzsort self;
     chain_list := chain_list self; check_ratio_g := check_ratio_g self;
     check_ratio_s := check_ratio_s self;
     iratio_logbase := iratio_logbase self;
     chain_details := chain_details self |}.

(** The scan with [imax] and [inorm] set. *)
Definition with_inorm (self : Scan) (imax' : Qc) (inorm' : list Qc) : Scan :=
  {| tolerance := tolerance self; sorted_by := sorted_by self;
     mzs := mzs self; ionmode := ionmode self; adducts := adducts self;
     intensities := intensities self; precursor := precursor self;
     annot := annot self; annot_fields := annot_fields self;
     imax := Some imax'; inorm := Some inorm';
     iisort := iisort self; irank := irank self; imzsort := imzsort self;
     chain_list := chain_list self; check_ratio_g := check_ratio_g self;
     check_ratio_s := check_ratio_s self;
     iratio_logbase := iratio_logbase self;
     chain_details := chain_details self |}.

(** [ScanBase.normalize_intensities]: divides intensities by their maximum.
    With a maximum of zero numpy fills [inorm] with nan or inf and warns;
    the model has no such values and stops there. *)
Definition normalize_intensities (self : Scan) : outcome Scan :=
  m <- array_max (intensities self) ;;
  if Qceqb m 0%Qc then Raise ZeroDivisionError
  else Ok (with_inorm self m (map (fun x => (x / m)%Qc) (intensities self))).

(** [ScanBase.__init__] followed by the settings [Scan.__init__] reads. *)
Definition Scan_init (mzs' : list Qc) (ionmode' : IonMode)
    (precursor' : option Qc) (intensities' : option (list Qc))
    (tolerance' : option Qc) : outcome Scan :=
  let s0 :=
    {| tolerance := or_default tolerance' ms2_tolerance;
       sorted_by := None;
       mzs := mzs';
       ionmode := ionmode';
       adducts := [];
       intensities :=
         match intensities' with
         | None => repeat (Q2Qc 1) (List.length mzs')
         | Some l => l
         end;
       precursor := precursor';
       annot := None; annot_fields := false; imax := None; inorm := None;
       iisort := None; irank := None; imzsort := None;
       chain_list := None;
       check_ratio_g := even_chain_fragment_intensity_ratios_gl_gpl;
       check_ratio_s := even_chain_fragment_intensity_ratios_sl;
       iratio_logbase := chain_fragment_instensity_ratios_logbase;
       chain_details := ms2_scan_chain_details |} in
  (* self.annotate() *)
  a <- get_annot s0 None None ;;
  let s1 := with_annot s0 a in
  s2 <- normalize_intensities s1 ;;
  (* with mz_sorted(self): *)
  s3 <- sort_mz s2 ;;
  let s4 := with_indices s3 (Some (rev (argsort (intensities s3))))
              (irank s3) (imzsort s3) in
  s5 <- sort_intensity s4 ;;
  let s6 := with_indices s5 (iisort s5)
              (Some (arange (List.length (mzs s5))))
              (Some (argsort (mzs s5))) in
  Ok (with_sorted_by s6 (Some by_intensities)).

(** [self.adducts[adduct] = data]. *)
Fixpoint dict_set {V : Type} (d : list (string * V)) (key : string) (v : V)
  : list (string * V) :=
  match d with
  | [] => [(key, v)]
  | (k, w) :: r =>
      if String.eqb k key then (k, v) :: r else (k, w) :: dict_set r key v
  end.

Definition with_adducts (self : Scan) (adducts' : list (string * AdductData))
  : Scan :=
  with_arrays self (intensities self) (mzs self) (irank self) (annot self)
    (inorm self) adducts'.

(** [Scan.adduct(adduct)]: the cached annotation view for an adduct, built
    on first use. *)
Definition adduct (self : Scan) (ad : string) : outcome Scan :=
  match fragdb.FragmentDatabaseAggregator.dict_get (adducts self) ad with
  | Some _ => Ok self
  | None =>
      fake <- reference_precursor (ionmode self) ad (precursor self) ;;
      a <- get_annot self (Some fake) None ;;
      cl <- _build_chain_list self (Some (a, fields_only a)) ;;
      Ok (with_adducts self
            (dict_set (adducts self) ad
               {| fake_precursor := fake; adduct_annot_ := a;
                  adduct_annot_fields := fields_only a;
                  adduct_chain_list_ := cl |}))
  end.

(** [Scan.nl]: for an m/z the corresponding neutral loss m/z, [nan] when
    the precursor is unknown (or zero). *)
Definition nl (self : Scan) (mz : Qc) (ad : option string)
  : outcome (flt * Scan) :=
  match ad with
  | None =>
      match precursor self with
      | Some p => if Qceqb p 0%Qc then Ok (NaN, self)
                  else Ok (Fin (p - mz)%Qc, self)
      | None => Ok (NaN, self)
      end
  | Some a =>
      s' <- adduct self a ;;
      match fragdb.FragmentDatabaseAggregator.dict_get (adducts s') a with
      | Some data => Ok (Fin (fake_precursor data - mz)%Qc, s')
      | None => Raise KeyError
      end
  end.

(** [Scan.mz_lookup]: the index of the closest m/z detected in the scan if
    it is within the range of tolerance, otherwise [None].
    [self.imzsort[imz] if imz else None] tests the truth of [imz]. *)
Definition mz_lookup (self : Scan) (mz : flt) : outcome (option nat * Scan) :=
  s1 <- sort_mz self ;;
  let imz := lookup.find (mzs s1) mz (tolerance s1) in
  i <- (match imz with
        | Some (S k) =>
            match imzsort s1 with
            | Some im => j <- getitem im (S k) ;; Ok (Some j)
            | None => Raise AttributeError
            end
        | Some O => Ok None
        | None => Ok None
        end) ;;
  s2 <- sort_intensity s1 ;;
  Ok (i, s2).

(** [Scan.has_mz]: tells if an m/z exists in this scan. *)
Definition has_mz (self : Scan) (mz : flt) : outcome (bool * Scan) :=
  ' (i, s') <- mz_lookup self mz ;;
  Ok (match i with Some _ => true | None => false end, s').

(** [Scan.nl_lookup]. *)
Definition nl_lookup (self : Scan) (nl' : Qc) (ad : option string)
  : outcome (option nat * Scan) :=
  ' (m, s') <- nl self nl' ad ;;
  mz_lookup s' m.

(** What [fragment_by_name] returns: [False] for a name the database does
    not have, else the index found in the scan or [None]. *)
Inductive by_name_result : Type :=
| name_unknown
| looked_up (i : option nat).

(** [Scan.fragment_by_name]. *)
Definition fragment_by_name (self : Scan) (name : string) (ad : option string)
  : outcome (by_name_result * Scan) :=
  frag <- fragdb.by_name get_db name (ionmode self) ;;
  match frag with
  | Some fr =>
      ' (i, s') <- (if Z.eqb (fragdb.charge fr) 0
                    then nl_lookup self (fragdb.mz fr) ad
                    else mz_lookup self (Fin (fragdb.mz fr))) ;;
      Ok (looked_up i, s')
  | None => Ok (name_unknown, self)
  end.

(** [Scan.has_fragment]: [None] if the fragment name could not be found in
    the database, else whether the fragment exists in the scan. *)
Definition has_fragment (self : Scan) (name : string) (ad : option string)
  : outcome (option bool * Scan) :=
  ' (i, s') <- fragment_by_name self name ad ;;
  Ok (match i with
      | name_unknown => None
      | looked_up (Some _) => Some true
      | looked_up None => Some false
      end, s').

(** [Scan.mz_among_most_abundant]: tells if an m/z is among the [n] most
    abundant fragments. *)
Definition mz_among_most_abundant (self : Scan) (mz : flt) (n : nat)
  : outcome (bool * Scan) :=
  s1 <- sort_mz self ;;
  ir <- (match irank s1 with
         | Some ir => Ok ir
         | None => Raise AttributeError
         end) ;;
  let i := lookup.find
             (mask_select (mzs s1) (map (fun r => Nat.ltb r n) ir))
             mz (tolerance s1) in
  s2 <- sort_intensity s1 ;;
  Ok (match i with Some _ => true | None => false end, s2).

End ms2.

(* ------------------------------------------------------------------ *)
(** ** lipyd.ms2: the intensity-ratio check *)

Section intensity.

Context {E : Externals}.

Definition Rleb (x y : R) : bool := if Rle_dec x y then true else false.

(** [math.log(x, base)]: the logarithm of [x], then that of [base], then
    their quotient. *)
Definition math_log (x base : R) : outcome R :=
  if Rleb x 0 then Raise ValueError
  else if Rleb base 0 then Raise ValueError
  else if Req_dec_T base 1 then Raise ZeroDivisionError
  else Ok (ln x / ln base)%R.

(** [itertools.combinations(l, 2)]. *)
Fixpoint combinations2 {A : Type} (l : list A) : list (A * A) :=
  match l with
  | [] => []
  | x :: r => map (pair x) r ++ combinations2 r
  end.

(** [all(log(co[0], logbase) - log(co[1], logbase) <= 1 for co in ...)]:
    stops at the first pair that fails. *)
Fixpoint all_log_ratios (logbase : R) (cos : list (R * R)) : outcome bool :=
  match cos with
  | [] => Ok true
  | (co0, co1) :: r =>
      l0 <- math_log co0 logbase ;;
      l1 <- math_log co1 logbase ;;
      if Rleb (l0 - l1) 1 then all_log_ratios logbase r else Ok false
  end.

(** [ins / expected[i] / cntr[ind]] for the pairs of
    [zip(enumerate(intensities), frag_indices)]. *)
Fixpoint intcorr (cntr : nat -> nat) (expected : list R) (i : nat)
    (intensities' : list R) (frag_indices : list nat) : outcome (list R) :=
  match intensities', frag_indices with
  | ins :: r, ind :: rind =>
      e <- getitem expected i ;;
      if Req_dec_T e 0 then Raise ZeroDivisionError
      else
        rest <- intcorr cntr expected (S i) r rind ;;
        Ok ((ins / e / INR (cntr ind))%R :: rest)
  | _, _ => Ok []
  end.

(** [Scan.intensity_ratios]: tells if the ratio of a list of intensities
    fits the one in [expected], or is more or less even if [expected] is
    [None].  The [logbase] argument is overwritten from the settings.
    For an intensity that is not positive the code goes to raise
    [ValueError], and builds the message from [str(self.sample)]: no
    [Scan] has the attribute [sample], so that it is [AttributeError]
    that is raised.  The logarithms are those of real numbers: where the
    difference of two of them is 1 or next to it, the floats of
    [math.log] may fall on the other side. *)
Definition intensity_ratios (intensities' : list R)
    (frag_indices : option (list nat)) (expected : option (list R))
    (logbase : R) : outcome bool :=
  let logbase := chain_fragment_instensity_ratios_logbase in
  if Nat.eqb (List.length intensities') 1 then Ok true
  else if existsb (fun x => Rleb x 0) intensities' then Raise AttributeError
  else
    let frag_indices :=
      match frag_indices with
      | Some (x :: r) => x :: r
      | _ => seq 0 (List.length intensities')
      end in
    let cntr := fun ind => count_occ Nat.eq_dec frag_indices ind in
    let expected :=
      match expected with
      | Some e => e
      | None => repeat 1%R (List.length intensities')
      end in
    ic <- intcorr cntr expected 0 intensities' frag_indices ;;
    all_log_ratios logbase (combinations2 ic).

Definition Qc2R (q : Qc) : R := Q2R (this q).

(** [Scan._intensity_check]: performs the chain intensity ratio check
    according to settings. *)
Definition _intensity_check (self : Scan) (frag_comb : list ChainFragment.t)
    (chainsum : lipproc.ChainSummary.t) (expected_intensities : option (list R))
  : outcome bool :=
  typ0 <- getitem (lipproc.ChainSummary.typ chainsum) 0 ;;
  let is_sph := String.eqb typ0 "Sph" in
  let need :=
    if is_sph && check_ratio_s self then true
    else if negb is_sph && check_ratio_g self then true
    else match expected_intensities with
         | Some (_ :: _) => true
         | _ => false
         end in
  if negb need then Ok true
  else
    intensity_ratios
      (map (fun f => Qc2R (ChainFragment.intensity f)) frag_comb)
      (Some (map ChainFragment.i frag_comb))
      expected_intensities
      (iratio_logbase self).

End intensity.

(* ------------------------------------------------------------------ *)
(** ** lipyd.ms2: the chain combination solver *)

Section solver.

Context {E : Externals}.

(** A generator that runs [body] for each element in turn and yields where
    [body] gives a value; an exception ends it. *)
Fixpoint gen_for {A B : Type} (body : A -> outcome (option B)) (l : list A)
  : gen B :=
  match l with
  | [] => mkGen [] None
  | x :: r =>
      match body x with
      | Raise e => mkGen [] (Some e)
      | Ok None => gen_for body r
      | Ok (Some y) =>
          let g := gen_for body r in mkGen (y :: yielded g) (raised g)
      end
  end.

(** A generator whose code before the loop may raise. *)
Definition gen_of {B : Type} (m : outcome (gen B)) : gen B :=
  match m with
  | Ok g => g
  | Raise e => mkGen [] (Some e)
  end.

(** [itertools.product( *lists)]. *)
Fixpoint product {A : Type} (ls : list (list A)) : list (list A) :=
  match ls with
  | [] => [[]]
  | l :: r => flat_map (fun x => map (cons x) (product r)) l
  end.

Definition sumZ (l : list Z) : Z := fold_right Z.add 0%Z l.

(** [frags_for_position[ci].append(frag)] on a [defaultdict(list)]. *)
Fixpoint dict_append {V : Type} (d : list (nat * list V)) (ci : nat) (v : V)
  : list (nat * list V) :=
  match d with
  | [] => [(ci, [v])]
  | (k, l) :: r =>
      if Nat.eqb k ci then (k, l ++ [v]) :: r else (k, l) :: dict_append r ci v
  end.

(** [sorted(d.items(), key = lambda i: i[0])], by insertion. *)
Fixpoint insert_item {V : Type} (x : nat * V) (l : list (nat * V))
  : list (nat * V) :=
  match l with
  | [] => [x]
  | y :: r => if Nat.leb (fst x) (fst y) then x :: y :: r
              else y :: insert_item x r
  end.

Definition sorted_items {V : Type} (d : list (nat * V)) : list (nat * V) :=
  fold_right insert_item [] d.

(** [del d[key]]. *)
Definition dict_del {V : Type} (d : list (nat * V)) (key : nat)
  : list (nat * V) :=
  filter (fun kv => negb (Nat.eqb (fst kv) key)) d.

Definition dict_mem {V : Type} (d : list (nat * V)) (key : nat) : bool :=
  existsb (fun kv => Nat.eqb (fst kv) key) d.

(** [Scan.positions_for_frag_type]: the possible chain positions for a
    record and a fragment type. *)
Definition positions_for_frag_type (self : Scan) (record : lipproc.LipidRecord)
    (frag_type : string) : list nat :=
  let constr := fragdb.constraints get_db frag_type (ionmode self) in
  snd (match_constraints record constr).

(** [Scan.build_chain_list]. *)
Definition build_chain_list (self : Scan) : outcome Scan :=
  match chain_list self with
  | Some _ => Ok self
  | None =>
      cl <- _build_chain_list self None ;;
      Ok {| tolerance := tolerance self; sorted_by := sorted_by self;
            mzs := mzs self; ionmode := ionmode self;
            adducts := adducts self; intensities := intensities self;
            precursor := precursor self; annot := annot self;
            annot_fields := annot_fields self;
            imax := imax self; inorm := inorm self; iisort := iisort self;
            irank := irank self; imzsort := imzsort self;
            chain_list := Some cl; check_ratio_g := check_ratio_g self;
            check_ratio_s := check_ratio_s self;
            iratio_logbase := iratio_logbase self;
            chain_details := chain_details self |}
  end.

(** [Scan.adduct_chain_list]. *)
Definition adduct_chain_list (self : Scan) (ad : option string)
  : outcome (list ChainFragment.t * Scan) :=
  match ad with
  | None =>
      match chain_list self with
      | Some cl => Ok (cl, self)
      | None => Raise AttributeError
      end
  | Some a =>
      s' <- adduct self a ;;
      match fragdb.FragmentDatabaseAggregator.dict_get (adducts s') a with
      | Some data => Ok (adduct_chain_list_ data, s')
      | None => Raise KeyError
      end
  end.

(** The test on [frag_types] for one position:
    [not frag_types or not frag_types[ci] or frag.fragtype in frag_types[ci]]. *)
Definition frag_type_allowed (frag_types : option (list (option (list string))))
    (ci : nat) (fragtype : string) : outcome bool :=
  match frag_types with
  | None | Some [] => Ok true
  | Some fts =>
      ft <- getitem fts ci ;;
      match ft with
      | None | Some [] => Ok true
      | Some names => Ok (existsb (String.eqb fragtype) names)
      end
  end.

(** The loop of [frags_for_positions] over the chain list, with its
    [break]. *)
Fixpoint frags_for_positions_loop (self : Scan) (rec : lipproc.LipidRecord)
    (head : option nat) (intensity_threshold : Qc)
    (frag_types : option (list (option (list string))))
    (chain_list' : list ChainFragment.t)
    (frags_for_position : list (nat * list ChainFragment.t))
  : outcome (list (nat * list ChainFragment.t)) :=
  match chain_list' with
  | [] => Ok frags_for_position
  | frag :: r =>
      let beyond_head :=
        match head with
        | Some (S h) => Nat.leb (S h) (ChainFragment.i frag)
        | _ => false
        end in
      if beyond_head then Ok frags_for_position
      else
        inorm' <- (match inorm self with
                   | Some a => Ok a
                   | None => Raise AttributeError
                   end) ;;
        x <- getitem inorm' (ChainFragment.i frag) ;;
        if Qcltb x intensity_threshold then Ok frags_for_position
        else
          let chpos :=
            positions_for_frag_type self rec (ChainFragment.fragtype frag) in
          d <- fold_left
                 (fun acc ci =>
                    d <- acc ;;
                    ok <- frag_type_allowed frag_types ci
                            (ChainFragment.fragtype frag) ;;
                    Ok (if ok then dict_append d ci frag else d))
                 chpos (Ok frags_for_position) ;;
          frags_for_positions_loop self rec head intensity_threshold
            frag_types r d
  end.

(** [Scan.frags_for_positions]: the possible fragments for each position,
    as a dict from position to fragments. *)
Definition frags_for_positions (self : Scan) (rec : lipproc.LipidRecord)
    (head : option nat) (intensity_threshold : Qc)
    (frag_types : option (list (option (list string)))) (ad : option string)
  : outcome (list (nat * list ChainFragment.t) * Scan) :=
  ' (cl, s') <- adduct_chain_list self ad ;;
  d <- frags_for_positions_loop s' rec head intensity_threshold frag_types
         cl [] ;;
  Ok (d, s').

(** Modelled from the spec: [iterator_insert] comes from [lipyd/common.py],
    which is not among the sources.  It pairs each chain position with the
    index of the next fragment of the combination, and the position left
    unassigned (section 4.5, the missing chain variant) with [None]. *)
Fixpoint iterator_insert_from (i j n : nat) (insert : option nat)
  : list (nat * option nat) :=
  match n with
  | O => []
  | S n' =>
      if match insert with Some m => Nat.eqb i m | None => false end
      then (i, None) :: iterator_insert_from (S i) j n' insert
      else (i, Some j) :: iterator_insert_from (S i) (S j) n' insert
  end.

Definition iterator_insert (full_length : nat) (insert : option nat)
  : list (nat * option nat) :=
  iterator_insert_from 0 0 full_length insert.

(** The truth value of [rec.chainsum]: a summary with at least one chain. *)
Definition chainsum_truthy (cs : option lipproc.ChainSummary.t) : bool :=
  match cs with
  | Some x => negb (Nat.eqb (lipproc.ChainSummary.len x) 0)
  | None => false
  end.

(** [rec.chainsum or lipproc.sum_chains(rec.chains)]. *)
Definition chainsum_or_sum (rec : lipproc.LipidRecord)
  : lipproc.ChainSummary.t :=
  match lipproc.chainsum rec with
  | Some x => if Nat.eqb (lipproc.ChainSummary.len x) 0
              then sum_chains (lipproc.chains rec) else x
  | None => sum_chains (lipproc.chains rec)
  end.

(** The chain [_chains_frag_comb] builds for one position: from the
    fragment assigned to it, with the sphingoid base type and the hydroxyl
    groups of the record's chain summary; or the missing chain.  [missing]
    holds [missing_position] and [missing_chain], which come together. *)
Definition chain_for_position (frag_comb : list ChainFragment.t)
    (chainsum : lipproc.ChainSummary.t)
    (missing : option (nat * lipproc.Chain.t)) (p : nat * option nat)
  : outcome lipproc.Chain.t :=
  match snd p, missing with
  | Some ifrag, _ =>
      frag <- getitem frag_comb ifrag ;;
      at_ <- getitem (lipproc.ChainSummary.attr chainsum) (fst p) ;;
      Ok {| lipproc.Chain.c := ChainFragment.c frag;
            lipproc.Chain.u := ChainFragment.u frag;
            lipproc.Chain.typ := ChainFragment.chaintype frag;
            lipproc.Chain.attr :=
              {| lipproc.sph := lipproc.sph at_;
                 lipproc.ether :=
                   String.eqb (ChainFragment.chaintype frag) "FAL";
                 lipproc.oh := lipproc.oh at_ |} |}
  | None, Some m => Ok (snd m)
  | None, None => Raise TypeError
  end.

(** [Scan._chains_frag_comb]: a tuple of chains from a fragment combination
    and a chain summary, with the missing chain, if any, at its position;
    and the identification details when asked for. *)
Definition _chains_frag_comb (self : Scan) (frag_comb : list ChainFragment.t)
    (chainsum : lipproc.ChainSummary.t) (details : option bool)
    (missing : option (nat * lipproc.Chain.t))
  : outcome (list lipproc.Chain.t * option ChainIdentificationDetails) :=
  let details := match details with Some d => d | None => chain_details self end in
  let positions :=
    iterator_insert (lipproc.ChainSummary.len chainsum) (option_map fst missing) in
  chains <- mapM (chain_for_position frag_comb chainsum missing) positions ;;
  if details then
    let at_frag {A : Type} (f : ChainFragment.t -> outcome A) :=
      mapM (fun p : nat * option nat =>
              match snd p with
              | Some ifrag => frag <- getitem frag_comb ifrag ;;
                              x <- f frag ;; Ok (Some x)
              | None => Ok None
              end) positions in
    rank' <- at_frag (fun frag => Ok (ChainFragment.i frag)) ;;
    i' <- at_frag (fun frag =>
            match inorm self with
            | Some a => getitem a (ChainFragment.i frag)
            | None => Raise AttributeError
            end) ;;
    fragtype' <- at_frag (fun frag => Ok (ChainFragment.fragtype frag)) ;;
    Ok (chains, Some {| rank := rank'; details_i := i';
                        details_fragtype := fragtype' |})
  else Ok (chains, None).

(** [Scan.chain_combinations]: all combinations of chain derived fragments
    matching the total carbon count and unsaturation in a database record. *)
Definition chain_combinations (self : Scan) (rec : lipproc.LipidRecord)
    (head : option nat) (intensity_threshold : Qc)
    (expected_intensities : option (list R)) (no_intensity_check : bool)
    (frag_types : option (list (option (list string))))
    (fragment_details : option bool) (ad : option string)
  : gen (list lipproc.Chain.t * option ChainIdentificationDetails) :=
  gen_of (
    if negb (chainsum_truthy (lipproc.chainsum rec)) &&
       match lipproc.chains rec with [] => true | _ => false end
    then Ok (mkGen [] None)
    else
      s1 <- build_chain_list self ;;
      let chainsum := chainsum_or_sum rec in
      ' (frags_for_position, s2) <-
          frags_for_positions s1 rec head intensity_threshold frag_types ad ;;
      rcs <- (match lipproc.chainsum rec with
              | Some x => Ok x
              | None => Raise AttributeError
              end) ;;
      if negb (Nat.eqb (List.length frags_for_position)
                 (List.length (lipproc.ChainSummary.typ rcs)))
      then Ok (mkGen [] None)
      else
        Ok (gen_for
              (fun frag_comb =>
                 if Z.eqb (sumZ (map ChainFragment.c frag_comb))
                      (lipproc.ChainSummary.c chainsum) &&
                    Z.eqb (sumZ (map ChainFragment.u frag_comb))
                      (lipproc.ChainSummary.u chainsum)
                 then
                   ok <- (if no_intensity_check then Ok true
                          else _intensity_check s2 frag_comb chainsum
                                 expected_intensities) ;;
                   if ok then
                     y <- _chains_frag_comb s2 frag_comb chainsum
                            fragment_details None ;;
                     Ok (Some y)
                   else Ok None
                 else Ok None)
              (product (map snd (sorted_items frags_for_position))))).

(** [Scan.missing_chain]: the chains which could complement the chains
    identified among the fragments to fit the species in the record. *)
Definition missing_chain (self : Scan) (rec : lipproc.LipidRecord)
    (missing_position : nat) (head : option nat) (intensity_threshold : Qc)
    (expected_intensities : option (list R)) (no_intensity_check : bool)
    (frag_types : option (list (option (list string)))) (ad : option string)
  : gen (list lipproc.Chain.t * option ChainIdentificationDetails) :=
  gen_of (
    ' (_, s1) <- adduct_chain_list self ad ;;
    let chainsum := chainsum_or_sum rec in
    ' (frags_for_position, s2) <-
        frags_for_positions s1 rec head intensity_threshold frag_types ad ;;
    rcs <- (match lipproc.chainsum rec with
            | Some x => Ok x
            | None => Raise AttributeError
            end) ;;
    if Nat.leb (List.length (lipproc.ChainSummary.typ rcs)) missing_position
    then Raise ValueError
    else
      let frags_for_position :=
        if dict_mem frags_for_position missing_position
        then dict_del frags_for_position missing_position
        else frags_for_position in
      Ok (gen_for
            (fun frag_comb =>
               (* if more than one chain missing *)
               if Z.ltb 1 (Z.of_nat (lipproc.ChainSummary.len rcs)
                           - Z.of_nat (List.length frag_comb))
               then Ok None
               else
                 let missing_c :=
                   (lipproc.ChainSummary.c chainsum
                    - sumZ (map ChainFragment.c frag_comb))%Z in
                 let missing_u :=
                   (lipproc.ChainSummary.u chainsum
                    - sumZ (map ChainFragment.u frag_comb))%Z in
                 (* do not yield impossible values *)
                 if Z.ltb missing_c 1 || Z.ltb missing_u 0 ||
                    Z.ltb (missing_c - 1) missing_u
                 then Ok None
                 else
                   ok <- (if no_intensity_check then Ok true
                          else _intensity_check s2 frag_comb chainsum
                                 expected_intensities) ;;
                   if ok then
                     typ_ <- getitem (lipproc.ChainSummary.typ chainsum)
                               missing_position ;;
                     attr_ <- getitem (lipproc.ChainSummary.attr chainsum)
                                missing_position ;;
                     y <- _chains_frag_comb s2 frag_comb chainsum None
                            (Some (missing_position,
                                   {| lipproc.Chain.c := missing_c;
                                      lipproc.Chain.u := missing_u;
                                      lipproc.Chain.typ := typ_;
                                      lipproc.Chain.attr := attr_ |})) ;;
                     Ok (Some y)
                   else Ok None)
            (product (map snd (sorted_items frags_for_position))))).

End solver.

(* ------------------------------------------------------------------ *)
(** ** lipyd.ms2: identifiers and the score percentage *)

Module identifier.

Record MS2Identity : Type := {
  score : Z;
  max_score : Z;
  score_pct : Z;
  hg : option lipproc.Headgroup;
  chainsum : option lipproc.ChainSummary.t;
  chains : option (list lipproc.Chain.t);
  chain_details : option ChainIdentificationDetails
}.

(** A combination as the chain solver yields it. *)
Definition combination : Type :=
  (list lipproc.Chain.t * option ChainIdentificationDetails)%type.

(** The answers of the scan [self.scn] to the queries an identifier makes
    about its record [self.rec].  The identifier is embedded against this
    interface; the scan's own methods are embedded above. *)
Record ScanQueries : Type := {
  has_fragment : string -> option string -> outcome (option bool);
  fragment_among_most_abundant :
    string -> nat -> option string -> outcome (option bool);
  has_chain_fragment_type : list string -> option string -> outcome bool;
  chain_percent_of_most_abundant : list string -> Q -> outcome bool;
  has_chain_combinations : option string -> outcome bool;
  has_chain_combination :
    option nat -> list string -> list string -> outcome bool;
  chain_combinations : gen combination;
  missing_chain : nat -> gen combination
}.

(** The attributes of an identifier object that scoring reads and
    writes. *)
Record state : Type := {
  st_score : Z;
  st_max_score : Z;
  must_have_chains : bool;
  missing_chains : list nat;
  scores : list (string * Z);
  sph_scores : list (string * (Z * Z))
}.

Definition add_scores (st : state) (s m : Z) : state :=
  {| st_score := st_score st + s; st_max_score := st_max_score st + m;
     must_have_chains := must_have_chains st;
     missing_chains := missing_chains st; scores := scores st;
     sph_scores := sph_scores st |}.

Definition set_must_have_chains (st : state) (b : bool) : state :=
  {| st_score := st_score st; st_max_score := st_max_score st;
     must_have_chains := b; missing_chains := missing_chains st;
     scores := scores st; sph_scores := sph_scores st |}.

(** [numpy.round]: to the nearest integer, and to the even one of the two
    when half way. *)
Definition np_round (q : Q) : Z :=
  let f := Qfloor q in
  match Qcompare (q - inject_Z f) (1 # 2) with
  | Lt => f
  | Gt => (f + 1)%Z
  | Eq => if Z.even f then f else (f + 1)%Z
  end.

(** [AbstractMS2Identifier.percent_score]: the score as a percentage of
    the maximum possible score.  Zero maximum score means something is
    wrong, then it returns 200.  The quotient rounded is the exact one:
    the float quotient of the code may round to the other neighbour when
    the exact percentage ends in a half (23 of 40, 109 of 200). *)
Definition percent_score (st : state) : Z :=
  if Z.eqb (st_max_score st) 0 then 200%Z
  else
    Z.max
      (np_round (inject_Z (st_score st) / inject_Z (st_max_score st) * 100))
      0.

(** [bool(x)] of a query answer: [None] is false. *)
Definition truth (x : option bool) : bool :=
  match x with Some b => b | None => false end.

(** [sum(map(bool, answers))]. *)
Definition count_true (answers : list (option bool)) : Z :=
  Z.of_nat (List.length (filter truth answers)).

(** [sum(answers)] on raw answers: adding [None] to a number raises. *)
Fixpoint sum_answers (answers : list (option bool)) : outcome Z :=
  match answers with
  | [] => Ok 0%Z
  | Some b :: r => s <- sum_answers r ;; Ok ((if b then 1 else 0) + s)%Z
  | None :: _ => Raise TypeError
  end.

Section rules.

Variable scn : ScanQueries.
Variable rec : lipproc.LipidRecord.
(** [self.add], the adduct. *)
Variable add : option string.

Definition hg_main : option string :=
  option_map lipproc.main (lipproc.hg rec).

(** [AbstractMS2Identifier.identify]: the identity built at a yield of a
    chain generator, from the identifier's attributes at that moment. *)
Definition identity_at (st : state) (ch : option combination) : MS2Identity :=
  {| score := Z.max (st_score st) 0;
     max_score := st_max_score st;
     score_pct := percent_score st;
     hg := lipproc.hg rec;
     chainsum := lipproc.chainsum rec;
     chains := option_map fst ch;
     chain_details := match ch with Some c => snd c | None => None end |}.

(** What a chain generator of an identifier has done when it stops: the
    combinations it yielded, each with the identifier's attributes at that
    yield, and the attributes it leaves, or the exception that ended it. *)
Definition chain_trace : Type :=
  (list (combination * state) * outcome state)%type.

(** The methods an identifier class overrides. *)
Record methods : Type := {
  confirm_class : state -> outcome state;
  confirm_chains_explicit : state -> chain_trace;
  confirm_chains_implicit : state -> chain_trace
}.

(** [AbstractMS2Identifier.identify]. *)
Definition identify (m : methods) (explicit_and_implicit : bool) (st0 : state)
  : gen MS2Identity :=
  match lipproc.hg rec with
  | None => mkGen [] None
  | Some _ =>
      match confirm_class m st0 with
      | Raise e => mkGen [] (Some e)
      | Ok st1 =>
          let (ex, after_ex) := confirm_chains_explicit m st1 in
          let ids_ex := map (fun y => identity_at (snd y) (Some (fst y))) ex in
          match after_ex with
          | Raise e => mkGen ids_ex (Some e)
          | Ok st2 =>
              let chains_confirmed := negb (Nat.eqb (List.length ex) 0) in
              if negb chains_confirmed || explicit_and_implicit then
                let (im, after_im) := confirm_chains_implicit m st2 in
                let ids_im :=
                  map (fun y => identity_at (snd y) (Some (fst y))) im in
                match after_im with
                | Raise e => mkGen (ids_ex ++ ids_im) (Some e)
                | Ok st3 =>
                    let chains_confirmed :=
                      chains_confirmed || negb (Nat.eqb (List.length im) 0) in
                    if negb chains_confirmed && negb (must_have_chains st3)
                       && negb (Z.eqb (st_score st3) 0)
                    then mkGen (ids_ex ++ ids_im ++ [identity_at st3 None]) None
                    else mkGen (ids_ex ++ ids_im) None
                end
              else mkGen ids_ex None
          end
      end
  end.

(** A scoring method: the [(score, max_score)] it returns, and the
    identifier's attributes after it. *)
Definition rule : Type := state -> outcome (Z * Z * state).

Definition dict_get := @fragdb.FragmentDatabaseAggregator.dict_get.

(** [AbstractMS2Identifier.confirm_class]. *)
Definition base_confirm_class (class_methods : list (string * rule))
    (st : state) : outcome state :=
  let st := add_scores st (- st_score st) 0 in
  match hg_main with
  | Some main =>
      match dict_get class_methods main with
      | Some method =>
          ' (sm, st') <- method st ;;
          Ok (add_scores st' (fst sm) (snd sm))
      | None => Ok st
      end
  | None => Ok st
  end.

Definition set_score_of (st : state) (sub : string) (s : Z) : state :=
  {| st_score := st_score st; st_max_score := st_max_score st;
     must_have_chains := must_have_chains st;
     missing_chains := missing_chains st;
     scores := dict_set (scores st) sub s; sph_scores := sph_scores st |}.

(** [AbstractMS2Identifier.confirm_subclass]. *)
Definition confirm_subclass (subclass_methods : list (string * rule))
    (st : state) : outcome state :=
  h <- (match lipproc.hg rec with
        | Some h => Ok h
        | None => Raise AttributeError
        end) ;;
  let subclasses :=
    match lipproc.sub h with [] => ["empty"%string] | l => l end in
  fold_left
    (fun acc sub =>
       st <- acc ;;
       match dict_get (scores st) sub, dict_get subclass_methods sub with
       | None, Some method =>
           ' (sm, st') <- method st ;;
           Ok (add_scores (set_score_of st' sub (fst sm)) (fst sm) (snd sm))
       | _, _ => Ok st
       end)
    subclasses (Ok st).

Definition gen_outcome (st : state) (raised' : option Exc) : outcome state :=
  match raised' with
  | Some e => Raise e
  | None => Ok st
  end.

(** [AbstractMS2Identifier.confirm_chains_explicit]. *)
Definition base_confirm_chains_explicit (st : state) : chain_trace :=
  let g := chain_combinations scn in
  (map (fun y => (y, st)) (yielded g), gen_outcome st (raised g)).

(** The combinations [AbstractMS2Identifier.confirm_chains_implicit]
    goes through: those of [missing_chain] for each position in
    [missing_chains], up to the first exception. *)
Fixpoint implicit_combinations (positions : list nat) : gen combination :=
  match positions with
  | [] => mkGen [] None
  | missing :: r =>
      let g := missing_chain scn missing in
      match raised g with
      | Some e => g
      | None =>
          let g' := implicit_combinations r in
          mkGen (yielded g ++ yielded g') (raised g')
      end
  end.

Definition base_confirm_chains_implicit (st : state) : chain_trace :=
  let g := implicit_combinations (missing_chains st) in
  (map (fun y => (y, st)) (yielded g), gen_outcome st (raised g)).

Definition AbstractMS2Identifier (class_methods : list (string * rule))
  : methods :=
  {| confirm_class := base_confirm_class class_methods;
     confirm_chains_explicit := base_confirm_chains_explicit;
     confirm_chains_implicit := base_confirm_chains_implicit |}.

End rules.

(** [str.lower] on ASCII. *)
Definition lower_ascii (a : Ascii.ascii) : Ascii.ascii :=
  let n := Ascii.nat_of_ascii a in
  if Nat.leb 65 n && Nat.leb n 90 then Ascii.ascii_of_nat (n + 32) else a.

Fixpoint lower (s : string) : string :=
  match s with
  | EmptyString => EmptyString
  | String a r => String (lower_ascii a) (lower r)
  end.

Section Cer_Negative.

Variable scn : ScanQueries.
Variable rec : lipproc.LipidRecord.
Variable add : option string.

(** [self.nacyl]. *)
Definition nacyl : bool :=
  match lipproc.chainsum rec with
  | Some cs => Nat.ltb 1 (lipproc.ChainSummary.len cs)
  | None => false
  end.

Definition points (b : bool) (p : Z) : Z := if b then p else 0%Z.

(** [Cer_Negative.fatty_acyl]. *)
Definition fatty_acyl (fa : lipproc.Chain.t) (st : state)
  : outcome (Z * Z * state) :=
  if Nat.eqb (List.length (lipproc.oh (lipproc.Chain.attr fa))) 1 then
    b <- has_chain_combination scn (Some 20%nat)
           ["Sph-H"; "Sph-C2H4-NH2-H2O"]%string
           ["FA+C2+NH2+O"; "FA+CH2+NH2+O"]%string ;;
    Ok (points b 30, 30%Z, st)
  else Ok (0%Z, 0%Z, st).

(** [Cer_Negative.cer]. *)
Definition cer (st : state) : outcome (Z * Z * state) :=
  let cer_nl :=
    ["NL H2O (NL 18.0106)"; "NL 2xH2O (NL 36.0211)";
     "NL C+H2O (NL 30.0106)"; "NL CH2+H2O (NL 32.0262)";
     "NL C+2xH2O (NL 48.0211)"; "NL C+3xH2O (66.0455)"]%string in
  answers <- mapM (fun frag_name => has_fragment scn frag_name add) cer_nl ;;
  n <- sum_answers answers ;;
  b <- has_chain_combinations scn add ;;
  Ok ((n * 3 + points b 5)%Z, 23%Z, st).

(** [Cer_Negative.sphingosine_d_dh]. *)
Definition sphingosine_d_dh (st : state) : outcome (Z * Z * state) :=
  b <- has_chain_combination scn None
         ["Sph-H"; "Sph-C2H4-3H"; "Sph-CH2-H2O-H"; "Sph-H2O-NH2-2H";
          "Sph-C2H4-NH2-H2O"]%string
         ["FA+C2+NH2"; "FA+C2+NH2-O"]%string ;;
  Ok (points b 20, 20%Z, st).

(** [Cer_Negative.sphingosine_d]. *)
Definition sphingosine_d (st : state) : outcome (Z * Z * state) :=
  let score := 0%Z in
  let max_score := 20%Z in
  ' (d_dh, st) <- sphingosine_d_dh st ;;
  let score := (score + fst d_dh)%Z in
  let max_score := (max_score + snd d_dh)%Z in
  f <- has_fragment scn "NL C+H2O (NL 30.0106)" add ;;
  Ok ((score + points (truth f) 20)%Z, max_score, st).

(** [Cer_Negative.sphingosine_dh]. *)
Definition sphingosine_dh (st : state) : outcome (Z * Z * state) :=
  let score := 0%Z in
  let max_score := (-20)%Z in
  ' (d_dh, st) <- sphingosine_d_dh st ;;
  let score := (score + fst d_dh)%Z in
  let max_score := (max_score + snd d_dh)%Z in
  f <- has_fragment scn "NL C+H2O (NL 30.0106)" add ;;
  Ok ((score - points (truth f) 20)%Z, max_score, st).

(** [Cer_Negative.sphingosine_t]. *)
Definition sphingosine_t (st : state) : outcome (Z * Z * state) :=
  f1 <- has_fragment scn "NL C+3xH2O (66.0455)" add ;;
  f2 <- has_fragment scn "HexCer identity II" None ;;
  b <- has_chain_combination scn None
         ["Sph-CH2-NH2-4H"]%string
         ["FA+C2H2+NH2"; "FA+C3H2+NH2"]%string ;;
  (* differentiate from hydroxyacyl-dCer *)
  p <- chain_percent_of_most_abundant scn
         ["FA+C2H2+NH2+O"; "FA+C2+NH2+O"]%string 5 ;;
  Ok ((points (truth f1) 5 + points (truth f2) 3 + points b 20
       - points p 10)%Z, 28%Z, st).

Definition set_sph_score (st : state) (sph : string) (sm : Z * Z) : state :=
  {| st_score := st_score st; st_max_score := st_max_score st;
     must_have_chains := must_have_chains st;
     missing_chains := missing_chains st; scores := scores st;
     sph_scores := dict_set (sph_scores st) sph sm |}.

(** [Cer_Negative.sphingosine_base]: the method is found by name,
    ['sphingosine_%s' % sph.lower()]; a base with no method scores
    [(0, 0)]; the result is kept per base. *)
Definition sphingosine_base (sph : string) (st : state)
  : outcome (Z * Z * state) :=
  match dict_get (sph_scores st) sph with
  | Some sm => Ok (sm, st)
  | None =>
      let method := lower sph in
      ' (sm, st') <-
        (if String.eqb method "d" then sphingosine_d st
         else if String.eqb method "dh" then sphingosine_dh st
         else if String.eqb method "t" then sphingosine_t st
         else if String.eqb method "d_dh" then sphingosine_d_dh st
         else Ok (0%Z, 0%Z, st)) ;;
      Ok (sm, set_sph_score st' sph sm)
  end.

(** [Cer_Negative.cer1p]. *)
Definition cer1p (st : state) : outcome (Z * Z * state) :=
  f1 <- has_fragment scn "Cer1P/PIP/PL metaphosphate (78.9591)" None ;;
  f2 <- has_fragment scn "Cer1P/PI phosphate (96.9696)" None ;;
  ' (score, st) <-
    (if truth f1 || truth f2 then
       f3 <- has_fragment scn "NL H2O (NL 18.0106)" add ;;
       f4 <- has_chain_fragment_type scn
               ["NLFA_pH2O"; "NLFA_p2xH2O"]%string add ;;
       Ok ((20 + points (truth f3) 10 + points f4 10)%Z,
           set_must_have_chains st false)
     else Ok (0%Z, st)) ;;
  if match hg_main rec with
     | Some main => String.eqb main "Sph"
     | None => false
     end
  then
    f5 <- fragment_among_most_abundant scn
            "Cer1P/PIP/PL metaphosphate (78.9591)" 3 None ;;
    if truth f5 then
      f6 <- has_fragment scn "Cer1P/PI phosphate (96.9696)" None ;;
      Ok ((score + 20 + points (truth f6) 10)%Z, 70%Z,
          set_must_have_chains st false)
    else Ok (score, 70%Z, st)
  else Ok (score, 70%Z, st).

(** [Cer_Negative.sm]. *)
Definition sm (st : state) : outcome (Z * Z * state) :=
  f1 <- fragment_among_most_abundant scn "NL CH2 (NL 14.0157)" 3 add ;;
  f2 <- (if truth f1
         then fragment_among_most_abundant scn
                "PC/SM PO4+choline-CH3 (168.0431)" 5 None
         else Ok (Some false)) ;;
  if truth f1 && truth f2 then
    g1 <- has_fragment scn "Cer1P/PIP/PL metaphosphate (78.9591)" None ;;
    g2 <- has_fragment scn "NL choline+H2O" add ;;
    g3 <- has_fragment scn "NL choline+H2O-CH3" add ;;
    Ok ((30 + count_true [g1; g2; g3] * 5)%Z, 45%Z,
        set_must_have_chains st false)
  else Ok (0%Z, 45%Z, st).

(** [Cer_Negative.hexcer]: the fragment points go to [self.score]
    directly. *)
Definition hexcer (st : state) : outcome (Z * Z * state) :=
  a1 <- fragment_among_most_abundant scn "HexCer identity I" 10 None ;;
  a2 <- fragment_among_most_abundant scn "HexCer identity II" 10 None ;;
  a3 <- fragment_among_most_abundant scn "HexCer identity III" 10 None ;;
  a4 <- has_fragment scn "[Hexose] (179.0561)" None ;;
  a5 <- has_fragment scn "[Hexose-H2O] (161.0455)" None ;;
  a6 <- has_fragment scn "[Hexose-HCHO] (149.0455)" None ;;
  a7 <- has_fragment scn "NL hexose (162.053)" None ;;
  a8 <- has_fragment scn "NL hexose+H2O (180.063)" None ;;
  let st := add_scores st (count_true [a1; a2; a3; a4; a5; a6; a7; a8] * 10) 0 in
  b <- has_chain_combinations scn None ;;
  Ok (points b 10, 90%Z, st).

Definition class_methods : list (string * rule) :=
  [("Cer"%string, cer); ("SM"%string, sm)].

Definition subclass_methods : list (string * rule) :=
  [("1P"%string, cer1p); ("Hex"%string, hexcer)].

(** [Cer_Negative.confirm_class]. *)
Definition Cer_Negative_confirm_class (st : state) : outcome state :=
  st <- base_confirm_class rec class_methods st ;;
  confirm_subclass rec subclass_methods st.

(** The body of the loop of [Cer_Negative.confirm_chains_explicit] for one
    combination: the attributes at the yield, if it yields, and after. *)
Definition explicit_body (ch : combination) (st : state)
  : outcome (option state * state) :=
  c0 <- getitem (fst ch) 0 ;;
  cs <- (match lipproc.chainsum rec with
         | Some cs => Ok cs
         | None => Raise AttributeError
         end) ;;
  a0 <- getitem (lipproc.ChainSummary.attr cs) 0 ;;
  let sph := lipproc.sph (lipproc.Chain.attr c0) in
  if String.eqb sph (lipproc.sph a0) then
    (* the sphingosin base and fatty acyl related part of the score is
       valid only for the current chain combination *)
    ' (sph_sm, st) <- sphingosine_base sph st ;;
    let st := add_scores st (fst sph_sm) (snd sph_sm) in
    ' (fa_sm, st) <-
      (if nacyl then fa <- getitem (fst ch) 1 ;; fatty_acyl fa st
       else Ok (0%Z, 0%Z, st)) ;;
    let st := add_scores st (fst fa_sm) (snd fa_sm) in
    Ok (Some st,
        add_scores st (- fst sph_sm - fst fa_sm) (- snd sph_sm - snd fa_sm))
  else Ok (None, st).

Fixpoint explicit_loop (items : list combination) (st : state) : chain_trace :=
  match items with
  | [] => ([], Ok st)
  | ch :: r =>
      match explicit_body ch st with
      | Raise e => ([], Raise e)
      | Ok (None, st') => explicit_loop r st'
      | Ok (Some at_yield, st') =>
          let (tr, fin) := explicit_loop r st' in ((ch, at_yield) :: tr, fin)
      end
  end.

(** A loop over a generator: an exception of the generator comes after
    the combinations it had yielded. *)
Definition explicit_over (g : gen combination) (st : state) : chain_trace :=
  let (tr, fin) := explicit_loop (yielded g) st in
  (tr, st' <- fin ;; gen_outcome st' (raised g)).

(** [Cer_Negative.confirm_chains_explicit]: the explicit and then the
    implicit combinations of the base class, each scored for its
    sphingoid base and fatty acyl. *)
Definition Cer_Negative_confirm_chains_explicit (st : state) : chain_trace :=
  let (tr1, fin1) := explicit_over (chain_combinations scn) st in
  match fin1 with
  | Raise e => (tr1, Raise e)
  | Ok st1 =>
      let (tr2, fin2) :=
        explicit_over (implicit_combinations scn (missing_chains st1)) st1 in
      (tr1 ++ tr2, fin2)
  end.

Definition Cer_Negative : methods :=
  {| confirm_class := Cer_Negative_confirm_class;
     confirm_chains_explicit := Cer_Negative_confirm_chains_explicit;
     confirm_chains_implicit := base_confirm_chains_implicit scn |}.

(** The attributes [Cer_Negative.__init__] sets. *)
Definition Cer_Negative_init : state :=
  {| st_score := 0; st_max_score := 0; must_have_chains := true;
     missing_chains := []; scores := []; sph_scores := [] |}.

End Cer_Negative.

End identifier.

(* ------------------------------------------------------------------ *)
(** ** Well-formed scans *)

(** Ascending order of m/z values. *)
Definition ascending (l : list Qc) : Prop := StronglySorted Qcle l.

(** The per-peak arrays of a constructed scan have one length. *)
Definition arrays_wf (s : Scan) : Prop :=
  let n := List.length (mzs s) in
  List.length (intensities s) = n /\
  (exists r, irank s = Some r /\ List.length r = n) /\
  (exists a, annot s = Some a /\ List.length a = n) /\
  (exists x, inorm s = Some x /\ List.length x = n) /\
  Forall (fun e => List.length (adduct_annot_ (snd e)) = n) (adducts s).

(** The two cached index arrays are permutations of the peak indices, one
    of the two orders is active, and the m/z array agrees with the index
    arrays: in intensity order, [imzsort] sorts it and [iisort] brings the
    sorted array back; in m/z order it is sorted and the two index arrays
    applied in turn give it back. *)
Definition order_wf (s : Scan) : Prop :=
  let n := List.length (mzs s) in
  exists ii im,
    iisort s = Some ii /\ imzsort s = Some im /\
    Permutation ii (seq 0 n) /\ Permutation im (seq 0 n) /\
    match sorted_by s with
    | Some by_intensities =>
        exists m, reindex (mzs s) im = Ok m /\ ascending m /\
                  reindex m ii = Ok (mzs s)
    | Some by_mzs =>
        ascending (mzs s) /\
        exists m, reindex (mzs s) ii = Ok m /\ reindex m im = Ok (mzs s)
    | None => False
    end.

(** The invariant of a constructed scan. *)
Definition scan_wf (s : Scan) : Prop := arrays_wf s /\ order_wf s.

(** The values a scan holds for the peak at index [i]: m/z, intensity,
    intensity rank, normalized intensity, annotations, and the annotations
    of each cached adduct view. *)
Record peak : Type := {
  peak_mz : option Qc;
  peak_intensity : option Qc;
  peak_irank : option nat;
  peak_inorm : option Qc;
  peak_annot : option (list fragdb.FragmentAnnotation);
  peak_adduct_annot : list (string * option (list fragdb.FragmentAnnotation))
}.

Definition opt_nth {A : Type} (a : option (list A)) (i : nat) : option A :=
  match a with
  | Some l => nth_error l i
  | None => None
  end.

Definition peak_at (s : Scan) (i : nat) : peak :=
  {| peak_mz := nth_error (mzs s) i;
     peak_intensity := nth_error (intensities s) i;
     peak_irank := opt_nth (irank s) i;
     peak_inorm := opt_nth (inorm s) i;
     peak_annot := opt_nth (annot s) i;
     peak_adduct_annot :=
       map (fun e => (fst e, nth_error (adduct_annot_ (snd e)) i))
         (adducts s) |}.

(** [s'] holds the per-peak arrays of [s], each indexed by the one index
    array [p]. *)
Definition reordered (p : list nat) (s s' : Scan) : Prop :=
  reindex (mzs s) p = Ok (mzs s') /\
  reindex (intensities s) p = Ok (intensities s') /\
  opt_reindex (irank s) p = Ok (irank s') /\
  opt_reindex (annot s) p = Ok (annot s') /\
  opt_reindex (inorm s) p = Ok (inorm s') /\
  mapM (sort_adduct p) (adducts s) = Ok (adducts s').

(** What no sort transition touches. *)
Definition same_settings (s s' : Scan) : Prop :=
  tolerance s' = tolerance s /\ ionmode s' = ionmode s /\
  precursor s' = precursor s /\ imax s' = imax s /\
  iisort s' = iisort s /\ imzsort s' = imzsort s /\
  chain_list s' = chain_list s.

(** [s'] is [s] with every per-peak array reordered by one and the same
    permutation [p] of the peak indices, so that index [k] of [s'] holds
    what index [p[k]] of [s] held. *)
Definition co_permuted (s s' : Scan) : Prop :=
  exists p,
    Permutation p (seq 0 (List.length (mzs s))) /\
    reordered p s s' /\
    forall k i, nth_error p k = Some i -> peak_at s' k = peak_at s i.

(** The bucket of a position in the dict [frags_for_positions] returns:
    empty when the dict has no entry for it. *)
Fixpoint frags_at {V : Type} (d : list (nat * list V)) (p : nat) : list V :=
  match d with
  | [] => []
  | (k, l) :: r => if Nat.eqb k p then l else frags_at r p
  end.

(** The entries of the dict: distinct positions below [K], each with at
    least one fragment. *)
Definition buckets_wf {V : Type} (K : nat) (d : list (nat * list V)) : Prop :=
  NoDup (map fst d) /\
  Forall (fun kv => (fst kv < K)%nat /\ snd kv <> []) d.

(** A chain carries the counts of the fragment it was built from. *)
Definition same_counts (frag : ChainFragment.t) (ch : lipproc.Chain.t) : Prop :=
  lipproc.Chain.c ch = ChainFragment.c frag /\
  lipproc.Chain.u ch = ChainFragment.u frag.

(** The charge test of [lookup]: neutral losses have charge zero. *)
Definition charge_test (nl : bool) (row : fragdb.FragmentAnnotation) : bool :=
  if nl then Z.eqb (fragdb.charge row) 0
  else negb (Z.eqb (fragdb.charge row) 0).

(* ------------------------------------------------------------------ *)
(** ** Concrete collaborators and inputs *)

(** A stable [argsort] by insertion: one of the orders [numpy.argsort] may
    return. *)
Fixpoint insert_index (keys : list Qc) (i : nat) (sorted : list nat)
  : list nat :=
  match sorted with
  | [] => [i]
  | j :: r =>
      if Qcleb (nth i keys 0%Qc) (nth j keys 0%Qc) then i :: j :: r
      else j :: insert_index keys i r
  end.

Fixpoint argsort_indices (keys : list Qc) (idx : list nat) : list nat :=
  match idx with
  | [] => []
  | i :: r => insert_index keys i (argsort_indices keys r)
  end.

Definition argsort_stable (keys : list Qc) : list nat :=
  argsort_indices keys (seq 0 (List.length keys)).

(** The order of two indices by their keys. *)
Definition key_le (keys : list Qc) (i j : nat) : Prop :=
  (nth i keys 0%Qc <= nth j keys 0%Qc)%Qc.

(** A constraint matcher: a fragment type with no constraint may come from
    any position, else from the positions whose chain type a constraint
    names. *)
Definition match_chain_types (rec : lipproc.LipidRecord)
    (constr : list fragdb.FragConstraint) : bool * list nat :=
  match lipproc.chainsum rec with
  | None => (false, [])
  | Some cs =>
      let typ := lipproc.ChainSummary.typ cs in
      let ok (p : nat) :=
        match constr with
        | [] => true
        | _ => existsb (fun k =>
                 match fragdb.chaintype_ k with
                 | Some t => String.eqb t (nth p typ ""%string)
                 | None => true
                 end) constr
        end in
      let ps := filter ok (seq 0 (List.length typ)) in
      (negb (Nat.eqb (List.length ps) 0), ps)
  end.

Definition sum_chains_plain (chains : list lipproc.Chain.t)
  : lipproc.ChainSummary.t :=
  {| lipproc.ChainSummary.c := sumZ (map lipproc.Chain.c chains);
     lipproc.ChainSummary.u := sumZ (map lipproc.Chain.u chains);
     lipproc.ChainSummary.typ := map lipproc.Chain.typ chains;
     lipproc.ChainSummary.attr := map lipproc.Chain.attr chains |}.

(** The collaborators around a given fragment database: tolerance 10 ppm,
    no intensity-ratio checks, log base 1.5. *)
Definition env_of (db : fragdb.FragmentDatabaseAggregator.t) : Externals :=
  {| argsort := argsort_stable;
     get_db := fun _ => db;
     ms2_tolerance := Q2Qc 10;
     even_chain_fragment_intensity_ratios_gl_gpl := false;
     even_chain_fragment_intensity_ratios_sl := false;
     chain_fragment_instensity_ratios_logbase := 1.5%R;
     ms2_scan_chain_details := false;
     match_constraints := match_chain_types;
     sum_chains := sum_chains_plain;
     reference_precursor :=
       fun _ _ p => match p with Some q => Ok q | None => Raise TypeError end |}.

Definition plain_fragment (m : Q) (name : string) (charge : Z)
  : fragdb.FragmentAnnotation :=
  {| fragdb.mz := Q2Qc m; fragdb.name := name; fragdb.fragtype := "";
     fragdb.chaintype := ""; fragdb.cu := None; fragdb.charge := charge |}.

Definition chain_fragment_row (m : Q) (name fragtype chaintype : string)
    (c u : Z) (charge : Z) : fragdb.FragmentAnnotation :=
  {| fragdb.mz := Q2Qc m; fragdb.name := name; fragdb.fragtype := fragtype;
     fragdb.chaintype := chaintype; fragdb.cu := Some (c, u);
     fragdb.charge := charge |}.

(** The database of scenario A: the phosphocholine ion. *)
Definition db_pc : fragdb.FragmentDatabaseAggregator.t :=
  {| fragdb.FragmentDatabaseAggregator.fragments :=
       [plain_fragment 184.0733 "PC/SM [P+Ch] (184.0733)" 1];
     fragdb.FragmentDatabaseAggregator.tolerance := Q2Qc 50;
     fragdb.FragmentDatabaseAggregator.frags_by_name :=
       [("PC/SM [P+Ch] (184.0733)"%string, 0%nat)];
     fragdb.FragmentDatabaseAggregator.constraints := [] |}.

(** A database with one neutral loss of 183.05. *)
Definition db_nl : fragdb.FragmentDatabaseAggregator.t :=
  {| fragdb.FragmentDatabaseAggregator.fragments :=
       [plain_fragment 183.05 "NL 183.05" 0];
     fragdb.FragmentDatabaseAggregator.tolerance := Q2Qc 50;
     fragdb.FragmentDatabaseAggregator.frags_by_name :=
       [("NL 183.05"%string, 0%nat)];
     fragdb.FragmentDatabaseAggregator.constraints := [] |}.

(** A database of three fatty acid fragments, negative mode. *)
Definition db_fa : fragdb.FragmentDatabaseAggregator.t :=
  {| fragdb.FragmentDatabaseAggregator.fragments :=
       [chain_fragment_row 255.2330 "FA-H 16:0" "FA-H" "FA" 16 0 (-1);
        chain_fragment_row 281.2486 "FA-H 18:1" "FA-H" "FA" 18 1 (-1);
        chain_fragment_row 283.2643 "FA-H 18:0" "FA-H" "FA" 18 0 (-1)];
     fragdb.FragmentDatabaseAggregator.tolerance := Q2Qc 50;
     fragdb.FragmentDatabaseAggregator.frags_by_name :=
       [("FA-H 16:0"%string, 0%nat); ("FA-H 18:1"%string, 1%nat);
        ("FA-H 18:0"%string, 2%nat)];
     fragdb.FragmentDatabaseAggregator.constraints := [] |}.

(** Two peaks, the lower one at the phosphocholine m/z. *)
Definition scan_pc : outcome Scan :=
  Scan_init (E := env_of db_pc) [Q2Qc 184.0733; Q2Qc 300] pos None
    (Some [Q2Qc 50; Q2Qc 100]) (Some (Q2Qc 10)).

(** Three peaks given in no particular order. *)
Definition scan_three : outcome Scan :=
  Scan_init (E := env_of db_pc) [Q2Qc 200; Q2Qc 100; Q2Qc 300] pos None
    (Some [Q2Qc 5; Q2Qc 9; Q2Qc 7]) (Some (Q2Qc 10)).

(** Three peaks with a precursor, and a cached view for the ammonium
    adduct. *)
Definition scan_adduct : outcome Scan :=
  s <- Scan_init (E := env_of db_pc) [Q2Qc 200; Q2Qc 100; Q2Qc 300] pos
         (Some (Q2Qc 400)) (Some [Q2Qc 5; Q2Qc 9; Q2Qc 7]) (Some (Q2Qc 10)) ;;
  adduct (E := env_of db_pc) s "[M+NH4]+".

(** The three fatty acid peaks of scenario C, and a fourth peak that has
    no annotation: the annotation array holds named tuples. *)
Definition scan_fa : outcome Scan :=
  Scan_init (E := env_of db_fa)
    [Q2Qc 283.2643; Q2Qc 281.2486; Q2Qc 255.2330; Q2Qc 400] neg None
    (Some [Q2Qc 100; Q2Qc 90; Q2Qc 80; Q2Qc 10]) (Some (Q2Qc 10)).

(** The three fatty acid peaks alone: each has one annotation, and the
    annotation array is an array of fields. *)
Definition scan_fa_fields : outcome Scan :=
  Scan_init (E := env_of db_fa)
    [Q2Qc 283.2643; Q2Qc 281.2486; Q2Qc 255.2330] neg None
    (Some [Q2Qc 100; Q2Qc 90; Q2Qc 80]) (Some (Q2Qc 10)).

Definition plain_attr : lipproc.ChainAttr :=
  {| lipproc.sph := ""; lipproc.ether := false; lipproc.oh := [] |}.

(** A record with two fatty acyl chains, 36 carbons and one double bond in
    total (scenario C). *)
Definition chainsum_36_1 : lipproc.ChainSummary.t :=
  {| lipproc.ChainSummary.c := 36; lipproc.ChainSummary.u := 1;
     lipproc.ChainSummary.typ := ["FA"; "FA"]%string;
     lipproc.ChainSummary.attr := [plain_attr; plain_attr] |}.

Definition rec_36_1 : lipproc.LipidRecord :=
  {| lipproc.hg := Some {| lipproc.main := "PE"; lipproc.sub := [] |};
     lipproc.chainsum := Some chainsum_36_1;
     lipproc.chains := [] |}.

(** The carbon count and unsaturation of each chain of a combination. *)
Definition counts_of
    (y : list lipproc.Chain.t * option ChainIdentificationDetails)
  : list (Z * Z) :=
  map (fun ch => (lipproc.Chain.c ch, lipproc.Chain.u ch)) (fst y).

(** A ceramide with a dihydro sphingoid base of 18 carbons and a fatty
    acyl of 16, negative mode. *)
Definition dh_attr : lipproc.ChainAttr :=
  {| lipproc.sph := "DH"; lipproc.ether := false; lipproc.oh := [] |}.

Definition dh_ceramide : lipproc.LipidRecord :=
  {| lipproc.hg := Some {| lipproc.main := "Cer"; lipproc.sub := [] |};
     lipproc.chainsum :=
       Some {| lipproc.ChainSummary.c := 34; lipproc.ChainSummary.u := 0;
               lipproc.ChainSummary.typ := ["Sph"; "FA"]%string;
               lipproc.ChainSummary.attr := [dh_attr; plain_attr] |};
     lipproc.chains := [] |}.

(** The one chain combination of that ceramide. *)
Definition dh_combination : identifier.combination :=
  ([{| lipproc.Chain.c := 18; lipproc.Chain.u := 0;
       lipproc.Chain.typ := "Sph"; lipproc.Chain.attr := dh_attr |};
    {| lipproc.Chain.c := 16; lipproc.Chain.u := 0;
       lipproc.Chain.typ := "FA"; lipproc.Chain.attr := plain_attr |}],
   None).

(** A scan of that ceramide in which the sphingoid base and fatty acyl
    fragments are found and combine to the record's totals, and none of
    the named fragments or neutral losses has a peak (all names are in
    the database). *)
Definition dh_ceramide_scan : identifier.ScanQueries :=
  {| identifier.has_fragment := fun _ _ => Ok (Some false);
     identifier.fragment_among_most_abundant := fun _ _ _ => Ok (Some false);
     identifier.has_chain_fragment_type := fun _ _ => Ok false;
     identifier.chain_percent_of_most_abundant := fun _ _ => Ok false;
     identifier.has_chain_combinations := fun _ => Ok true;
     identifier.has_chain_combination := fun _ _ _ => Ok true;
     identifier.chain_combinations := mkGen [dh_combination] None;
     identifier.missing_chain := fun _ => mkGen [] None |}.

(** The score, maximum score and score percentage of an identity. *)
Definition scores_of (id : identifier.MS2Identity) : Z * Z * Z :=
  (identifier.score id, identifier.max_score id, identifier.score_pct id).

(* ------------------------------------------------------------------ *)
(** ** lipyd.ms2: further queries on peaks and neutral losses *)

Section peak_queries.

Context {E : Externals}.

(** [ScanBase.__len__]. *)
Definition Scan_len (self : Scan) : nat := List.length (mzs self).

(** [Scan.has_nl]: tells if a neutral loss exists in this scan. *)
Definition has_nl (self : Scan) (nl' : Qc) (ad : option string)
  : outcome (bool * Scan) :=
  ' (m, s') <- nl self nl' ad ;;
  has_mz s' m.

(** [Scan.nl_among_most_abundant]: tells if a neutral loss corresponds to
    one of the [n] most abundant fragments. *)
Definition nl_among_most_abundant (self : Scan) (nl' : Qc) (n : nat)
    (ad : option string) : outcome (bool * Scan) :=
  ' (m, s') <- nl self nl' ad ;;
  mz_among_most_abundant s' m n.

(** [Scan.get_intensity]: the relative intensity of a fragment ion from
    its m/z, [None] if the m/z is not present. *)
Definition get_intensity (self : Scan) (mz : flt)
  : outcome (option Qc * Scan) :=
  ' (i, s') <- mz_lookup self mz ;;
  match i with
  | Some i =>
      a <- (match inorm s' with
            | Some a => Ok a
            | None => Raise AttributeError
            end) ;;
      x <- getitem a i ;;
      Ok (Some x, s')
  | None => Ok (None, s')
  end.

(** [Scan.get_nl_intensity]. *)
Definition get_nl_intensity (self : Scan) (nl' : Qc) (ad : option string)
  : outcome (option Qc * Scan) :=
  ' (m, s') <- nl self nl' ad ;;
  get_intensity s' m.

(** What [i and i >= percent / 100.] evaluates to: [None] when [i] is
    [None], the intensity itself when it is zero, else the comparison. *)
Inductive percent_result : Type :=
| percent_None
| percent_zero
| percent_bool (b : bool).

(** [Scan.mz_percent_of_most_abundant]: tells if an m/z has at least a
    certain percent of intensity compared to the most intensive
    fragment. *)
Definition mz_percent_of_most_abundant (self : Scan) (mz : flt)
    (percent : Qc) : outcome (percent_result * Scan) :=
  ' (i, s') <- get_intensity self mz ;;
  Ok (match i with
      | None => percent_None
      | Some x =>
          if Qceqb x 0%Qc then percent_zero
          else percent_bool (Qcleb (percent / Q2Qc 100)%Qc x)
      end, s').

(** The m/z a named fragment is looked up at:
    [self.nl(frag[0], adduct = adduct) if frag[6] == 0 else frag[0]]. *)
Definition fragment_mz (self : Scan) (fr : fragdb.FragmentAnnotation)
    (ad : option string) : outcome (flt * Scan) :=
  if Z.eqb (fragdb.charge fr) 0 then nl self (fragdb.mz fr) ad
  else Ok (Fin (fragdb.mz fr), self).

(** [Scan.fragment_among_most_abundant]: tells if the fragment is among
    the top [n]; [None] for a name the database does not have. *)
Definition fragment_among_most_abundant (self : Scan) (name : string)
    (n : nat) (ad : option string) : outcome (option bool * Scan) :=
  frag <- fragdb.by_name get_db name (ionmode self) ;;
  match frag with
  | Some fr =>
      ' (m, s1) <- fragment_mz self fr ad ;;
      ' (b, s2) <- mz_among_most_abundant s1 m n ;;
      Ok (Some b, s2)
  | None => Ok (None, self)
  end.

(** [Scan.fragment_percent_of_most_abundant]. *)
Definition fragment_percent_of_most_abundant (self : Scan) (name : string)
    (percent : Qc) (ad : option string)
  : outcome (option percent_result * Scan) :=
  frag <- fragdb.by_name get_db name (ionmode self) ;;
  match frag with
  | Some fr =>
      ' (m, s1) <- fragment_mz self fr ad ;;
      ' (r, s2) <- mz_percent_of_most_abundant s1 m percent ;;
      Ok (Some r, s2)
  | None => Ok (None, self)
  end.

End peak_queries.

(* ------------------------------------------------------------------ *)
(** ** Order and alignment of a scan's arrays *)

(** Descending order of intensities. *)
Definition descending (l : list Qc) : Prop :=
  StronglySorted (fun x y => (y <= x)%Qc) l.

Section alignment.

Context {E : Externals}.

(** The derived per-peak arrays describe the peaks they stand beside: the
    normalized intensity at an index is the intensity there divided by
    [imax], and the row of the annotation array at an index holds the
    annotations of the m/z there, with the scan's own precursor and
    tolerance. *)
Definition aligned (s : Scan) : Prop :=
  exists m x a,
    imax s = Some m /\ inorm s = Some x /\ annot s = Some a /\
    Forall2 (fun ins v => v = (ins / m)%Qc) (intensities s) x /\
    Forall2 (fun mz an =>
               fragdb.annotate get_db ms2_tolerance (ionmode s) (precursor s)
                 (Some (tolerance s)) mz = Ok an)
      (mzs s) a.

End alignment.

(** What a chain fragment of the peak at index [i] is, in a scan with
    intensities [ints] and annotations [aa] for that peak: it carries the
    counts and types of one of the annotations, one with a carbon count
    other than zero, and the intensity of the peak. *)
Definition fragment_of (ints : list Qc) (i : nat)
    (aa : list fragdb.FragmentAnnotation) (f : ChainFragment.t) : Prop :=
  ChainFragment.i f = i /\
  nth_error ints i = Some (ChainFragment.intensity f) /\
  ChainFragment.c f <> 0%Z /\
  exists an,
    In an aa /\
    fragdb.cu an = Some (ChainFragment.c f, ChainFragment.u f) /\
    fragdb.fragtype an = ChainFragment.fragtype f /\
    fragdb.chaintype an = ChainFragment.chaintype f.

(* ------------------------------------------------------------------ *)
(** ** lipyd.fragdb: building the database, and lookups by name *)

(** [sorted(self.fragments, key = lambda x: x[0])]: a stable sort by m/z,
    by insertion. *)
Fixpoint insert_fragment (x : fragdb.FragmentAnnotation)
    (l : list fragdb.FragmentAnnotation) : list fragdb.FragmentAnnotation :=
  match l with
  | [] => [x]
  | y :: r =>
      if Qcleb (fragdb.mz x) (fragdb.mz y) then x :: y :: r
      else y :: insert_fragment x r
  end.

Definition sorted_fragments (l : list fragdb.FragmentAnnotation)
  : list fragdb.FragmentAnnotation :=
  fold_right insert_fragment [] l.

(** [dict((frag[1], i) for i, frag in enumerate(self.fragments))]: a name
    borne by several rows keeps the index of the last of them. *)
Definition index_by_name (frs : list fragdb.FragmentAnnotation)
  : list (string * nat) :=
  fold_left (fun d ir => dict_set d (fragdb.name (snd ir)) (fst ir))
    (combine (seq 0 (List.length frs)) frs) [].

(** [FragmentDatabaseAggregator.build], from the point where the rows have
    been read from the files and generated as homolog series ([rows]) and
    the constraints collected ([constraints']): the rows are sorted by m/z
    and indexed by name. *)
Definition build (rows : list fragdb.FragmentAnnotation) (tolerance' : Qc)
    (constraints' : list (string * list fragdb.FragConstraint))
  : fragdb.FragmentDatabaseAggregator.t :=
  let frs := sorted_fragments rows in
  {| fragdb.FragmentDatabaseAggregator.fragments := frs;
     fragdb.FragmentDatabaseAggregator.tolerance := tolerance';
     fragdb.FragmentDatabaseAggregator.frags_by_name := index_by_name frs;
     fragdb.FragmentDatabaseAggregator.constraints := constraints' |}.

(** [FragmentDatabaseAggregator.mz_by_name]: the m/z of a fragment by its
    name, [None] if the name is not in the database. *)
Definition mz_by_name (self : fragdb.FragmentDatabaseAggregator.t)
    (name : string) : outcome (option Qc) :=
  match fragdb.FragmentDatabaseAggregator.dict_get
          (fragdb.FragmentDatabaseAggregator.frags_by_name self) name with
  | Some i =>
      row <- getitem (fragdb.FragmentDatabaseAggregator.fragments self) i ;;
      Ok (Some (fragdb.mz row))
  | None => Ok None
  end.

(** [FragmentDatabaseAggregator.__len__] and [__getitem__]. *)
Definition db_len (self : fragdb.FragmentDatabaseAggregator.t) : nat :=
  List.length (fragdb.FragmentDatabaseAggregator.fragments self).

Definition db_getitem (self : fragdb.FragmentDatabaseAggregator.t) (i : nat)
  : outcome fragdb.FragmentAnnotation :=
  getitem (fragdb.FragmentDatabaseAggregator.fragments self) i.

(* ------------------------------------------------------------------ *)
(** ** lipyd.ms2: queries by chain type *)

(** What a criterion accepts, as [match_chattr] reads it: [None] accepts
    anything; else a single value, a set of values, or a negation, the
    tuple of [False] and the set of values not accepted. *)
Inductive accepted (A : Type) : Type :=
| any_value
| one_value (v : A)
| values_in (vs : list A)
| values_not_in (vs : list A).

Arguments any_value {A}.
Arguments one_value {A} v.
Arguments values_in {A} vs.
Arguments values_not_in {A} vs.

Section match_chattr_with.

Variables V A : Type.
(** [value == accepted] for a single accepted value. *)
Variable eqb : V -> A -> bool.
(** [value == False]. *)
Variable is_false : V -> bool.

(** The body of [Scan.match_chattr].  For a negation, [value in accepted]
    is tried on the tuple itself first, and finds a value that equals its
    first element, [False]. *)
Definition match_chattr_with (value : V) (acc : accepted A) : bool :=
  match acc with
  | any_value => true
  | one_value v => eqb value v
  | values_in vs => existsb (eqb value) vs
  | values_not_in vs => is_false value || negb (existsb (eqb value) vs)
  end.

End match_chattr_with.

(** [Scan.match_chattr] with [typ = int], on a carbon count or an
    unsaturation, which may be [nan] ([None]): [nan] equals nothing, and
    the number [0] equals [False]. *)
Definition match_chattr (value : option Z) (acc : accepted Z) : bool :=
  match_chattr_with
    (fun v a => match v with Some z => Z.eqb z a | None => false end)
    (fun v => match v with Some z => Z.eqb z 0 | None => false end)
    value acc.

(** [Scan.match_chtype]: [match_chattr] with [typ = basestring]; no
    string equals [False]. *)
Definition match_chtype (value : string) (acc : accepted string) : bool :=
  match_chattr_with String.eqb (fun _ => false) value acc.

(** The criteria the chain type queries pass on to [match_annot]:
    [frag_type], [chain_type], [c] and [u]. *)
Record chain_criteria : Type := {
  crit_frag_type : accepted string;
  crit_chain_type : accepted string;
  crit_c : accepted Z;
  crit_u : accepted Z
}.

(** [Scan.match_annot]: tests a fragment annotation against criteria of
    fragment type, chain type, carbon count and unsaturation. *)
Definition match_annot (an : fragdb.FragmentAnnotation)
    (crit : chain_criteria) : bool :=
  match_chtype (fragdb.fragtype an) (crit_frag_type crit) &&
  match_chtype (fragdb.chaintype an) (crit_chain_type crit) &&
  match_chattr (fragdb.c an) (crit_c crit) &&
  match_chattr (fragdb.u an) (crit_u crit).

Section chain_type_queries.

Context {E : Externals}.

(** [Scan.adduct_annot]: the annotation array for a certain adduct, the
    scan's own for none: its rows, and whether it is an array of fields. *)
Definition adduct_annot (self : Scan) (ad : option string)
  : outcome (list (list fragdb.FragmentAnnotation) * bool * Scan) :=
  match ad with
  | None =>
      match annot self with
      | Some a => Ok (a, annot_fields self, self)
      | None => Raise AttributeError
      end
  | Some a =>
      s' <- adduct self a ;;
      match fragdb.FragmentDatabaseAggregator.dict_get (adducts s') a with
      | Some data => Ok (adduct_annot_ data, adduct_annot_fields data, s')
      | None => Raise KeyError
      end
  end.

(** [Scan.chain_fragment_type_is] with [return_annot = False]: tells if
    the fragment at index [i] has an annotation meeting the criteria;
    [False] for an index beyond the scan. *)
Definition chain_fragment_type_is (self : Scan) (i : nat)
    (crit : chain_criteria) (ad : option string) : outcome (bool * Scan) :=
  if Nat.leb (List.length (mzs self)) i then Ok (false, self)
  else
    ' (annot', fields, s') <- adduct_annot self ad ;;
    aa <- getitem annot' i ;;
    aa <- named_annotations fields aa ;;
    Ok (existsb (fun an => match_annot an crit) aa, s').

(** [len(self.mzs) if head is None else min(head, len(self.mzs))]. *)
Definition head_limit (self : Scan) (head : option nat) : nat :=
  match head with
  | None => List.length (mzs self)
  | Some h => Nat.min h (List.length (mzs self))
  end.

(** The generator [Scan.fragments_by_chain_type] run to its end, as
    [list(...)] does: the indices below the head limit whose fragment
    meets the criteria. *)
Fixpoint fragments_by_chain_type_from (self : Scan) (idx : list nat)
    (crit : chain_criteria) (ad : option string)
  : outcome (list nat * Scan) :=
  match idx with
  | [] => Ok ([], self)
  | i :: r =>
      ' (b, s1) <- chain_fragment_type_is self i crit ad ;;
      ' (l, s2) <- fragments_by_chain_type_from s1 r crit ad ;;
      Ok (if b then i :: l else l, s2)
  end.

Definition fragments_by_chain_type (self : Scan) (head : option nat)
    (crit : chain_criteria) (ad : option string)
  : outcome (list nat * Scan) :=
  fragments_by_chain_type_from self (seq 0 (head_limit self head)) crit ad.

(** The same generator stopped at its first value, as [next(...)] and
    [any(...)] do: the first index of [idx] whose fragment meets the
    criteria; later indices are not looked at. *)
Fixpoint first_fragment_from (self : Scan) (idx : list nat)
    (crit : chain_criteria) (ad : option string)
  : outcome (option nat * Scan) :=
  match idx with
  | [] => Ok (None, self)
  | i :: r =>
      ' (b, s1) <- chain_fragment_type_is self i crit ad ;;
      if b then Ok (Some i, s1) else first_fragment_from s1 r crit ad
  end.

(** [Scan.highest_fragment_by_chain_type]: the index of the highest
    intensity fragment meeting the criteria, [None] if there is none. *)
Definition highest_fragment_by_chain_type (self : Scan) (head : option nat)
    (crit : chain_criteria) (ad : option string)
  : outcome (option nat * Scan) :=
  first_fragment_from self (seq 0 (head_limit self head)) crit ad.

(** [Scan.chain_fragment_type_among_most_abundant]: tells if a fragment
    meeting the criteria is among the [n] highest intensity fragments. *)
Definition chain_fragment_type_among_most_abundant (self : Scan) (n : nat)
    (crit : chain_criteria) (ad : option string) : outcome (bool * Scan) :=
  ' (l, s') <- fragments_by_chain_type self (Some n) crit ad ;;
  Ok (negb (Nat.eqb (List.length l) 0), s').

(** [Scan.has_chain_fragment_type]: tells if at least one fragment meets
    the criteria. *)
Definition has_chain_fragment_type (self : Scan) (crit : chain_criteria)
    (ad : option string) : outcome (bool * Scan) :=
  ' (r, s') <- highest_fragment_by_chain_type self None crit ad ;;
  Ok (match r with Some _ => true | None => false end, s').

(** [Scan.get_most_abundant_chain]: the index of the most abundant
    fragment meeting the criteria.  Its [head] argument is not used. *)
Definition get_most_abundant_chain (self : Scan) (head : nat)
    (crit : chain_criteria) (ad : option string)
  : outcome (option nat * Scan) :=
  first_fragment_from self (seq 0 (List.length (mzs self))) crit ad.

(** [Scan.is_chain]: examines if a fragment has an aliphatic chain. *)
Definition is_chain (self : Scan) (i : nat) (ad : option string)
  : outcome (bool * Scan) :=
  ' (annot', fields, s') <- adduct_annot self ad ;;
  aa <- getitem annot' i ;;
  aa <- named_annotations fields aa ;;
  Ok (existsb (fun an => match fragdb.c an with
                         | Some _ => true
                         | None => false
                         end) aa, s').

Definition any_criteria : chain_criteria :=
  {| crit_frag_type := any_value; crit_chain_type := any_value;
     crit_c := any_value; crit_u := any_value |}.

(** [Scan.is_chain_type], [is_fa], [is_fal], [is_sph] and [is_type]. *)
Definition is_chain_type (self : Scan) (i : nat) (typ : string)
    (ad : option string) : outcome (bool * Scan) :=
  chain_fragment_type_is self i
    {| crit_frag_type := any_value; crit_chain_type := one_value typ;
       crit_c := any_value; crit_u := any_value |} ad.

Definition is_fa (self : Scan) (i : nat) (ad : option string) :=
  is_chain_type self i "FA" ad.

Definition is_fal (self : Scan) (i : nat) (ad : option string) :=
  is_chain_type self i "FAL" ad.

Definition is_sph (self : Scan) (i : nat) (ad : option string) :=
  is_chain_type self i "Sph" ad.

Definition is_type (self : Scan) (i : nat) (typ : string)
    (ad : option string) : outcome (bool * Scan) :=
  chain_fragment_type_is self i
    {| crit_frag_type := one_value typ; crit_chain_type := any_value;
       crit_c := any_value; crit_u := any_value |} ad.

(** [Scan.annot_by_type]: the annotations of fragment [i] matching
    certain types. *)
Definition annot_by_type (self : Scan) (i : nat)
    (chain_type frag_type : accepted string) (ad : option string)
  : outcome (list fragdb.FragmentAnnotation * Scan) :=
  ' (annot', fields, s') <- adduct_annot self ad ;;
  aa <- getitem annot' i ;;
  aa <- named_annotations fields aa ;;
  Ok (filter (fun an => match_chtype (fragdb.chaintype an) chain_type &&
                        match_chtype (fragdb.fragtype an) frag_type) aa,
      s').

(** [Scan.cu_by_type]: the [(carbon count, unsaturation)] tuples of
    fragment [i] for the requested types. *)
Definition cu_by_type (self : Scan) (i : nat)
    (chain_type frag_type : accepted string) (ad : option string)
  : outcome (list (option Z * option Z) * Scan) :=
  ' (l, s') <- annot_by_type self i chain_type frag_type ad ;;
  Ok (map (fun a => (fragdb.c a, fragdb.u a)) l, s').

(** The indices [chain_among_most_abundant] goes through when it skips
    fragments: the first [head] indices whose fragment has a chain and an
    m/z of at least [min_mass], taken one at a time as [any] asks for
    them. *)
Fixpoint any_among_chains (self : Scan) (idx : list nat) (head : nat)
    (min_mass : option Qc) (crit : chain_criteria) (ad : option string)
  : outcome (bool * Scan) :=
  match head, idx with
  | O, _ => Ok (false, self)
  | _, [] => Ok (false, self)
  | S h, i :: r =>
      ' (ch, s1) <- is_chain self i None ;;
      heavy <- (if ch then
                  match min_mass with
                  | None => Ok true
                  | Some m => x <- getitem (mzs s1) i ;; Ok (Qcleb m x)
                  end
                else Ok false) ;;
      if heavy then
        ' (b, s2) <- chain_fragment_type_is s1 i crit ad ;;
        if b then Ok (true, s2)
        else any_among_chains s2 r h min_mass crit ad
      else any_among_chains s1 r (S h) min_mass crit ad
  end.

(** [Scan.chain_among_most_abundant]: tells if a chain fragment meeting
    the criteria is among the [head] most abundant fragments.  [min_mass]
    is looked at only when [skip_non_chains] is set. *)
Definition chain_among_most_abundant (self : Scan) (head : nat)
    (crit : chain_criteria) (min_mass : option Qc) (skip_non_chains : bool)
    (ad : option string) : outcome (bool * Scan) :=
  if skip_non_chains then
    any_among_chains self (seq 0 (List.length (mzs self))) head min_mass
      crit ad
  else
    ' (r, s') <- first_fragment_from self (seq 0 head) crit ad ;;
    Ok (match r with Some _ => true | None => false end, s').

(** The loop of [chain_percent_of_most_abundant]: [any] over the indices
    [takewhile] lets through, each passed to [chain_among_most_abundant]
    as its [head]. *)
Fixpoint chain_percent_loop (self : Scan) (idx : list nat) (percent : Qc)
    (crit : chain_criteria) (ad : option string) : outcome (bool * Scan) :=
  match idx with
  | [] => Ok (false, self)
  | i :: r =>
      a <- (match inorm self with
            | Some a => Ok a
            | None => Raise AttributeError
            end) ;;
      x <- getitem a i ;;
      if Qcltb (percent / Q2Qc 100)%Qc x then
        ' (b, s1) <- chain_among_most_abundant self i crit None false ad ;;
        if b then Ok (true, s1) else chain_percent_loop s1 r percent crit ad
      else Ok (false, self)
  end.

(** [Scan.chain_percent_of_most_abundant]: tells if a certain chain is
    present with an abundance of at least the given percent of the most
    abundant fragment. *)
Definition chain_percent_of_most_abundant (self : Scan) (percent : Qc)
    (crit : chain_criteria) (ad : option string) : outcome (bool * Scan) :=
  chain_percent_loop self (seq 0 (List.length (mzs self))) percent crit ad.

(** The fragment at index [i] of the scan has an annotation that meets
    the criteria. *)
Definition meets (s : Scan) (i : nat) (crit : chain_criteria) : Prop :=
  exists aa an,
    opt_nth (annot s) i = Some aa /\ In an aa /\ match_annot an crit = true.

End chain_type_queries.

(* ------------------------------------------------------------------ *)
(** ** lipyd.ms2: the identifiers that score by chain combinations *)

Section chain_combination_identifiers.

Variable scn : identifier.ScanQueries.
(** [self.scn.has_chain_combinations(self.rec, head = head)], and without
    a head for [None]. *)
Variable has_chain_combinations_head : option nat -> outcome bool.

(** [self.max_score = m]. *)
Definition set_max_score (st : identifier.state) (m : Z) : identifier.state :=
  {| identifier.st_score := identifier.st_score st;
     identifier.st_max_score := m;
     identifier.must_have_chains := identifier.must_have_chains st;
     identifier.missing_chains := identifier.missing_chains st;
     identifier.scores := identifier.scores st;
     identifier.sph_scores := identifier.sph_scores st |}.

(** [self.score = s]. *)
Definition set_score (st : identifier.state) (s : Z) : identifier.state :=
  {| identifier.st_score := s;
     identifier.st_max_score := identifier.st_max_score st;
     identifier.must_have_chains := identifier.must_have_chains st;
     identifier.missing_chains := identifier.missing_chains st;
     identifier.scores := identifier.scores st;
     identifier.sph_scores := identifier.sph_scores st |}.

(** [if self.scn.has_chain_combinations(self.rec, head = head):
    self.score += points]. *)
Definition score_chain_combinations (head : option nat) (points : Z)
    (st : identifier.state) : outcome identifier.state :=
  b <- has_chain_combinations_head head ;;
  Ok (if b then identifier.add_scores st points 0 else st).

(** [DAG_Positive.confirm_class] and [DAG_Negative.confirm_class], which
    are the same. *)
Definition DAG_confirm_class (st : identifier.state)
  : outcome identifier.state :=
  let st := set_max_score st 6 in
  st <- score_chain_combinations (Some 10%nat) 4 st ;;
  score_chain_combinations (Some 6%nat) 2 st.

(** [TAG_Positive.confirm_class]. *)
Definition TAG_Positive_confirm_class (st : identifier.state)
  : outcome identifier.state :=
  let st := set_max_score st 10 in
  st <- score_chain_combinations (Some 15%nat) 5 st ;;
  score_chain_combinations (Some 7%nat) 5 st.

(** [TAG_Negative.confirm_class]. *)
Definition TAG_Negative_confirm_class (st : identifier.state)
  : outcome identifier.state :=
  let st := set_score st 0 in
  let st := set_max_score st 5 in
  score_chain_combinations None 5 st.

(** An identifier class that overrides [confirm_class] only. *)
Definition identifier_with (confirm : identifier.state -> outcome identifier.state)
  : identifier.methods :=
  {| identifier.confirm_class := confirm;
     identifier.confirm_chains_explicit :=
       identifier.base_confirm_chains_explicit scn;
     identifier.confirm_chains_implicit :=
       identifier.base_confirm_chains_implicit scn |}.

Definition DAG_Positive : identifier.methods :=
  identifier_with DAG_confirm_class.

Definition DAG_Negative : identifier.methods :=
  identifier_with DAG_confirm_class.

Definition TAG_Positive : identifier.methods :=
  identifier_with TAG_Positive_confirm_class.

Definition TAG_Negative : identifier.methods :=
  identifier_with TAG_Negative_confirm_class.

End chain_combination_identifiers.

(** The attributes [AbstractMS2Identifier.__init__] sets for these
    classes: no missing chains, chains required. *)
Definition glycerolipid_init : identifier.state :=
  {| identifier.st_score := 0; identifier.st_max_score := 0;
     identifier.must_have_chains := true; identifier.missing_chains := [];
     identifier.scores := []; identifier.sph_scores := [] |}.

(* ------------------------------------------------------------------ *)
(** ** Further concrete inputs *)

(** Three peaks, the middle one at the phosphocholine m/z. *)
Definition scan_pc_mid : outcome Scan :=
  Scan_init (E := env_of db_pc) [Q2Qc 100; Q2Qc 184.0733; Q2Qc 300] pos None
    (Some [Q2Qc 5; Q2Qc 50; Q2Qc 100]) (Some (Q2Qc 10)).

(** The criteria for a fatty acid fragment less a hydrogen, of any chain
    length. *)
Definition crit_fa_h : chain_criteria :=
  {| crit_frag_type := one_value "FA-H"%string; crit_chain_type := any_value;
     crit_c := any_value; crit_u := any_value |}.

(* ------------------------------------------------------------------ *)
(** * Facts *)

Unset Implicit Arguments.

(** ** The error monad and indexing *)

Lemma bind_Ok {A B : Type} (m : outcome A) (f : A -> outcome B) (b : B) :
  bind m f = Ok b -> exists a, m = Ok a /\ f a = Ok b.
Proof.
  destruct m as [a|e]; simpl; intros H; [eauto | discriminate].
Qed.

Ltac inv_bind H :=
  let a := fresh "x" in
  let Ha := fresh "Hx" in
  apply bind_Ok in H; destruct H as [a [Ha H]].

Ltac splits :=
  match goal with
  | |- _ /\ _ => split; [|splits]
  | _ => idtac
  end.

Lemma getitem_Ok {A : Type} (a : list A) (i : nat) (x : A) :
  getitem a i = Ok x <-> nth_error a i = Some x.
Proof.
  unfold getitem. destruct (nth_error a i); split; congruence.
Qed.

Lemma mapM_Forall2 {A B : Type} (f : A -> outcome B) (l : list A) (r : list B) :
  mapM f l = Ok r <-> Forall2 (fun x y => f x = Ok y) l r.
Proof.
  revert r. induction l as [|x l IH]; intros r; simpl.
  - split; intros H.
    + inversion H. constructor.
    + inversion H. reflexivity.
  - split; intros H.
    + inv_bind H. inv_bind H. inversion H; subst.
      constructor; [assumption | now apply IH].
    + inversion H as [|? y ? ys Hxy Hrest]; subst.
      rewrite Hxy. simpl. apply IH in Hrest. rewrite Hrest. reflexivity.
Qed.

Lemma reindex_Forall2 {A : Type} (a : list A) (p : list nat) (b : list A) :
  reindex a p = Ok b <-> Forall2 (fun i x => nth_error a i = Some x) p b.
Proof.
  unfold reindex. rewrite mapM_Forall2.
  split; intros H; induction H; constructor; auto; now apply getitem_Ok.
Qed.

Lemma reindex_length {A : Type} (a : list A) (p : list nat) (b : list A) :
  reindex a p = Ok b -> List.length b = List.length p.
Proof.
  rewrite reindex_Forall2. intros H. symmetry. eapply Forall2_length; eauto.
Qed.

Lemma reindex_nth {A : Type} (a : list A) (p : list nat) (b : list A) :
  reindex a p = Ok b ->
  forall k i, nth_error p k = Some i -> nth_error b k = nth_error a i.
Proof.
  rewrite reindex_Forall2. intros H. induction H as [|i x p b Hix H IH].
  - intros [|k] i; discriminate.
  - intros [|k] j; simpl; intros Hk.
    + injection Hk as <-. congruence.
    + now apply IH.
Qed.

Lemma reindex_total {A : Type} (a : list A) (p : list nat) :
  Forall (fun i => (i < List.length a)%nat) p -> exists b, reindex a p = Ok b.
Proof.
  intros H. induction H as [|i p Hi H [b IH]].
  - exists []. reflexivity.
  - destruct (nth_error a i) as [x|] eqn:Hx.
    + exists (x :: b). apply reindex_Forall2. constructor; [assumption|].
      now apply reindex_Forall2.
    + apply nth_error_None in Hx. lia.
Qed.

Lemma reindex_seq {A : Type} (a : list A) :
  reindex a (seq 0 (List.length a)) = Ok a.
Proof.
  apply reindex_Forall2.
  assert (H : forall start (l : list A),
             Forall2 (fun i x => nth_error (firstn start a ++ l) i = Some x)
               (seq (List.length (firstn start a)) (List.length l)) l).
  { intros start l. generalize (firstn start a) as pre. intros pre.
    revert pre. induction l as [|x l IH]; intros pre; simpl; constructor.
    - rewrite nth_error_app2 by lia. now rewrite Nat.sub_diag.
    - specialize (IH (pre ++ [x])). rewrite <- app_assoc in IH. simpl in IH.
      rewrite length_app in IH. simpl in IH.
      now rewrite Nat.add_1_r in IH. }
  specialize (H 0%nat a). simpl in H. exact H.
Qed.

Lemma reindex_seq_inv {A : Type} (a b : list A) :
  reindex a (seq 0 (List.length a)) = Ok b -> b = a.
Proof.
  rewrite reindex_seq. congruence.
Qed.

Lemma reindex_compose {A : Type} (a b : list A) (p q pq : list nat) :
  reindex a p = Ok b -> reindex p q = Ok pq -> reindex b q = reindex a pq.
Proof.
  intros Hab Hpq. apply reindex_Forall2 in Hpq.
  induction Hpq as [|k i q pq Hk Hrest IH]; [reflexivity|].
  unfold reindex in *. simpl. rewrite IH.
  unfold getitem at 1 3. now rewrite (reindex_nth _ _ _ Hab _ _ Hk).
Qed.

Lemma reindex_Permutation {A : Type} (a b : list A) (p : list nat) :
  Permutation p (seq 0 (List.length a)) -> reindex a p = Ok b ->
  Permutation a b.
Proof.
  intros Hp Hb. apply reindex_Forall2 in Hb.
  destruct (Permutation_Forall2 Hp Hb) as [b' [Hbb' Hseq]].
  assert (Hlen : List.length b' = List.length a).
  { apply Forall2_length in Hseq. now rewrite length_seq in Hseq. }
  rewrite <- Hlen in Hseq. apply reindex_Forall2 in Hseq.
  rewrite Hlen in Hseq. apply reindex_seq_inv in Hseq. subst b'.
  now symmetry.
Qed.

Lemma Permutation_seq_bound (p : list nat) (n : nat) :
  Permutation p (seq 0 n) -> Forall (fun i => (i < n)%nat) p.
Proof.
  intros H. apply Forall_forall. intros i Hi.
  apply (Permutation_in _ H) in Hi. apply in_seq in Hi. lia.
Qed.

(** ** Order on m/z values *)

Lemma Qcleb_le (x y : Qc) : Qcleb x y = true <-> (x <= y)%Qc.
Proof. unfold Qcleb, Qcle. apply Qle_bool_iff. Qed.

Lemma Qcleb_false (x y : Qc) : Qcleb x y = false -> (y <= x)%Qc.
Proof.
  intros H. destruct (Qclt_le_dec x y) as [Hlt|Hle]; [|assumption].
  apply Qclt_le_weak, Qcleb_le in Hlt. congruence.
Qed.

(** Two ascending arrays with the same elements are the same array. *)
Lemma ascending_unique (l1 l2 : list Qc) :
  ascending l1 -> ascending l2 -> Permutation l1 l2 -> l1 = l2.
Proof.
  unfold ascending. intros H1. revert l2.
  induction H1 as [|a l1 Hs1 IH Ha]; intros l2 H2 Hp.
  - apply Permutation_nil in Hp. now subst.
  - destruct H2 as [|b l2 Hs2 Hb].
    + apply Permutation_sym, Permutation_nil in Hp. discriminate.
    + assert (Hab : a = b).
      { assert (Hin1 : In a (b :: l2))
          by (apply (Permutation_in _ Hp); now left).
        assert (Hin2 : In b (a :: l1))
          by (apply (Permutation_in _ (Permutation_sym Hp)); now left).
        destruct Hin1 as [->|Hin1]; [reflexivity|].
        destruct Hin2 as [->|Hin2]; [reflexivity|].
        rewrite Forall_forall in Ha, Hb.
        apply Qcle_antisym; auto. }
      subst b. f_equal. apply IH; [assumption|].
      now apply Permutation_cons_inv in Hp.
Qed.

(** ** Sorting a scan *)

Lemma opt_reindex_Ok {A : Type} (a : option (list A)) (p : list nat)
    (b : option (list A)) :
  opt_reindex a p = Ok b ->
  forall k i, nth_error p k = Some i -> opt_nth b k = opt_nth a i.
Proof.
  destruct a as [l|]; simpl; intros H k i Hk.
  - inv_bind H. injection H as <-. simpl. eapply reindex_nth; eauto.
  - injection H as <-. reflexivity.
Qed.

Lemma opt_reindex_total {A : Type} (a : option (list A)) (p : list nat) (n : nat) :
  (forall l, a = Some l -> List.length l = n) ->
  Forall (fun i => (i < n)%nat) p ->
  exists b, opt_reindex a p = Ok b /\
            (forall l, a = Some l ->
                       exists l', b = Some l' /\ reindex l p = Ok l').
Proof.
  intros Hlen Hp. destruct a as [l|]; simpl.
  - destruct (reindex_total l p) as [b Hb].
    { rewrite (Hlen l eq_refl). exact Hp. }
    exists (Some b). rewrite Hb. simpl. split; [reflexivity|].
    intros l0 [= <-]. eauto.
  - exists None. split; [reflexivity | discriminate].
Qed.

Lemma sort_adducts_total (p : list nat) (n : nat)
    (ads : list (string * AdductData)) :
  Forall (fun e => List.length (adduct_annot_ (snd e)) = n) ads ->
  Forall (fun i => (i < n)%nat) p ->
  exists ads', mapM (sort_adduct p) ads = Ok ads' /\
    Forall (fun e => List.length (adduct_annot_ (snd e)) = List.length p) ads'.
Proof.
  intros Hads Hp. induction Hads as [|[ad data] ads Hlen Hads [ads' [IH IHl]]].
  - exists []. split; [reflexivity | constructor].
  - simpl in Hlen. destruct (reindex_total (adduct_annot_ data) p) as [a' Ha'].
    { now rewrite Hlen. }
    eexists. simpl. rewrite Ha'. simpl. rewrite IH. simpl.
    split; [reflexivity|]. constructor; [|exact IHl].
    simpl. eapply reindex_length; eauto.
Qed.

Lemma sort_adducts_nth (p : list nat) (ads ads' : list (string * AdductData)) :
  mapM (sort_adduct p) ads = Ok ads' ->
  forall k i, nth_error p k = Some i ->
    map (fun e => (fst e, nth_error (adduct_annot_ (snd e)) k)) ads' =
    map (fun e => (fst e, nth_error (adduct_annot_ (snd e)) i)) ads.
Proof.
  rewrite mapM_Forall2. intros H k i Hk.
  induction H as [|[ad data] e' ads ads' He H IH]; [reflexivity|].
  simpl. rewrite IH. f_equal. simpl in He. inv_bind He.
  injection He as <-. simpl. f_equal. eapply reindex_nth; eauto.
Qed.

(** [sort] indexes every per-peak array by [isort] and nothing else. *)
Lemma sort_reordered (s s' : Scan) (isort : list nat) :
  sort s isort = Ok s' ->
  reordered isort s s' /\ same_settings s s' /\ sorted_by s' = sorted_by s.
Proof.
  unfold sort. intros H. repeat inv_bind H. injection H as <-.
  unfold reordered, same_settings. simpl. repeat split; assumption.
Qed.

Lemma sort_total (s : Scan) (isort : list nat) :
  let n := List.length (mzs s) in
  List.length (intensities s) = n ->
  (forall l, irank s = Some l -> List.length l = n) ->
  (forall l, annot s = Some l -> List.length l = n) ->
  (forall l, inorm s = Some l -> List.length l = n) ->
  Forall (fun e => List.length (adduct_annot_ (snd e)) = n) (adducts s) ->
  Forall (fun i => (i < n)%nat) isort ->
  exists s', sort s isort = Ok s'.
Proof.
  intros n Hi Hr Ha Hx Hads Hp. unfold sort.
  destruct (reindex_total (intensities s) isort) as [i' Hi']; [now rewrite Hi|].
  destruct (reindex_total (mzs s) isort) as [m' Hm']; [exact Hp|].
  destruct (opt_reindex_total (irank s) isort n Hr Hp) as [r' [Hr' _]].
  destruct (opt_reindex_total (annot s) isort n Ha Hp) as [a' [Ha' _]].
  destruct (opt_reindex_total (inorm s) isort n Hx Hp) as [x' [Hx' _]].
  destruct (sort_adducts_total isort n _ Hads Hp) as [ads' [Hads' _]].
  rewrite Hi', Hm'. simpl. rewrite Hr'. simpl. rewrite Ha'. simpl.
  rewrite Hx'. simpl. rewrite Hads'. simpl. eauto.
Qed.

(** After a reordering by [p], the values at index [k] are those the
    scan held at index [p[k]]: they describe the same peak. *)
Lemma reordered_peak (p : list nat) (s s' : Scan) :
  reordered p s s' ->
  forall k i, nth_error p k = Some i -> peak_at s' k = peak_at s i.
Proof.
  intros (Hm & Hi & Hr & Ha & Hx & Hads) k i Hk. unfold peak_at.
  rewrite (reindex_nth _ _ _ Hm _ _ Hk), (reindex_nth _ _ _ Hi _ _ Hk).
  rewrite (opt_reindex_Ok _ _ _ Hr _ _ Hk), (opt_reindex_Ok _ _ _ Ha _ _ Hk).
  rewrite (opt_reindex_Ok _ _ _ Hx _ _ Hk), (sort_adducts_nth _ _ _ Hads _ _ Hk).
  reflexivity.
Qed.

Lemma reordered_id (s : Scan) :
  let n := List.length (mzs s) in
  List.length (intensities s) = n ->
  (forall l, irank s = Some l -> List.length l = n) ->
  (forall l, annot s = Some l -> List.length l = n) ->
  (forall l, inorm s = Some l -> List.length l = n) ->
  Forall (fun e => List.length (adduct_annot_ (snd e)) = n) (adducts s) ->
  reordered (seq 0 n) s s.
Proof.
  intros n Hi Hr Ha Hx Hads.
  assert (Hopt : forall (A : Type) (a : option (list A)),
             (forall l, a = Some l -> List.length l = n) ->
             opt_reindex a (seq 0 n) = Ok a).
  { intros A [l|] Hl; simpl; [|reflexivity].
    rewrite <- (Hl l eq_refl), reindex_seq. reflexivity. }
  unfold reordered. repeat split; auto.
  - apply reindex_seq.
  - rewrite <- Hi. apply reindex_seq.
  - apply mapM_Forall2. induction Hads as [|[ad data] ads Hlen Hads IH];
      constructor; [|exact IH].
    simpl in *. rewrite <- Hlen, reindex_seq. simpl. now destruct data.
Qed.

Lemma opt_reindex_Some {A : Type} (l : list A) (p : list nat)
    (b : option (list A)) :
  opt_reindex (Some l) p = Ok b ->
  exists l', b = Some l' /\ reindex l p = Ok l'.
Proof.
  simpl. intros H. inv_bind H. injection H as <-. eauto.
Qed.

Lemma sort_adducts_length (p : list nat) (ads ads' : list (string * AdductData)) :
  mapM (sort_adduct p) ads = Ok ads' ->
  Forall (fun e => List.length (adduct_annot_ (snd e)) = List.length p) ads'.
Proof.
  rewrite mapM_Forall2. intros H.
  induction H as [|[ad data] e' ads ads' He H IH]; constructor; [|exact IH].
  simpl in He. inv_bind He. injection He as <-. simpl.
  eapply reindex_length; eauto.
Qed.

Lemma arrays_wf_total (s : Scan) (p : list nat) :
  arrays_wf s -> Forall (fun i => (i < List.length (mzs s))%nat) p ->
  exists s', sort s p = Ok s'.
Proof.
  intros (Hi & (r & Hr & Hrl) & (a & Ha & Hal) & (x & Hx & Hxl) & Hads) Hp.
  apply sort_total; auto.
  - intros l Hl. congruence.
  - intros l Hl. congruence.
  - intros l Hl. congruence.
Qed.

Lemma reordered_arrays_wf (s s' : Scan) (p : list nat) :
  arrays_wf s -> reordered p s s' ->
  List.length p = List.length (mzs s) ->
  arrays_wf s' /\ List.length (mzs s') = List.length (mzs s).
Proof.
  intros (Hi & (r & Hr & Hrl) & (a & Ha & Hal) & (x & Hx & Hxl) & Hads)
         (Hm' & Hi' & Hr' & Ha' & Hx' & Hads') Hp.
  assert (Hn : List.length (mzs s') = List.length (mzs s)).
  { rewrite (reindex_length _ _ _ Hm'). exact Hp. }
  split; [|exact Hn]. unfold arrays_wf. rewrite Hn.
  rewrite Hr in Hr'. rewrite Ha in Ha'. rewrite Hx in Hx'.
  apply opt_reindex_Some in Hr', Ha', Hx'.
  destruct Hr' as (r' & -> & Hr'). destruct Ha' as (a' & -> & Ha').
  destruct Hx' as (x' & -> & Hx').
  repeat split.
  - rewrite (reindex_length _ _ _ Hi'). exact Hp.
  - exists r'. split; [reflexivity|].
    rewrite (reindex_length _ _ _ Hr'). exact Hp.
  - exists a'. split; [reflexivity|].
    rewrite (reindex_length _ _ _ Ha'). exact Hp.
  - exists x'. split; [reflexivity|].
    rewrite (reindex_length _ _ _ Hx'). exact Hp.
  - rewrite <- Hp. eapply sort_adducts_length; eauto.
Qed.

Lemma arrays_wf_reordered_id (s : Scan) :
  arrays_wf s -> reordered (seq 0 (List.length (mzs s))) s s.
Proof.
  intros (Hi & (r & Hr & Hrl) & (a & Ha & Hal) & (x & Hx & Hxl) & Hads).
  apply reordered_id; auto; intros l Hl; congruence.
Qed.

Lemma same_settings_refl (s : Scan) : same_settings s s.
Proof. unfold same_settings. repeat split. Qed.

Section transitions.

Context {E : Externals}.

(** [sort_mz] on a constructed scan: it returns, the scan is then in m/z
    order, and its arrays are those of before indexed by one permutation;
    in m/z order already, nothing changes. *)
Lemma sort_mz_spec (s : Scan) :
  scan_wf s ->
  exists p s',
    sort_mz s = Ok s' /\
    Permutation p (seq 0 (List.length (mzs s))) /\
    reordered p s s' /\ same_settings s s' /\
    sorted_by s' = Some by_mzs /\ scan_wf s' /\
    (sorted_by s = Some by_mzs -> s' = s) /\
    (sorted_by s = Some by_intensities -> imzsort s = Some p).
Proof.
  intros [Ha Ho]. pose proof Ho as Ho'.
  destruct Ho' as (ii & im & Hii & Him & Pii & Pim & Hmz).
  unfold sort_mz. destruct (sorted_by s) as [[|]|] eqn:Hsb; [| |contradiction].
  - exists (seq 0 (List.length (mzs s))), s. splits; auto.
    + now apply arrays_wf_reordered_id.
    + apply same_settings_refl.
    + now split.
    + discriminate.
  - rewrite Him.
    destruct (arrays_wf_total s im Ha) as [s1 Hs1].
    { now apply Permutation_seq_bound. }
    rewrite Hs1. simpl. exists im, (with_sorted_by s1 (Some by_mzs)).
    destruct (sort_reordered _ _ _ Hs1) as (Hre & Hsame & _).
    assert (Hlen : List.length im = List.length (mzs s)).
    { rewrite (Permutation_length Pim). apply length_seq. }
    destruct (reordered_arrays_wf _ _ _ Ha Hre Hlen) as [Ha1 Hn].
    destruct Hmz as (m & Hm & Hasc & Hback).
    assert (Hm1 : mzs s1 = m).
    { destruct Hre as (Hm' & _). congruence. }
    splits; auto; try discriminate.
    split; [exact Ha1|].
    unfold order_wf. simpl. rewrite Hn.
    destruct Hsame as (_ & _ & _ & _ & Hii' & Him' & _).
    exists ii, im. splits; try congruence.
    exists (mzs s). rewrite Hm1. now split.
Qed.

(** [sort_intensity] on a constructed scan, likewise. *)
Lemma sort_intensity_spec (s : Scan) :
  scan_wf s ->
  exists p s',
    sort_intensity s = Ok s' /\
    Permutation p (seq 0 (List.length (mzs s))) /\
    reordered p s s' /\ same_settings s s' /\
    sorted_by s' = Some by_intensities /\ scan_wf s' /\
    (sorted_by s = Some by_intensities -> s' = s) /\
    (sorted_by s = Some by_mzs -> iisort s = Some p).
Proof.
  intros [Ha Ho]. pose proof Ho as Ho'.
  destruct Ho' as (ii & im & Hii & Him & Pii & Pim & Hmz).
  unfold sort_intensity.
  destruct (sorted_by s) as [[|]|] eqn:Hsb; [| |contradiction].
  - rewrite Hii.
    destruct (arrays_wf_total s ii Ha) as [s1 Hs1].
    { now apply Permutation_seq_bound. }
    rewrite Hs1. simpl. exists ii, (with_sorted_by s1 (Some by_intensities)).
    destruct (sort_reordered _ _ _ Hs1) as (Hre & Hsame & _).
    assert (Hlen : List.length ii = List.length (mzs s)).
    { rewrite (Permutation_length Pii). apply length_seq. }
    destruct (reordered_arrays_wf _ _ _ Ha Hre Hlen) as [Ha1 Hn].
    destruct Hmz as (Hasc & m & Hm & Hback).
    assert (Hm1 : mzs s1 = m).
    { destruct Hre as (Hm' & _). congruence. }
    splits; auto; try discriminate.
    split; [exact Ha1|].
    unfold order_wf. simpl. rewrite Hn.
    destruct Hsame as (_ & _ & _ & _ & Hii' & Him' & _).
    exists ii, im. splits; try congruence.
    exists (mzs s). rewrite Hm1. splits; assumption.
  - exists (seq 0 (List.length (mzs s))), s. splits; auto.
    + now apply arrays_wf_reordered_id.
    + apply same_settings_refl.
    + now split.
    + discriminate.
Qed.

End transitions.

(** ** Construction *)

Lemma mapM_length {A B : Type} (f : A -> outcome B) (l : list A) (r : list B) :
  mapM f l = Ok r -> List.length r = List.length l.
Proof.
  rewrite mapM_Forall2. intros H. symmetry. eapply Forall2_length; eauto.
Qed.

Lemma normalize_intensities_Ok (s s' : Scan) :
  normalize_intensities s = Ok s' ->
  mzs s' = mzs s /\ intensities s' = intensities s /\ annot s' = annot s /\
  irank s' = irank s /\ adducts s' = adducts s /\
  sorted_by s' = sorted_by s /\ iisort s' = iisort s /\
  imzsort s' = imzsort s /\
  exists x, inorm s' = Some x /\ List.length x = List.length (intensities s).
Proof.
  unfold normalize_intensities. intros H. inv_bind H.
  destruct (Qceqb x 0%Qc); [discriminate|]. injection H as <-. simpl.
  splits; try reflexivity. eexists. split; [reflexivity|]. apply length_map.
Qed.

Section construction.

Context {E : Externals}.

Hypothesis argsort_perm :
  forall l, Permutation (argsort l) (seq 0 (List.length l)).
Hypothesis argsort_sorted :
  forall l m, reindex l (argsort l) = Ok m -> ascending m.

Lemma rev_argsort_perm (l : list Qc) :
  Permutation (rev (argsort l)) (seq 0 (List.length l)).
Proof.
  eapply Permutation_trans; [apply Permutation_sym, Permutation_rev|].
  apply argsort_perm.
Qed.

(** A scan built by the constructor from arrays of one length satisfies
    the invariant and is in intensity order. *)
Lemma Scan_init_wf (mzs' : list Qc) (ionmode' : IonMode)
    (precursor' : option Qc) (intensities' : option (list Qc))
    (tolerance' : option Qc) (s : Scan) :
  match intensities' with
  | Some l => List.length l = List.length mzs'
  | None => True
  end ->
  Scan_init mzs' ionmode' precursor' intensities' tolerance' = Ok s ->
  scan_wf s /\ sorted_by s = Some by_intensities.
Proof.
  intros Hlen H. unfold Scan_init in H.
  match type of H with
  | bind (get_annot ?t _ _) _ = _ => set (s0 := t) in H
  end.
  assert (Hi0 : List.length (intensities s0) = List.length mzs').
  { simpl. destruct intensities' as [l|]; [exact Hlen | apply repeat_length]. }
  inv_bind H. rename x into a, Hx into Ha.
  assert (Hal : List.length a = List.length mzs').
  { unfold get_annot, fragdb.annotator in Ha. now apply mapM_length in Ha. }
  inv_bind H. rename x into s2, Hx into Hs2.
  apply normalize_intensities_Ok in Hs2. simpl in Hs2.
  destruct Hs2 as (Hm2 & Hi2 & Ha2 & Hr2 & Had2 & Hsb2 & Hii2 & Him2 & x2 & Hx2 & Hxl2).
  inv_bind H. rename x into s3, Hx into Hs3.
  unfold sort_mz in Hs3. rewrite Hsb2, Him2, Hm2 in Hs3. simpl in Hs3.
  inv_bind Hs3.
  rename x into s3', Hx into Hs3'. injection Hs3 as <-.
  destruct (sort_reordered _ _ _ Hs3') as ((Rm3 & Ri3 & Rr3 & Ra3 & Rx3 & Rad3) & S3 & _).
  destruct S3 as (_ & _ & _ & _ & Hii3 & Him3 & _).
  rewrite Hm2 in Rm3. rewrite Hi2 in Ri3. rewrite Hr2 in Rr3.
  rewrite Ha2 in Ra3. rewrite Hx2 in Rx3. rewrite Had2 in Rad3.
  simpl in Rr3, Rad3. injection Rr3 as Rr3. injection Rad3 as Rad3.
  apply opt_reindex_Some in Ra3, Rx3.
  destruct Ra3 as (a3 & Ha3 & Ra3). destruct Rx3 as (x3 & Hx3 & Rx3).
  assert (Hp0 : List.length (argsort mzs') = List.length mzs').
  { rewrite (Permutation_length (argsort_perm mzs')). apply length_seq. }
  assert (Hn3 : List.length (mzs s3') = List.length mzs').
  { rewrite (reindex_length _ _ _ Rm3). simpl. exact Hp0. }
  assert (Hasc3 : ascending (mzs s3')) by (eapply argsort_sorted; eauto).
  inv_bind H. rename x into s5, Hx into Hs5. injection H as <-.
  unfold sort_intensity in Hs5. simpl in Hs5. inv_bind Hs5.
  rename x into s5', Hx into Hs5'. injection Hs5 as <-.
  destruct (sort_reordered _ _ _ Hs5') as ((Rm5 & Ri5 & Rr5 & Ra5 & Rx5 & Rad5) & S5 & _).
  destruct S5 as (_ & _ & _ & _ & Hii5 & Him5 & _).
  simpl in Rm5, Ri5, Rr5, Ra5, Rx5, Rad5, Hii5, Him5.
  rewrite <- Rr3 in Rr5. rewrite Ha3 in Ra5. rewrite Hx3 in Rx5.
  rewrite <- Rad3 in Rad5. simpl in Rr5, Rad5.
  injection Rad5 as Rad5.
  apply opt_reindex_Some in Ra5, Rx5.
  destruct Ra5 as (a5 & Ha5 & Ra5). destruct Rx5 as (x5 & Hx5 & Rx5).
  set (ii := rev (argsort (intensities s3'))) in *.
  assert (Hil3 : List.length (intensities s3') = List.length mzs').
  { rewrite (reindex_length _ _ _ Ri3). simpl. exact Hp0. }
  assert (Pii : Permutation ii (seq 0 (List.length mzs'))).
  { unfold ii. rewrite <- Hil3. apply rev_argsort_perm. }
  assert (Hiil : List.length ii = List.length mzs').
  { rewrite (Permutation_length Pii). apply length_seq. }
  assert (Hn5 : List.length (mzs s5') = List.length mzs').
  { rewrite (reindex_length _ _ _ Rm5). exact Hiil. }
  split; [|reflexivity]. split.
  - unfold arrays_wf. simpl. rewrite Hn5. splits.
    + rewrite (reindex_length _ _ _ Ri5). exact Hiil.
    + eexists. split; [reflexivity|]. unfold arange. apply length_seq.
    + exists a5. split; [exact Ha5|].
      rewrite (reindex_length _ _ _ Ra5). exact Hiil.
    + exists x5. split; [exact Hx5|].
      rewrite (reindex_length _ _ _ Rx5). exact Hiil.
    + rewrite <- Rad5. constructor.
  - unfold order_wf. simpl. rewrite Hn5.
    exists ii, (argsort (mzs s5')). splits.
    + exact Hii5.
    + reflexivity.
    + exact Pii.
    + rewrite <- Hn5. apply argsort_perm.
    + destruct (reindex_total (mzs s5') (argsort (mzs s5'))) as [m Hm].
      { apply Permutation_seq_bound, argsort_perm. }
      exists m. splits; [exact Hm | eapply argsort_sorted; eauto |].
      assert (Hmm : m = mzs s3').
      { apply ascending_unique; [eapply argsort_sorted; eauto | exact Hasc3 |].
        eapply Permutation_trans.
        - apply Permutation_sym.
          eapply reindex_Permutation; [apply argsort_perm | exact Hm].
        - apply Permutation_sym.
          eapply reindex_Permutation; [|exact Rm5]. now rewrite Hn3. }
      rewrite Hmm. exact Rm5.
Qed.

End construction.

(** ** The stable argsort is an argsort *)

Lemma insert_index_perm (keys : list Qc) (i : nat) (l : list nat) :
  Permutation (insert_index keys i l) (i :: l).
Proof.
  induction l as [|j l IH]; simpl; [reflexivity|].
  destruct (Qcleb _ _); [reflexivity|].
  rewrite IH. apply perm_swap.
Qed.

Lemma argsort_indices_perm (keys : list Qc) (idx : list nat) :
  Permutation (argsort_indices keys idx) idx.
Proof.
  induction idx as [|i idx IH]; simpl; [reflexivity|].
  rewrite insert_index_perm. now constructor.
Qed.

Lemma argsort_stable_perm (l : list Qc) :
  Permutation (argsort_stable l) (seq 0 (List.length l)).
Proof. apply argsort_indices_perm. Qed.

Lemma insert_index_sorted (keys : list Qc) (i : nat) (l : list nat) :
  StronglySorted (key_le keys) l ->
  StronglySorted (key_le keys) (insert_index keys i l).
Proof.
  intros H. induction H as [|j l Hs IH Hj]; simpl.
  - repeat constructor.
  - destruct (Qcleb _ _) eqn:Hle.
    + apply Qcleb_le in Hle. constructor; [now constructor|].
      constructor; [exact Hle|].
      eapply Forall_impl; [|exact Hj]. intros k Hk. unfold key_le in *.
      eapply Qcle_trans; eauto.
    + apply Qcleb_false in Hle. constructor; [exact IH|].
      apply Forall_forall. intros k Hk.
      apply (Permutation_in _ (insert_index_perm keys i l)) in Hk.
      destruct Hk as [<-|Hk]; [exact Hle|].
      rewrite Forall_forall in Hj. now apply Hj.
Qed.

Lemma argsort_indices_sorted (keys : list Qc) (idx : list nat) :
  StronglySorted (key_le keys) (argsort_indices keys idx).
Proof.
  induction idx as [|i idx IH]; simpl; [constructor|].
  now apply insert_index_sorted.
Qed.

Lemma argsort_stable_sorted (l m : list Qc) :
  reindex l (argsort_stable l) = Ok m -> ascending m.
Proof.
  intros H. apply reindex_Forall2 in H.
  pose proof (argsort_indices_sorted l (seq 0 (List.length l))) as Hs.
  fold (argsort_stable l) in Hs. unfold ascending.
  induction H as [|i x p m Hix H IH]; [constructor|].
  inversion Hs as [|? ? Hs' Hi]; subst. constructor; [now apply IH|].
  clear IH Hs Hs'. induction H as [|j y p m Hjy H IH]; constructor.
  - inversion Hi as [|? ? Hij Hi']; subst. unfold key_le in Hij.
    now rewrite (nth_error_nth _ _ _ Hix), (nth_error_nth _ _ _ Hjy) in Hij.
  - apply IH. now inversion Hi.
Qed.

(** ** The tolerance matcher *)

Lemma find_from_spec (i : nat) (h : list Qc) (needle tol : Qc)
    (best : option (nat * Qc)) :
  match lookup.find_from i h needle tol best with
  | None =>
      best = None /\
      Forall (fun x => lookup.ppm_match x needle tol = false) h
  | Some (j, d) =>
      best = Some (j, d) \/
      ((i <= j)%nat /\
       exists x, nth_error h (j - i) = Some x /\
                 lookup.ppm_match x needle tol = true)
  end.
Proof.
  revert i best. induction h as [|x h IH]; intros i best; simpl.
  - destruct best as [[j d]|]; auto.
  - match goal with
    | |- context [lookup.find_from (S i) h needle tol ?b] =>
        specialize (IH (S i) b)
    end.
    destruct (lookup.find_from (S i) h needle tol _) as [[j d]|].
    + destruct IH as [Hb|[Hij [y [Hy Hm]]]].
      * destruct (lookup.ppm_match x needle tol) eqn:Hx; [|now left].
        assert (Hhere : (i <= i)%nat /\
                  exists x0, nth_error (x :: h) (i - i) = Some x0 /\
                             lookup.ppm_match x0 needle tol = true).
        { split; [lia|]. exists x. now rewrite Nat.sub_diag. }
        destruct best as [[jb db]|].
        -- destruct (Qcltb _ db); [|now left].
           injection Hb as <- <-. now right.
        -- injection Hb as <- <-. now right.
      * right. split; [lia|]. exists y. split; [|exact Hm].
        replace (j - i)%nat with (S (j - S i)) by lia. exact Hy.
    + destruct IH as [Hb Hall].
      destruct (lookup.ppm_match x needle tol) eqn:Hx.
      * destruct best as [[jb db]|]; [destruct (Qcltb _ db)|]; discriminate.
      * split; [exact Hb | now constructor].
Qed.

(** [find] answers with the index of a matching element, or with nothing
    when no element matches. *)
Lemma find_Some (h : list Qc) (needle tol : Qc) (j : nat) :
  lookup.find h (Fin needle) tol = Some j ->
  exists x, nth_error h j = Some x /\ lookup.ppm_match x needle tol = true.
Proof.
  unfold lookup.find. pose proof (find_from_spec 0 h needle tol None) as H.
  destruct (lookup.find_from 0 h needle tol None) as [[k d]|]; simpl;
    [|discriminate].
  intros [= <-]. destruct H as [H|[_ [x [Hx Hm]]]]; [discriminate|].
  rewrite Nat.sub_0_r in Hx. eauto.
Qed.

Lemma find_None (h : list Qc) (needle tol : Qc) :
  lookup.find h (Fin needle) tol = None <->
  Forall (fun x => lookup.ppm_match x needle tol = false) h.
Proof.
  unfold lookup.find. pose proof (find_from_spec 0 h needle tol None) as H.
  destruct (lookup.find_from 0 h needle tol None) as [[k d]|]; simpl.
  - split; [discriminate|]. intros Hall.
    destruct H as [H|[_ [x [Hx Hm]]]]; [discriminate|].
    apply nth_error_In in Hx. rewrite Forall_forall in Hall.
    rewrite (Hall x Hx) in Hm. discriminate.
  - split; [intros _; apply H | reflexivity].
Qed.

Lemma find_bound (h : list Qc) (needle : flt) (tol : Qc) (j : nat) :
  lookup.find h needle tol = Some j -> (j < List.length h)%nat.
Proof.
  destruct needle as [m|]; [|discriminate]. intros H.
  apply find_Some in H. destruct H as [x [Hx _]].
  apply nth_error_Some. congruence.
Qed.

(** ** Queries on a constructed scan *)

Section queries.

Context {E : Externals}.

(** [mz_lookup] on a constructed scan returns, and leaves the scan
    well-formed and in intensity order. *)
Lemma mz_lookup_spec (s : Scan) (mz : flt) :
  scan_wf s ->
  exists i s1 s',
    sort_mz s = Ok s1 /\
    mz_lookup s mz = Ok (i, s') /\
    sorted_by s' = Some by_intensities /\ scan_wf s' /\
    (i <> None <->
     exists k, lookup.find (mzs s1) mz (tolerance s1) = Some (S k)).
Proof.
  intros Hwf. unfold mz_lookup.
  destruct (sort_mz_spec s Hwf) as (p & s1 & Hs1 & _ & _ & _ & Hsb1 & Hwf1 & _).
  rewrite Hs1. simpl.
  destruct (sort_intensity_spec s1 Hwf1)
    as (q & s2 & Hs2 & _ & _ & _ & Hsb2 & Hwf2 & _).
  destruct Hwf1 as [_ (ii & im & _ & Him & _ & Pim & _)].
  destruct (lookup.find (mzs s1) mz (tolerance s1)) as [[|k]|] eqn:Hf.
  - simpl. rewrite Hs2. simpl. exists None, s1, s2. splits; auto.
    split; [congruence|]. intros [k Hk]. rewrite Hf in Hk. discriminate.
  - rewrite Him. pose proof (find_bound _ _ _ _ Hf) as Hb.
    destruct (nth_error im (S k)) as [j|] eqn:Hj.
    + unfold getitem. rewrite Hj. simpl. rewrite Hs2. simpl.
      exists (Some j), s1, s2. splits; auto.
      split; [intros _; exists k; exact Hf | discriminate].
    + apply nth_error_None in Hj.
      rewrite (Permutation_length Pim), length_seq in Hj. lia.
  - simpl. rewrite Hs2. simpl. exists None, s1, s2. splits; auto.
    split; [congruence|]. intros [k Hk]. rewrite Hf in Hk. discriminate.
Qed.

Lemma has_mz_spec (s : Scan) (mz : flt) :
  scan_wf s ->
  exists b s1 s',
    sort_mz s = Ok s1 /\
    has_mz s mz = Ok (b, s') /\
    sorted_by s' = Some by_intensities /\ scan_wf s' /\
    (b = true <->
     exists k, lookup.find (mzs s1) mz (tolerance s1) = Some (S k)).
Proof.
  intros Hwf. unfold has_mz.
  destruct (mz_lookup_spec s mz Hwf) as (i & s1 & s' & Hs1 & Hl & Hsb & Hwf' & Hi).
  rewrite Hl. simpl. eexists _, s1, s'. splits; eauto.
  rewrite <- Hi. destruct i; split; congruence.
Qed.

Lemma mz_among_most_abundant_spec (s : Scan) (mz : flt) (n : nat) :
  scan_wf s ->
  exists b s',
    mz_among_most_abundant s mz n = Ok (b, s') /\
    sorted_by s' = Some by_intensities /\ scan_wf s'.
Proof.
  intros Hwf. unfold mz_among_most_abundant.
  destruct (sort_mz_spec s Hwf) as (p & s1 & Hs1 & _ & _ & _ & Hsb1 & Hwf1 & _).
  rewrite Hs1. simpl.
  destruct (sort_intensity_spec s1 Hwf1)
    as (q & s2 & Hs2 & _ & _ & _ & Hsb2 & Hwf2 & _).
  destruct Hwf1 as [(_ & (r & Hr & _) & _) _].
  rewrite Hr. simpl. rewrite Hs2. simpl. eauto.
Qed.

(** C2: for every constructed scan and either sort transition, [mzs],
    [intensities] and every derived per-peak array present (intensity
    rank, normalized intensity, annotations, and the annotation array of
    each cached adduct view) are reordered by one and the same permutation
    of the peak indices; so after the transition the values at each index
    still describe one and the same original peak. *)
Theorem sort_transitions_co_permute (s : Scan) :
  scan_wf s ->
  (exists s', sort_mz s = Ok s' /\ co_permuted s s') /\
  (exists s', sort_intensity s = Ok s' /\ co_permuted s s').
Proof.
  intros Hwf. split.
  - destruct (sort_mz_spec s Hwf) as (p & s' & Hs & Hp & Hre & _).
    exists s'. split; [exact Hs|]. exists p. splits; auto.
    now apply reordered_peak.
  - destruct (sort_intensity_spec s Hwf) as (p & s' & Hs & Hp & Hre & _).
    exists s'. split; [exact Hs|]. exists p. splits; auto.
    now apply reordered_peak.
Qed.

(** C3: on every constructed scan, [sort_mz] changes nothing when the scan
    is in m/z order and [sort_intensity] changes nothing when it is in
    intensity order, so each is idempotent; and after
    [sort_mz(); sort_intensity(); sort_mz()] the [mzs] array is the one
    the first [sort_mz()] left. *)
Theorem sort_idempotent_and_round_trip (s : Scan) :
  scan_wf s ->
  (sorted_by s = Some by_mzs -> sort_mz s = Ok s) /\
  (sorted_by s = Some by_intensities -> sort_intensity s = Ok s) /\
  exists s1 s2 s3,
    sort_mz s = Ok s1 /\ sort_mz s1 = Ok s1 /\
    sort_intensity s1 = Ok s2 /\ sort_intensity s2 = Ok s2 /\
    sort_mz s2 = Ok s3 /\
    mzs s3 = mzs s1.
Proof.
  intros Hwf.
  destruct (sort_mz_spec s Hwf)
    as (p1 & s1 & Hs1 & _ & _ & _ & Hsb1 & Hwf1 & Hid1 & _).
  destruct (sort_intensity_spec s Hwf)
    as (p0 & s0 & Hs0 & _ & _ & _ & _ & _ & Hid0 & _).
  split; [|split].
  - intros Hsb. now rewrite Hs1, (Hid1 Hsb).
  - intros Hsb. now rewrite Hs0, (Hid0 Hsb).
  - destruct (sort_mz_spec s1 Hwf1) as (? & s1' & Hs1' & _ & _ & _ & _ & _ & Hid1' & _).
    destruct (sort_intensity_spec s1 Hwf1)
      as (p2 & s2 & Hs2 & _ & Hre2 & Hsame2 & Hsb2 & Hwf2 & _ & Hp2).
    destruct (sort_intensity_spec s2 Hwf2)
      as (? & s2' & Hs2' & _ & _ & _ & _ & _ & Hid2' & _).
    destruct (sort_mz_spec s2 Hwf2)
      as (p3 & s3 & Hs3 & _ & Hre3 & _ & _ & _ & _ & Hp3).
    exists s1, s2, s3. splits; auto.
    + now rewrite Hs1', (Hid1' Hsb1).
    + now rewrite Hs2', (Hid2' Hsb2).
    + destruct Hwf1 as [_ (ii & im & Hii & Him & _ & _ & Hmz)].
      rewrite Hsb1 in Hmz. destruct Hmz as (_ & m & Hm & Hback).
      specialize (Hp2 Hsb1). specialize (Hp3 Hsb2).
      destruct Hsame2 as (_ & _ & _ & _ & _ & Him2 & _).
      assert (p2 = ii) by congruence. assert (p3 = im) by congruence.
      subst p2 p3. destruct Hre2 as (Hm2 & _). destruct Hre3 as (Hm3 & _).
      assert (mzs s2 = m) by congruence. subst m. congruence.
Qed.

(** Whatever [sort_intensity] returns is flagged as in intensity order. *)
Lemma sort_intensity_flag (s s' : Scan) :
  sort_intensity s = Ok s' -> sorted_by s' = Some by_intensities.
Proof.
  unfold sort_intensity. destruct (sorted_by s) as [[|]|] eqn:Hsb; intros H.
  - inv_bind H. injection H as <-. reflexivity.
  - injection H as <-. exact Hsb.
  - inv_bind H. injection H as <-. reflexivity.
Qed.

Lemma mz_lookup_flag (s s' : Scan) (mz : flt) (i : option nat) :
  mz_lookup s mz = Ok (i, s') -> sorted_by s' = Some by_intensities.
Proof.
  unfold mz_lookup. intros H. inv_bind H. inv_bind H. inv_bind H.
  injection H as _ <-. eapply sort_intensity_flag; eauto.
Qed.

Lemma mz_among_most_abundant_flag (s s' : Scan) (mz : flt) (n : nat)
    (b : bool) :
  mz_among_most_abundant s mz n = Ok (b, s') ->
  sorted_by s' = Some by_intensities.
Proof.
  unfold mz_among_most_abundant. intros H. inv_bind H. inv_bind H. inv_bind H.
  injection H as _ <-. eapply sort_intensity_flag; eauto.
Qed.

(** C10, as amended: on a constructed scan each of [mz_lookup], [has_mz]
    and [mz_among_most_abundant] returns and leaves the sort-order flag
    [sorted_by] at ['intensities'], whichever of the two orders was
    flagged when it was called; so a scan that was in m/z order is left
    flagged as in intensity order.  When intensity order was flagged
    before the call, the flag is the same after the call as before it,
    for these three and for each of [nl_lookup], [has_nl],
    [nl_among_most_abundant], [get_intensity], [get_nl_intensity],
    [fragment_by_name] and [has_fragment] that returns.  This is about the
    flag and about these methods. *)
Theorem queries_end_in_intensity_order (s : Scan) (mz : flt) (x : Qc)
    (n : nat) (name : string) (ad : option string) :
  scan_wf s ->
  ((exists i s', mz_lookup s mz = Ok (i, s') /\
                 sorted_by s' = Some by_intensities /\
                 (sorted_by s = Some by_intensities ->
                  sorted_by s' = sorted_by s)) /\
   (exists b s', has_mz s mz = Ok (b, s') /\
                 sorted_by s' = Some by_intensities /\
                 (sorted_by s = Some by_intensities ->
                  sorted_by s' = sorted_by s)) /\
   (exists b s', mz_among_most_abundant s mz n = Ok (b, s') /\
                 sorted_by s' = Some by_intensities /\
                 (sorted_by s = Some by_intensities ->
                  sorted_by s' = sorted_by s))) /\
  (sorted_by s = Some by_intensities ->
   (forall r s', nl_lookup s x ad = Ok (r, s') ->
                 sorted_by s' = sorted_by s) /\
   (forall r s', has_nl s x ad = Ok (r, s') ->
                 sorted_by s' = sorted_by s) /\
   (forall r s', nl_among_most_abundant s x n ad = Ok (r, s') ->
                 sorted_by s' = sorted_by s) /\
   (forall r s', get_intensity s mz = Ok (r, s') ->
                 sorted_by s' = sorted_by s) /\
   (forall r s', get_nl_intensity s x ad = Ok (r, s') ->
                 sorted_by s' = sorted_by s) /\
   (forall r s', fragment_by_name s name ad = Ok (r, s') ->
                 sorted_by s' = sorted_by s) /\
   (forall r s', has_fragment s name ad = Ok (r, s') ->
                 sorted_by s' = sorted_by s)).
Proof.
  intros Hwf. split.
  - splits.
    + destruct (mz_lookup_spec s mz Hwf) as (i & _ & s' & _ & H & Hsb & _).
      exists i, s'. splits; auto. congruence.
    + destruct (has_mz_spec s mz Hwf) as (b & _ & s' & _ & H & Hsb & _).
      exists b, s'. splits; auto. congruence.
    + destruct (mz_among_most_abundant_spec s mz n Hwf) as (b & s' & H & Hsb & _).
      exists b, s'. splits; auto. congruence.
  - intros Hsb. rewrite Hsb.
    assert (Hnl_lookup : forall y r s',
              nl_lookup s y ad = Ok (r, s') ->
              sorted_by s' = Some by_intensities).
    { intros y r s' H. unfold nl_lookup in H. inv_bind H.
      destruct x0 as [m s1]. now apply mz_lookup_flag in H. }
    assert (Hget : forall s0 m r s',
              get_intensity s0 m = Ok (r, s') ->
              sorted_by s' = Some by_intensities).
    { intros s0 m r s' H. unfold get_intensity in H. inv_bind H.
      destruct x0 as [i s1]. apply mz_lookup_flag in Hx.
      destruct i as [i|].
      - inv_bind H. inv_bind H. injection H as _ <-. exact Hx.
      - injection H as _ <-. exact Hx. }
    assert (Hby : forall r s',
              fragment_by_name s name ad = Ok (r, s') ->
              sorted_by s' = Some by_intensities).
    { intros r s' H. unfold fragment_by_name in H. inv_bind H.
      destruct x0 as [fr|]; [|injection H as _ <-; exact Hsb].
      inv_bind H. destruct x0 as [i s1]. injection H as _ <-.
      destruct (Z.eqb (fragdb.charge fr) 0).
      - now apply Hnl_lookup in Hx0.
      - now apply mz_lookup_flag in Hx0. }
    splits.
    + exact (Hnl_lookup x).
    + intros r s' H. unfold has_nl in H. inv_bind H. destruct x0 as [m s1].
      unfold has_mz in H. inv_bind H. destruct x0 as [i s2].
      injection H as _ <-. now apply mz_lookup_flag in Hx0.
    + intros r s' H. unfold nl_among_most_abundant in H. inv_bind H.
      destruct x0 as [m s1]. now apply mz_among_most_abundant_flag in H.
    + intros r s'. apply Hget.
    + intros r s' H. unfold get_nl_intensity in H. inv_bind H.
      destruct x0 as [m s1]. now apply Hget in H.
    + exact Hby.
    + intros r s' H. unfold has_fragment in H. inv_bind H.
      destruct x0 as [i s1]. injection H as _ <-. now apply Hby in Hx.
Qed.

End queries.

(** ** The claims on concrete scans *)

Lemma env_of_init_wf (db : fragdb.FragmentDatabaseAggregator.t)
    (mzs' : list Qc) (ionmode' : IonMode) (precursor' : option Qc)
    (intensities' : list Qc) (tolerance' : option Qc) (s : Scan) :
  List.length intensities' = List.length mzs' ->
  Scan_init (E := env_of db) mzs' ionmode' precursor' (Some intensities')
    tolerance' = Ok s ->
  scan_wf s.
Proof.
  intros Hlen H.
  apply (Scan_init_wf (E := env_of db) argsort_stable_perm
           argsort_stable_sorted mzs' ionmode' precursor'
           (Some intensities') tolerance' s Hlen H).
Qed.

Lemma scan_three_wf (s : Scan) : scan_three = Ok s -> scan_wf s.
Proof.
  unfold scan_three. intros H. eapply env_of_init_wf; [|exact H]. reflexivity.
Qed.

Lemma scan_pc_wf (s : Scan) : scan_pc = Ok s -> scan_wf s.
Proof.
  unfold scan_pc. intros H. eapply env_of_init_wf; [|exact H]. reflexivity.
Qed.

Lemma scan_three_Ok : exists s, scan_three = Ok s.
Proof. vm_compute. eexists. reflexivity. Qed.

Lemma scan_pc_Ok : exists s, scan_pc = Ok s.
Proof. vm_compute. eexists. reflexivity. Qed.

Lemma sort_idempotent_and_round_trip_witness :
  exists s,
    scan_three = Ok s /\
    exists s1 s2 s3,
      sort_mz (E := env_of db_pc) s = Ok s1 /\
      sort_mz (E := env_of db_pc) s1 = Ok s1 /\
      sort_intensity (E := env_of db_pc) s1 = Ok s2 /\
      sort_intensity (E := env_of db_pc) s2 = Ok s2 /\
      sort_mz (E := env_of db_pc) s2 = Ok s3 /\
      mzs s3 = mzs s1.
Proof.
  destruct scan_three_Ok as [s H]. exists s. split; [exact H|].
  apply (sort_idempotent_and_round_trip (E := env_of db_pc) s).
  apply (scan_three_wf s H).
Defined.

Lemma queries_end_in_intensity_order_witness :
  exists s,
    scan_three = Ok s /\
    exists b s',
      has_mz (E := env_of db_pc) s (Fin (Q2Qc 300)) = Ok (b, s') /\
      sorted_by s' = Some by_intensities /\
      (sorted_by s = Some by_intensities -> sorted_by s' = sorted_by s).
Proof.
  destruct scan_three_Ok as [s H]. exists s. split; [exact H|].
  exact (proj1 (proj2 (proj1
           (queries_end_in_intensity_order (E := env_of db_pc) s
              (Fin (Q2Qc 300)) (Q2Qc 300) 2 "" None (scan_three_wf s H))))).
Defined.

(** C10, as stated, fails: a scan put in m/z order by [sort_mz] is in
    intensity order after [mz_lookup]. *)
Lemma queries_leave_mz_order :
  exists s s1 i s2,
    scan_three = Ok s /\
    sort_mz (E := env_of db_pc) s = Ok s1 /\
    sorted_by s1 = Some by_mzs /\
    mz_lookup (E := env_of db_pc) s1 (Fin (Q2Qc 300)) = Ok (i, s2) /\
    sorted_by s2 <> sorted_by s1.
Proof.
  destruct scan_three_Ok as [s H].
  pose proof (scan_three_wf s H) as Hwf.
  destruct (sort_mz_spec (E := env_of db_pc) s Hwf)
    as (p & s1 & Hs1 & _ & _ & _ & Hsb1 & Hwf1 & _).
  destruct (mz_lookup_spec (E := env_of db_pc) s1 (Fin (Q2Qc 300)) Hwf1)
    as (i & _ & s2 & _ & Hl & Hsb2 & _).
  exists s, s1, i, s2. splits; auto. congruence.
Qed.

(** C6 at the failing input: in a scan with peaks at 184.0733 and 300 the
    peak at 184.0733 is the lowest in m/z order and matches 184.0733 within
    the tolerance, and [has_mz(184.0733)] answers [False]. *)
Theorem has_mz_misses_lowest_peak :
  exists s s1 s',
    scan_pc = Ok s /\
    sort_mz (E := env_of db_pc) s = Ok s1 /\
    nth_error (mzs s1) 0 = Some (Q2Qc 184.0733) /\
    lookup.ppm_match (Q2Qc 184.0733) (Q2Qc 184.0733) (tolerance s) = true /\
    has_mz (E := env_of db_pc) s (Fin (Q2Qc 184.0733)) = Ok (false, s').
Proof.
  do 3 eexists. splits.
  - vm_compute. reflexivity.
  - vm_compute. reflexivity.
  - vm_compute. reflexivity.
  - vm_compute. reflexivity.
  - vm_compute. reflexivity.
Qed.

(** The sibling query does find the lowest peak. *)
Lemma mz_among_most_abundant_finds_lowest_peak :
  exists s s',
    scan_pc = Ok s /\
    mz_among_most_abundant (E := env_of db_pc) s (Fin (Q2Qc 184.0733)) 2 =
    Ok (true, s').
Proof.
  do 2 eexists. split; vm_compute; reflexivity.
Qed.

(** C8 at the failing input: the fragment name is in the database as a
    charged ion of m/z 184.0733, the scan has a peak at 184.0733, and
    [has_fragment] answers [False]. *)
Theorem has_fragment_misses_lowest_peak :
  exists s row s',
    scan_pc = Ok s /\
    fragdb.by_name (get_db (Externals := env_of db_pc))
      "PC/SM [P+Ch] (184.0733)" (ionmode s) = Ok (Some row) /\
    fragdb.charge row <> 0%Z /\
    In (fragdb.mz row) (mzs s) /\
    lookup.ppm_match (fragdb.mz row) (fragdb.mz row) (tolerance s) = true /\
    has_fragment (E := env_of db_pc) s "PC/SM [P+Ch] (184.0733)" None =
    Ok (Some false, s').
Proof.
  do 3 eexists. splits.
  - vm_compute. reflexivity.
  - vm_compute. reflexivity.
  - vm_compute. discriminate.
  - vm_compute. right. left. reflexivity.
  - vm_compute. reflexivity.
  - vm_compute. reflexivity.
Qed.

(** ** The fragment database *)

Section database.

Import fragdb.FragmentDatabaseAggregator.

Lemma lookup_from (pre l : list fragdb.FragmentAnnotation) (m T : Qc)
    (nl : bool) :
  (idx' <- mapM (fun i =>
             row <- getitem (pre ++ l) i ;;
             Ok (i, if nl then Z.eqb (fragdb.charge row) 0
                    else negb (Z.eqb (fragdb.charge row) 0)))
           (lookup.findall_from (List.length pre) (map fragdb.mz l) m T) ;;
   reindex (pre ++ l) (map fst (filter snd idx'))) =
  Ok (filter (fun row => lookup.ppm_match (fragdb.mz row) m T
                         && charge_test nl row) l).
Proof.
  revert pre. induction l as [|x l IH]; intros pre; [reflexivity|].
  specialize (IH (pre ++ [x])). rewrite <- app_assoc in IH. simpl in IH.
  rewrite length_app in IH. simpl in IH. rewrite Nat.add_1_r in IH.
  simpl. destruct (lookup.ppm_match (fragdb.mz x) m T); simpl.
  - unfold getitem at 1. rewrite nth_error_app2 by lia.
    rewrite Nat.sub_diag. simpl.
    inv_bind IH. rewrite Hx. simpl. fold (charge_test nl x).
    destruct (charge_test nl x); simpl.
    + unfold reindex in *. simpl. unfold getitem at 1.
      rewrite nth_error_app2 by lia. rewrite Nat.sub_diag. simpl.
      rewrite IH. reflexivity.
    + exact IH.
  - exact IH.
Qed.

(** [lookup] returns the rows within tolerance of the m/z, charge-zero
    rows for a neutral loss and charged rows otherwise. *)
Lemma lookup_spec (db : t) (m : Qc) (nl : bool) (tol : option Qc) :
  lookup db (Fin m) nl tol =
  Ok (filter (fun row =>
                lookup.ppm_match (fragdb.mz row) m
                  (or_default tol (tolerance db))
                && charge_test nl row) (fragments db)).
Proof.
  unfold lookup, lookup.findall.
  exact (lookup_from [] (fragments db) m (or_default tol (tolerance db)) nl).
Qed.

Lemma Qceqb_eq (x y : Qc) : Qceqb x y = true <-> x = y.
Proof.
  unfold Qceqb. rewrite Qeq_bool_iff. split.
  - apply Qc_is_canon.
  - intros ->. reflexivity.
Qed.

(** C4, as amended: for every peak m/z, every precursor m/z other than
    the peak's, and every tolerance, where a tolerance that is omitted or
    zero stands for the database's own tolerance, the neutral-loss lookup
    takes [precursor - mz] as the neutral loss mass, rescales the tolerance
    to [tolerance * mz / (precursor - mz)], and returns what the direct
    lookup of the neutral loss mass with the rescaled tolerance returns:
    rows of charge zero only. *)
Theorem lookup_nl_rescales (db : t) (mz precursor : Qc) (tol : option Qc) :
  precursor <> mz ->
  let nlmz := (precursor - mz)%Qc in
  let rescaled := (or_default tol (tolerance db) * mz / nlmz)%Qc in
  lookup_nl db mz precursor tol = lookup db (Fin nlmz) true (Some rescaled) /\
  exists rows,
    lookup_nl db mz precursor tol = Ok rows /\
    Forall (fun row => fragdb.charge row = 0%Z) rows /\
    rows = filter (fun row =>
                     lookup.ppm_match (fragdb.mz row) nlmz
                       (or_default (Some rescaled) (tolerance db))
                     && Z.eqb (fragdb.charge row) 0) (fragments db).
Proof.
  intros Hne nlmz rescaled. unfold lookup_nl. fold nlmz.
  destruct (Qceqb nlmz 0%Qc) eqn:Hz.
  { apply Qceqb_eq in Hz. exfalso. apply Hne. unfold nlmz in Hz.
    apply (f_equal (fun q => (q + mz)%Qc)) in Hz.
    ring_simplify in Hz. exact Hz. }
  assert (Hr : (mz / nlmz * or_default tol (tolerance db))%Qc = rescaled).
  { unfold rescaled, Qcdiv. ring. }
  rewrite Hr. split; [reflexivity|].
  rewrite lookup_spec. eexists. splits; [reflexivity| |reflexivity].
  apply Forall_forall. intros row Hrow. apply filter_In in Hrow.
  destruct Hrow as [_ Hrow]. apply andb_true_iff in Hrow.
  now apply Z.eqb_eq.
Qed.

Lemma precursor_above_peak : Q2Qc 786.6 <> Q2Qc 603.57.
Proof.
  intros H. apply (f_equal this) in H. vm_compute in H. discriminate.
Qed.

Lemma lookup_nl_rescales_witness :
  lookup_nl db_nl (Q2Qc 603.57) (Q2Qc 786.6) (Some (Q2Qc 10)) =
  lookup db_nl (Fin (Q2Qc 786.6 - Q2Qc 603.57)%Qc) true
    (Some (or_default (Some (Q2Qc 10)) (tolerance db_nl) * Q2Qc 603.57
           / (Q2Qc 786.6 - Q2Qc 603.57))%Qc).
Proof.
  exact (proj1 (lookup_nl_rescales db_nl (Q2Qc 603.57) (Q2Qc 786.6)
                  (Some (Q2Qc 10)) precursor_above_peak)).
Defined.

(** C4, as stated, fails for a tolerance of zero: the neutral-loss lookup
    rescales the database's own tolerance of 50 ppm and finds the neutral
    loss of 183.05, which the direct lookup with the rescaled zero
    tolerance does not return. *)
Lemma lookup_nl_zero_tolerance :
  lookup_nl db_nl (Q2Qc 603.57) (Q2Qc 786.6) (Some (Q2Qc 0)) <>
  lookup db_nl (Fin (Q2Qc 786.6 - Q2Qc 603.57)%Qc) true
    (Some (Q2Qc 0 * Q2Qc 603.57 / (Q2Qc 786.6 - Q2Qc 603.57))%Qc).
Proof.
  vm_compute. discriminate.
Qed.

End database.

(** ** The chain combination solver *)

Lemma gen_for_In {A B : Type} (body : A -> outcome (option B)) (l : list A)
    (y : B) :
  In y (yielded (gen_for body l)) ->
  exists x, In x l /\ body x = Ok (Some y).
Proof.
  induction l as [|x l IH]; simpl; [contradiction|].
  destruct (body x) as [[z|]|e] eqn:Hb; simpl.
  - intros [<-|H]; [eauto|]. destruct (IH H) as [x' [Hin Hx']]. eauto.
  - intros H. destruct (IH H) as [x' [Hin Hx']]. eauto.
  - contradiction.
Qed.

Lemma gen_of_In {B : Type} (m : outcome (gen B)) (y : B) :
  In y (yielded (gen_of m)) -> exists g, m = Ok g /\ In y (yielded g).
Proof.
  destruct m as [g|e]; simpl; [eauto | contradiction].
Qed.

Lemma product_In {A : Type} (ls : list (list A)) (comb : list A) :
  In comb (product ls) -> Forall2 (fun x l => In x l) comb ls.
Proof.
  revert comb. induction ls as [|l ls IH]; simpl; intros comb H.
  - destruct H as [<-|[]]. constructor.
  - apply in_flat_map in H. destruct H as [x [Hx H]].
    apply in_map_iff in H. destruct H as [rest [<- Hrest]].
    constructor; auto.
Qed.

Lemma insert_item_perm {V : Type} (x : nat * V) (l : list (nat * V)) :
  Permutation (insert_item x l) (x :: l).
Proof.
  induction l as [|y l IH]; simpl; [reflexivity|].
  destruct (Nat.leb _ _); [reflexivity|].
  rewrite IH. apply perm_swap.
Qed.

Lemma sorted_items_perm {V : Type} (d : list (nat * V)) :
  Permutation (sorted_items d) d.
Proof.
  induction d as [|x d IH]; simpl; [reflexivity|].
  rewrite insert_item_perm. now constructor.
Qed.

Lemma product_sorted_length {V : Type} (d : list (nat * list V))
    (comb : list V) :
  In comb (product (map snd (sorted_items d))) ->
  List.length comb = List.length d.
Proof.
  intros H. apply product_In, Forall2_length in H.
  rewrite H, length_map. apply Permutation_length, sorted_items_perm.
Qed.

Lemma dict_append_keys {V : Type} (d : list (nat * list V)) (ci : nat) (v : V) :
  (In ci (map fst d) -> map fst (dict_append d ci v) = map fst d) /\
  (~ In ci (map fst d) -> map fst (dict_append d ci v) = map fst d ++ [ci]).
Proof.
  induction d as [|[k l] d [IH1 IH2]]; simpl.
  - split; [contradiction | reflexivity].
  - destruct (Nat.eqb k ci) eqn:Hk.
    + apply Nat.eqb_eq in Hk. subst. split; [reflexivity|].
      intros H. exfalso. apply H. now left.
    + apply Nat.eqb_neq in Hk. simpl. split.
      * intros [H|H]; [contradiction|]. now rewrite IH1.
      * intros H. rewrite IH2; [reflexivity|]. intros Hin. apply H. now right.
Qed.

Lemma dict_append_wf {V : Type} (K : nat) (d : list (nat * list V))
    (ci : nat) (v : V) :
  (ci < K)%nat -> buckets_wf K d -> buckets_wf K (dict_append d ci v).
Proof.
  intros Hci [Hnd Hall]. split.
  - destruct (in_dec Nat.eq_dec ci (map fst d)) as [Hin|Hnin].
    + now rewrite (proj1 (dict_append_keys d ci v) Hin).
    + rewrite (proj2 (dict_append_keys d ci v) Hnin).
      apply NoDup_app; auto.
      * repeat constructor. intros [].
      * intros x Hx [<-|[]]. contradiction.
  - clear Hnd. induction Hall as [|[k l] d [Hk Hl] Hall IH]; simpl.
    + repeat constructor; [exact Hci | discriminate].
    + destruct (Nat.eqb k ci).
      * constructor; [|exact Hall]. simpl in *. split; [exact Hk|].
        now destruct l.
      * constructor; [now split | exact IH].
Qed.

Lemma frags_at_wf {V : Type} (K : nat) (d : list (nat * list V)) (p : nat) :
  buckets_wf K d -> In p (map fst d) -> frags_at d p <> [].
Proof.
  intros [_ Hall] Hin. induction Hall as [|[k l] d [Hk Hl] Hall IH];
    simpl in *; [contradiction|].
  destruct (Nat.eqb k p) eqn:Hkp; [exact Hl|].
  apply Nat.eqb_neq in Hkp. destruct Hin as [Hin|Hin]; [contradiction|].
  now apply IH.
Qed.

(** A dict with [K] well-formed entries has an entry for every position
    below [K]. *)
Lemma buckets_cover {V : Type} (K : nat) (d : list (nat * list V)) (p : nat) :
  buckets_wf K d -> List.length d = K -> (p < K)%nat -> In p (map fst d).
Proof.
  intros [Hnd Hall] Hlen Hp.
  assert (Hincl : incl (map fst d) (seq 0 K)).
  { intros k Hk. apply in_map_iff in Hk. destruct Hk as [[k' l] [<- Hin]].
    rewrite Forall_forall in Hall. apply Hall in Hin. simpl in *.
    apply in_seq. lia. }
  apply (@NoDup_length_incl _ (map fst d) (seq 0 K) Hnd); [|exact Hincl|].
  - rewrite length_seq, length_map. lia.
  - apply in_seq. lia.
Qed.

Lemma buckets_wf_length {V : Type} (K : nat) (d : list (nat * list V)) :
  buckets_wf K d -> (List.length d <= K)%nat.
Proof.
  intros [Hnd Hall].
  assert (Hincl : incl (map fst d) (seq 0 K)).
  { intros k Hk. apply in_map_iff in Hk. destruct Hk as [[k' l] [<- Hin]].
    rewrite Forall_forall in Hall. apply Hall in Hin. simpl in *.
    apply in_seq. lia. }
  pose proof (NoDup_incl_length Hnd Hincl) as H.
  now rewrite length_map, length_seq in H.
Qed.

Lemma skipn_nth_error {A : Type} (l : list A) (j : nat) (x : A) :
  nth_error l j = Some x -> skipn j l = x :: skipn (S j) l.
Proof.
  revert j. induction l as [|y l IH]; intros [|j] H; simpl in *;
    try discriminate.
  - congruence.
  - now apply IH.
Qed.

Lemma sumZ_app (l1 l2 : list Z) : sumZ (l1 ++ l2) = (sumZ l1 + sumZ l2)%Z.
Proof.
  induction l1 as [|x l1 IH]; simpl; [reflexivity|]. rewrite IH. lia.
Qed.

Lemma same_counts_sums (t : list ChainFragment.t) (cs : list lipproc.Chain.t) :
  Forall2 same_counts t cs ->
  sumZ (map lipproc.Chain.c cs) = sumZ (map ChainFragment.c t) /\
  sumZ (map lipproc.Chain.u cs) = sumZ (map ChainFragment.u t).
Proof.
  intros H. induction H as [|f ch t cs [Hc Hu] H [IHc IHu]]; simpl.
  - now split.
  - rewrite Hc, Hu, IHc, IHu. now split.
Qed.

Section chains_of_a_combination.

Variable frag_comb : list ChainFragment.t.
Variable chainsum : lipproc.ChainSummary.t.
Variable missing : option (nat * lipproc.Chain.t).

(** Past the missing position, or with none, every position takes the
    next fragment of the combination. *)
Lemma chains_plain (n i j : nat) (chains : list lipproc.Chain.t) :
  (forall m, option_map fst missing = Some m -> (m < i)%nat) ->
  mapM (chain_for_position frag_comb chainsum missing)
    (iterator_insert_from i j n (option_map fst missing)) = Ok chains ->
  Forall2 same_counts (firstn n (skipn j frag_comb)) chains.
Proof.
  revert i j chains. induction n as [|n IH]; intros i j chains Hm H.
  - simpl in H. injection H as <-. constructor.
  - simpl in H.
    assert (Htest : match option_map fst missing with
                    | Some m => Nat.eqb i m
                    | None => false
                    end = false).
    { destruct (option_map fst missing) as [m|]; [|reflexivity].
      apply Nat.eqb_neq. specialize (Hm m eq_refl). lia. }
    rewrite Htest in H. simpl in H. inv_bind H. inv_bind H.
    injection H as <-. unfold chain_for_position in Hx. simpl in Hx.
    inv_bind Hx. inv_bind Hx. injection Hx as <-.
    apply getitem_Ok in Hx1. rewrite (skipn_nth_error _ _ _ Hx1). simpl.
    constructor; [now split|].
    apply (IH (S i) (S j)); [|exact Hx0].
    intros m Hmm. specialize (Hm m Hmm). lia.
Qed.

End chains_of_a_combination.

(** With a missing chain at [mp], the chains are the missing chain at
    [mp] and, around it, chains built from the fragments in order. *)
Lemma chains_missing (frag_comb : list ChainFragment.t)
    (chainsum : lipproc.ChainSummary.t) (mp : nat) (mc : lipproc.Chain.t)
    (n i j : nat) (chains : list lipproc.Chain.t) :
  (i <= mp)%nat -> (mp < i + n)%nat ->
  mapM (chain_for_position frag_comb chainsum (Some (mp, mc)))
    (iterator_insert_from i j n (Some mp)) = Ok chains ->
  exists c1 c2,
    chains = c1 ++ mc :: c2 /\ List.length c1 = (mp - i)%nat /\
    Forall2 same_counts (firstn (n - 1) (skipn j frag_comb)) (c1 ++ c2).
Proof.
  revert i j chains. induction n as [|n IH]; intros i j chains Hi Hn H;
    [lia|].
  simpl in H. destruct (Nat.eqb i mp) eqn:Him.
  - apply Nat.eqb_eq in Him. subst i. simpl in H. inv_bind H.
    injection H as <-. exists [], x. splits.
    + reflexivity.
    + simpl. lia.
    + simpl. rewrite Nat.sub_0_r.
      apply (chains_plain frag_comb chainsum (Some (mp, mc)) n (S mp) j);
        [|exact Hx].
      simpl. intros m [= <-]. lia.
  - apply Nat.eqb_neq in Him. simpl in H. inv_bind H. inv_bind H.
    injection H as <-. unfold chain_for_position in Hx. simpl in Hx.
    inv_bind Hx. inv_bind Hx. injection Hx as <-.
    apply getitem_Ok in Hx1.
    destruct (IH (S i) (S j) x0) as (c1 & c2 & -> & Hl & Hall);
      [lia | lia | exact Hx0 |].
    eexists (_ :: c1), c2. splits.
    + reflexivity.
    + simpl. lia.
    + rewrite (skipn_nth_error _ _ _ Hx1).
      replace (S n - 1)%nat with (S (n - 1)) by lia. simpl.
      constructor; [now split | exact Hall].
Qed.

Lemma iterator_insert_from_length (n i j : nat) (insert : option nat) :
  List.length (iterator_insert_from i j n insert) = n.
Proof.
  revert i j. induction n as [|n IH]; intros i j; simpl; [reflexivity|].
  destruct (match insert with Some m => Nat.eqb i m | None => false end);
    simpl; now rewrite IH.
Qed.

Lemma iterator_insert_length (n : nat) (insert : option nat) :
  List.length (iterator_insert n insert) = n.
Proof. apply iterator_insert_from_length. Qed.

Lemma _chains_frag_comb_chains (self : Scan) (fc : list ChainFragment.t)
    (cs : lipproc.ChainSummary.t) (details : option bool)
    (missing : option (nat * lipproc.Chain.t))
    (y : list lipproc.Chain.t * option ChainIdentificationDetails) :
  _chains_frag_comb self fc cs details missing = Ok y ->
  mapM (chain_for_position fc cs missing)
    (iterator_insert (lipproc.ChainSummary.len cs) (option_map fst missing))
  = Ok (fst y).
Proof.
  unfold _chains_frag_comb. intros H. inv_bind H. rewrite Hx.
  destruct (match details with Some d => d | None => chain_details self end).
  - repeat inv_bind H. now injection H as <-.
  - now injection H as <-.
Qed.

Lemma firstn_skipn_all {A : Type} (l : list A) (n : nat) :
  List.length l = n -> firstn n (skipn 0 l) = l.
Proof.
  intros <-. simpl. apply firstn_all.
Qed.

Section solver_facts.

Context {E : Externals}.

Variable rec : lipproc.LipidRecord.
Variable cs : lipproc.ChainSummary.t.

Hypothesis chainsum_rec : lipproc.chainsum rec = Some cs.

(** The positions the constraint matcher names are chain positions of the
    record. *)
Hypothesis positions_below :
  forall constr p,
    In p (snd (match_constraints rec constr)) ->
    (p < lipproc.ChainSummary.len cs)%nat.

Let K : nat := lipproc.ChainSummary.len cs.

Lemma fold_positions_wf (frag_types : option (list (option (list string))))
    (frag : ChainFragment.t) (chpos : list nat)
    (acc : outcome (list (nat * list ChainFragment.t)))
    (d : list (nat * list ChainFragment.t)) :
  Forall (fun p => (p < K)%nat) chpos ->
  (forall d0, acc = Ok d0 -> buckets_wf K d0) ->
  fold_left
    (fun acc ci =>
       d <- acc ;;
       ok <- frag_type_allowed frag_types ci (ChainFragment.fragtype frag) ;;
       Ok (if ok then dict_append d ci frag else d))
    chpos acc = Ok d ->
  buckets_wf K d.
Proof.
  intros Hpos. revert acc. induction Hpos as [|ci chpos Hci Hpos IH];
    intros acc Hacc H; simpl in H.
  - now apply Hacc.
  - apply (IH _) in H; [exact H|]. intros d1 Hd1.
    inv_bind Hd1. inv_bind Hd1. injection Hd1 as <-.
    specialize (Hacc _ Hx). destruct x0; [|exact Hacc].
    now apply dict_append_wf.
Qed.

Lemma frags_for_positions_loop_wf (self : Scan) (head : option nat)
    (thr : Qc) (frag_types : option (list (option (list string))))
    (cl : list ChainFragment.t)
    (d0 d : list (nat * list ChainFragment.t)) :
  buckets_wf K d0 ->
  frags_for_positions_loop self rec head thr frag_types cl d0 = Ok d ->
  buckets_wf K d.
Proof.
  revert d0. induction cl as [|frag cl IH]; intros d0 Hd0 H; simpl in H.
  - now injection H as <-.
  - match type of H with
    | (if ?b then _ else _) = _ => destruct b
    end; [now injection H as <-|].
    inv_bind H. inv_bind H.
    destruct (Qcltb x0 thr); [now injection H as <-|].
    inv_bind H. apply (IH x1); [|exact H].
    eapply fold_positions_wf; [| |exact Hx1].
    + apply Forall_forall. intros p Hp. unfold positions_for_frag_type in Hp.
      now apply positions_below in Hp.
    + intros d1 [= <-]. exact Hd0.
Qed.

Lemma frags_for_positions_wf (self : Scan) (head : option nat) (thr : Qc)
    (frag_types : option (list (option (list string)))) (ad : option string)
    (d : list (nat * list ChainFragment.t)) (s' : Scan) :
  frags_for_positions self rec head thr frag_types ad = Ok (d, s') ->
  buckets_wf K d.
Proof.
  unfold frags_for_positions. intros H. inv_bind H. destruct x as [cl s1].
  inv_bind H. injection H as <- <-.
  eapply frags_for_positions_loop_wf; [|exact Hx0].
  split; constructor.
Qed.

Lemma chainsum_or_sum_rec :
  (0 < K)%nat -> chainsum_or_sum rec = cs.
Proof.
  intros HK. unfold chainsum_or_sum. rewrite chainsum_rec.
  fold K. destruct (Nat.eqb_spec K 0); [lia | reflexivity].
Qed.

(** C1: for every record with [K] named chain positions, every
    combination [chain_combinations] yields has one chain per position,
    with carbon counts summing to the record's total carbon count and
    unsaturations summing to its total unsaturation; and when a position
    has an empty bucket of candidate fragments, nothing is yielded. *)
Theorem chain_combinations_sums (self : Scan) (head : option nat) (thr : Qc)
    (expected : option (list R)) (no_intensity_check : bool)
    (frag_types : option (list (option (list string))))
    (fragment_details : option bool) (ad : option string) :
  (0 < K)%nat ->
  let g := chain_combinations self rec head thr expected no_intensity_check
             frag_types fragment_details ad in
  (forall chains details,
      In (chains, details) (yielded g) ->
      List.length chains = K /\
      sumZ (map lipproc.Chain.c chains) = lipproc.ChainSummary.c cs /\
      sumZ (map lipproc.Chain.u chains) = lipproc.ChainSummary.u cs) /\
  (forall s1 d s2,
      build_chain_list self = Ok s1 ->
      frags_for_positions s1 rec head thr frag_types ad = Ok (d, s2) ->
      (exists p, (p < K)%nat /\ frags_at d p = []) ->
      yielded g = []).
Proof.
  intros HK g. unfold g, chain_combinations.
  rewrite (chainsum_or_sum_rec HK), chainsum_rec.
  assert (Htruthy : chainsum_truthy (Some cs) = true).
  { unfold chainsum_truthy. fold K. destruct (Nat.eqb_spec K 0);
      [lia | reflexivity]. }
  rewrite Htruthy. simpl negb. simpl andb. cbv iota. split.
  - intros chains details Hin. apply gen_of_In in Hin.
    destruct Hin as (g' & Hg' & Hin). inv_bind Hg'. inv_bind Hg'.
    destruct x0 as [d s2]. simpl in Hg'.
    destruct (Nat.eqb_spec (List.length d)
                (List.length (lipproc.ChainSummary.typ cs))) as [Hlen|Hlen];
      simpl in Hg'; injection Hg' as <-; [|contradiction].
    apply gen_for_In in Hin. destruct Hin as (fc & Hfc & Hbody).
    apply product_sorted_length in Hfc.
    destruct (Z.eqb_spec (sumZ (map ChainFragment.c fc))
                (lipproc.ChainSummary.c cs)) as [Hc|]; [|discriminate].
    destruct (Z.eqb_spec (sumZ (map ChainFragment.u fc))
                (lipproc.ChainSummary.u cs)) as [Hu|]; [|discriminate].
    simpl in Hbody. inv_bind Hbody. destruct x0; [|discriminate].
    inv_bind Hbody. injection Hbody as ->.
    apply _chains_frag_comb_chains in Hx2. simpl in Hx2.
    pose proof (mapM_length _ _ _ Hx2) as Hl.
    apply (chains_plain fc cs None) in Hx2; [|discriminate].
    rewrite firstn_skipn_all in Hx2 by (rewrite Hfc; exact Hlen).
    apply same_counts_sums in Hx2. destruct Hx2 as [Hsc Hsu].
    splits; [|congruence|congruence].
    rewrite Hl. apply iterator_insert_length.
  - intros s1 d s2 Hs1 Hd (p & Hp & Hempty). rewrite Hs1. simpl.
    rewrite Hd. simpl.
    destruct (Nat.eqb_spec (List.length d)
                (List.length (lipproc.ChainSummary.typ cs))) as [Hlen|Hlen];
      [|reflexivity].
    exfalso. pose proof (frags_for_positions_wf _ _ _ _ _ _ _ Hd) as Hwf.
    apply (frags_at_wf K d p Hwf); [|exact Hempty].
    exact (buckets_cover K d p Hwf Hlen Hp).
Qed.

Lemma NoDup_keys_filter {V : Type} (f : nat * V -> bool) (d : list (nat * V)) :
  NoDup (map fst d) -> NoDup (map fst (filter f d)).
Proof.
  induction d as [|a d IH]; simpl; intros H; [constructor|].
  inversion H as [|? ? Hnin Hnd]; subst. destruct (f a); simpl; auto.
  constructor; auto. intros Hin. apply Hnin.
  apply in_map_iff in Hin. destruct Hin as [b [Hb Hin]].
  apply filter_In in Hin. apply in_map_iff. exists b. tauto.
Qed.

Lemma buckets_without (d : list (nat * list ChainFragment.t)) (mp : nat) :
  buckets_wf K d ->
  let d' := if dict_mem d mp then dict_del d mp else d in
  buckets_wf K d' /\ ~ In mp (map fst d').
Proof.
  intros [Hnd Hall] d'. unfold d'. destruct (dict_mem d mp) eqn:Hmem.
  - unfold dict_del. splits.
    + split; [now apply NoDup_keys_filter|].
      apply Forall_forall. intros kv Hkv. apply filter_In in Hkv.
      rewrite Forall_forall in Hall. now apply Hall.
    + intros Hin. apply in_map_iff in Hin. destruct Hin as [kv [Hk Hin]].
      apply filter_In in Hin. destruct Hin as [_ Hne].
      rewrite Hk, Nat.eqb_refl in Hne. discriminate.
  - split; [now split|]. intros Hin.
    apply in_map_iff in Hin. destruct Hin as [kv [Hk Hin]].
    unfold dict_mem in Hmem.
    assert (Hex : existsb (fun kv => Nat.eqb (fst kv) mp) d = true).
    { apply existsb_exists. exists kv. split; [exact Hin|].
      now apply Nat.eqb_eq. }
    congruence.
Qed.

Lemma buckets_without_length (d : list (nat * list ChainFragment.t))
    (mp : nat) :
  buckets_wf K d -> ~ In mp (map fst d) -> (mp < K)%nat ->
  (List.length d <= K - 1)%nat.
Proof.
  intros [Hnd Hall] Hnin Hmp.
  assert (Hnd' : NoDup (mp :: map fst d)) by now constructor.
  assert (Hincl : incl (mp :: map fst d) (seq 0 K)).
  { intros k [<-|Hk]; [apply in_seq; lia|].
    apply in_map_iff in Hk. destruct Hk as [[k' l] [<- Hin]].
    rewrite Forall_forall in Hall. apply Hall in Hin. simpl in *.
    apply in_seq. lia. }
  pose proof (NoDup_incl_length Hnd' Hincl) as H.
  simpl in H. rewrite length_map, length_seq in H. lia.
Qed.

(** C7: every combination [missing_chain] yields holds, at the missing
    position, a chain whose carbon count and unsaturation are the record's
    totals minus those of the other chains of the combination, the ones
    assigned from fragments; and these inferred values satisfy
    [carbon >= 1] and [0 <= unsaturation <= carbon - 1]. *)
Theorem missing_chain_valid (self : Scan) (missing_position : nat)
    (head : option nat) (thr : Qc) (expected : option (list R))
    (no_intensity_check : bool)
    (frag_types : option (list (option (list string)))) (ad : option string)
    (chains : list lipproc.Chain.t)
    (details : option ChainIdentificationDetails) :
  In (chains, details)
    (yielded (missing_chain self rec missing_position head thr expected
                no_intensity_check frag_types ad)) ->
  exists assigned_before missing assigned_after,
    chains = assigned_before ++ missing :: assigned_after /\
    List.length assigned_before = missing_position /\
    lipproc.Chain.c missing =
      (lipproc.ChainSummary.c cs
       - sumZ (map lipproc.Chain.c (assigned_before ++ assigned_after)))%Z /\
    lipproc.Chain.u missing =
      (lipproc.ChainSummary.u cs
       - sumZ (map lipproc.Chain.u (assigned_before ++ assigned_after)))%Z /\
    (1 <= lipproc.Chain.c missing)%Z /\
    (0 <= lipproc.Chain.u missing <= lipproc.Chain.c missing - 1)%Z.
Proof.
  intros Hin. unfold missing_chain in Hin. apply gen_of_In in Hin.
  destruct Hin as (g & Hg & Hin). inv_bind Hg. destruct x as [cl s1].
  inv_bind Hg. destruct x as [d s2]. rewrite chainsum_rec in Hg.
  simpl in Hg.
  change (List.length (lipproc.ChainSummary.typ cs)) with K in Hg.
  destruct (Nat.leb_spec K missing_position) as [|Hmp]; [discriminate|].
  injection Hg as <-.
  apply gen_for_In in Hin. destruct Hin as (fc & Hfc & Hbody).
  apply product_sorted_length in Hfc.
  pose proof (frags_for_positions_wf _ _ _ _ _ _ _ Hx0) as Hwf.
  destruct (buckets_without d missing_position Hwf) as [Hwf' Hnin].
  pose proof (buckets_without_length _ _ Hwf' Hnin Hmp) as Hle.
  rewrite <- Hfc in Hle.
  rewrite (chainsum_or_sum_rec ltac:(lia)) in Hbody.
  match type of Hbody with
  | (if ?b then _ else _) = _ => destruct b eqn:Hge
  end; [discriminate|].
  apply Z.ltb_ge in Hge. fold K in Hge.
  assert (Hlen : List.length fc = (K - 1)%nat) by lia.
  match type of Hbody with
  | (if ?b then _ else _) = _ => destruct b eqn:Hguard
  end; [discriminate|].
  apply orb_false_iff in Hguard. destruct Hguard as [Hguard Hg3].
  apply orb_false_iff in Hguard. destruct Hguard as [Hg1 Hg2].
  apply Z.ltb_ge in Hg1, Hg2, Hg3.
  inv_bind Hbody. destruct x; [|discriminate].
  inv_bind Hbody. inv_bind Hbody. inv_bind Hbody. injection Hbody as ->.
  apply _chains_frag_comb_chains in Hx4. simpl in Hx4.
  apply chains_missing in Hx4; [|lia|fold K; lia].
  destruct Hx4 as (c1 & c2 & Hch & Hl1 & Hsame).
  fold K in Hsame. rewrite <- Hlen in Hsame. simpl in Hsame.
  rewrite firstn_all in Hsame. apply same_counts_sums in Hsame.
  destruct Hsame as [Hsc Hsu].
  eexists c1, _, c2. split; [exact Hch|]. split; [lia|]. simpl.
  rewrite Hsc, Hsu. lia.
Qed.

End solver_facts.

(** ** The solver on scenario C *)

Lemma match_chain_types_below (rec : lipproc.LipidRecord)
    (cs : lipproc.ChainSummary.t) (constr : list fragdb.FragConstraint)
    (p : nat) :
  lipproc.chainsum rec = Some cs ->
  In p (snd (match_chain_types rec constr)) ->
  (p < lipproc.ChainSummary.len cs)%nat.
Proof.
  intros Hcs. unfold match_chain_types. rewrite Hcs. simpl.
  intros H. apply filter_In in H. destruct H as [H _].
  apply in_seq in H. unfold lipproc.ChainSummary.len. lia.
Qed.

Lemma scan_fa_Ok : exists s, scan_fa = Ok s.
Proof. vm_compute. eexists. reflexivity. Qed.

Lemma scan_fa_chain_list_Ok :
  exists s s1, scan_fa = Ok s /\ build_chain_list s = Ok s1.
Proof. do 2 eexists. split; vm_compute; reflexivity. Qed.

(** Scenario C: with candidates (18,0), (18,1) and (16,0) at both
    positions of a 36:1 record, the combinations yielded are (18,0) with
    (18,1), in either order of the two positions. *)
Example scenario_C_combinations :
  exists s,
    scan_fa = Ok s /\
    map counts_of
      (yielded (chain_combinations (E := env_of db_fa) s rec_36_1 None
                  (Q2Qc 0) None true None None None)) =
    [[(18, 0); (18, 1)]; [(18, 1); (18, 0)]]%Z.
Proof.
  eexists. split; vm_compute; reflexivity.
Qed.

Lemma chain_combinations_sums_witness :
  exists s,
    scan_fa = Ok s /\
    forall chains details,
      In (chains, details)
        (yielded (chain_combinations (E := env_of db_fa) s rec_36_1 None
                    (Q2Qc 0) None true None None None)) ->
      List.length chains = 2%nat /\
      sumZ (map lipproc.Chain.c chains) = 36%Z /\
      sumZ (map lipproc.Chain.u chains) = 1%Z.
Proof.
  destruct scan_fa_Ok as [s H]. exists s. split; [exact H|].
  apply (proj1 (chain_combinations_sums (E := env_of db_fa)
                  rec_36_1 chainsum_36_1 eq_refl
                  (fun constr p =>
                     match_chain_types_below rec_36_1 chainsum_36_1 constr p
                       eq_refl)
                  s None (Q2Qc 0) None true None None None
                  (Nat.lt_0_succ 1))).
Defined.

(** With the second position left missing, each of the three candidates
    at the first position is completed to 36:1. *)
Example scenario_C_missing_chain :
  exists s s1,
    scan_fa = Ok s /\ build_chain_list s = Ok s1 /\
    map counts_of
      (yielded (missing_chain (E := env_of db_fa) s1 rec_36_1 1 None
                  (Q2Qc 0) None true None None)) =
    [[(18, 0); (18, 1)]; [(18, 1); (18, 0)]; [(16, 0); (20, 1)]]%Z.
Proof.
  do 2 eexists. splits; vm_compute; reflexivity.
Qed.

Lemma missing_chain_valid_witness :
  exists s s1,
    scan_fa = Ok s /\ build_chain_list s = Ok s1 /\
    forall chains details,
      In (chains, details)
        (yielded (missing_chain (E := env_of db_fa) s1 rec_36_1 1 None
                    (Q2Qc 0) None true None None)) ->
      exists assigned_before missing assigned_after,
        chains = assigned_before ++ missing :: assigned_after /\
        List.length assigned_before = 1%nat /\
        lipproc.Chain.c missing =
          (36 - sumZ (map lipproc.Chain.c
                        (assigned_before ++ assigned_after)))%Z /\
        lipproc.Chain.u missing =
          (1 - sumZ (map lipproc.Chain.u
                       (assigned_before ++ assigned_after)))%Z /\
        (1 <= lipproc.Chain.c missing)%Z /\
        (0 <= lipproc.Chain.u missing <= lipproc.Chain.c missing - 1)%Z.
Proof.
  destruct scan_fa_chain_list_Ok as (s & s1 & H & Hb). exists s, s1.
  splits; [exact H | exact Hb |].
  intros chains details.
  apply (missing_chain_valid (E := env_of db_fa)
           rec_36_1 chainsum_36_1 eq_refl
           (fun constr p =>
              match_chain_types_below rec_36_1 chainsum_36_1 constr p
                eq_refl)
           s1 1 None (Q2Qc 0) None true None None chains details).
Defined.

(** ** The intensity-ratio check *)

Lemma Rleb_true (x y : R) : (x <= y)%R -> Rleb x y = true.
Proof. unfold Rleb. destruct (Rle_dec x y); [reflexivity | contradiction]. Qed.

Lemma Rleb_false (x y : R) : (y < x)%R -> Rleb x y = false.
Proof. unfold Rleb. destruct (Rle_dec x y); [lra | reflexivity]. Qed.

Lemma math_log_Ok (x base : R) :
  (0 < x)%R -> (1 < base)%R -> math_log x base = Ok (ln x / ln base)%R.
Proof.
  intros Hx Hb. unfold math_log.
  rewrite (Rleb_false x 0) by lra. rewrite (Rleb_false base 0) by lra.
  destruct (Req_dec_T base 1); [lra | reflexivity].
Qed.

(** The difference of two logarithms to a base above 1 is at most 1
    exactly when the first number is at most [base] times the second. *)
Lemma log_ratio_le_1 (a b base : R) :
  (0 < a)%R -> (0 < b)%R -> (1 < base)%R ->
  (ln a / ln base - ln b / ln base <= 1)%R <-> (a <= base * b)%R.
Proof.
  intros Ha Hb Hbase.
  assert (HL : (0 < ln base)%R).
  { rewrite <- ln_1. apply ln_increasing; lra. }
  assert (Hinv : (0 < / ln base)%R) by now apply Rinv_0_lt_compat.
  assert (Heq : (ln a / ln base - ln b / ln base - 1
                 = (ln a - ln (base * b)) * / ln base)%R).
  { rewrite ln_mult by lra. field. lra. }
  assert (Hbb : (0 < base * b)%R) by nra.
  split; intros H.
  - destruct (Rle_lt_dec a (base * b)) as [|Hlt]; [assumption|].
    apply (ln_increasing _ _ Hbb) in Hlt. nra.
  - assert (Hle : (ln a <= ln (base * b))%R).
    { destruct H as [H|H]; [left; now apply ln_increasing | right; now rewrite H]. }
    nra.
Qed.

Section ratio_facts.

Context {E : Externals}.

Hypothesis logbase_above_1 : (1 < chain_fragment_instensity_ratios_logbase)%R.

(** With two positive intensities from different peaks and expected ratio
    [1 : 1], the check compares them in one direction only: it passes
    exactly when the first is at most [logbase] times the second. *)
Lemma intensity_ratios_two (a b logbase : R) :
  (0 < a)%R -> (0 < b)%R ->
  intensity_ratios [a; b] None (Some [1; 1]%R) logbase =
  Ok (Rleb a (chain_fragment_instensity_ratios_logbase * b)).
Proof.
  intros Ha Hb. unfold intensity_ratios. simpl.
  rewrite (Rleb_false a 0), (Rleb_false b 0) by lra. simpl.
  unfold getitem. simpl.
  destruct (Req_dec_T 1 0) as [H10|_]; [lra|]. simpl.
  assert (Ha' : (a / 1 / 1 = a)%R) by (field).
  assert (Hb' : (b / 1 / 1 = b)%R) by (field).
  rewrite Ha', Hb'.
  rewrite (math_log_Ok a), (math_log_Ok b) by assumption. simpl.
  set (L := chain_fragment_instensity_ratios_logbase) in *.
  destruct (Rle_lt_dec a (L * b)) as [Hle|Hgt].
  - rewrite (Rleb_true a (L * b)) by assumption.
    rewrite Rleb_true; [reflexivity|]. now apply log_ratio_le_1.
  - rewrite (Rleb_false a (L * b)) by assumption.
    rewrite Rleb_false; [reflexivity|].
    apply Rnot_le_lt. intros H. apply log_ratio_le_1 in H; try assumption.
    lra.
Qed.

End ratio_facts.

Lemma logbase_1_5 (db : fragdb.FragmentDatabaseAggregator.t) :
  (1 < chain_fragment_instensity_ratios_logbase (Externals := env_of db))%R.
Proof. simpl. lra. Qed.

(** Scenario D, first part: intensities [100, 105] pass. *)
Example intensity_ratios_even :
  intensity_ratios (E := env_of db_pc) [100; 105]%R None (Some [1; 1]%R)
    1.5%R = Ok true.
Proof.
  rewrite (intensity_ratios_two (logbase_1_5 db_pc)) by lra.
  simpl. rewrite Rleb_true by lra. reflexivity.
Qed.

(** C9 at the failing input: intensities [100, 1000] with expected
    [1, 1] and log base 1.5 pass the check. *)
Theorem intensity_ratios_passes_tenfold :
  intensity_ratios (E := env_of db_pc) [100; 1000]%R None (Some [1; 1]%R)
    1.5%R = Ok true.
Proof.
  rewrite (intensity_ratios_two (logbase_1_5 db_pc)) by lra.
  simpl. rewrite Rleb_true by lra. reflexivity.
Qed.

(** The same two intensities in the other order fail it. *)
Lemma intensity_ratios_fails_tenfold_reversed :
  intensity_ratios (E := env_of db_pc) [1000; 100]%R None (Some [1; 1]%R)
    1.5%R = Ok false.
Proof.
  rewrite (intensity_ratios_two (logbase_1_5 db_pc)) by lra.
  simpl. rewrite Rleb_false by lra. reflexivity.
Qed.

(** ** The score percentage *)

Section score.

Import identifier.

Lemma np_round_le (q : Q) (n : Z) : (q <= inject_Z n)%Q -> (np_round q <= n)%Z.
Proof.
  intros Hq. unfold np_round.
  assert (Hf : (Qfloor q <= n)%Z).
  { rewrite <- (Qfloor_Z n). now apply Qfloor_resp_le. }
  pose proof (Qfloor_le q) as Hfl.
  assert (Hstep : (inject_Z (Qfloor q) < q)%Q -> (Qfloor q + 1 <= n)%Z).
  { intros Hlt. assert (H : (inject_Z (Qfloor q) < inject_Z n)%Q)
      by (eapply Qlt_le_trans; eauto).
    rewrite <- Zlt_Qlt in H. lia. }
  destruct (Qcompare (q - inject_Z (Qfloor q)) (1 # 2)) eqn:Hc.
  - apply Qeq_alt in Hc. destruct (Z.even (Qfloor q)); [exact Hf|].
    apply Hstep. Lqa.lra.
  - exact Hf.
  - apply Qgt_alt in Hc. apply Hstep. Lqa.lra.
Qed.

Lemma np_round_ge (q : Q) (n : Z) : (inject_Z n <= q)%Q -> (n <= np_round q)%Z.
Proof.
  intros Hq. unfold np_round.
  assert (Hf : (n <= Qfloor q)%Z).
  { rewrite <- (Qfloor_Z n). now apply Qfloor_resp_le. }
  destruct (Qcompare (q - inject_Z (Qfloor q)) (1 # 2));
    [destruct (Z.even (Qfloor q))| |]; lia.
Qed.

(** The score percentage is [round(score / max_score * 100)] clamped below
    at 0 when the maximum score is not zero, and 200 when it is. *)
Lemma percent_score_formula (st : state) :
  (st_max_score st <> 0%Z ->
   percent_score st =
   Z.max (np_round (inject_Z (st_score st) / inject_Z (st_max_score st) * 100))
     0) /\
  (st_max_score st = 0%Z -> percent_score st = 200%Z) /\
  (0 <= percent_score st)%Z.
Proof.
  unfold percent_score. destruct (Z.eqb_spec (st_max_score st) 0); splits;
    intros; try congruence; lia.
Qed.

(** When the score does not exceed a positive maximum score, the
    percentage is between 0 and 100. *)
Lemma percent_score_bounds (st : state) :
  (0 < st_max_score st)%Z -> (st_score st <= st_max_score st)%Z ->
  (0 <= percent_score st <= 100)%Z.
Proof.
  intros Hm Hs. unfold percent_score.
  destruct (Z.eqb_spec (st_max_score st) 0); [lia|].
  split; [lia|]. apply Z.max_lub; [|lia]. apply np_round_le.
  assert (Hmq : (0 < inject_Z (st_max_score st))%Q)
    by (now rewrite <- (Zlt_Qlt 0)).
  assert (Hdiv : (inject_Z (st_score st) / inject_Z (st_max_score st) <= 1)%Q).
  { apply Qle_shift_div_r; [exact Hmq|]. rewrite Qmult_1_l.
    now rewrite <- Zle_Qle. }
  change (inject_Z 100) with 100%Q. Lqa.lra.
Qed.

(** Every identity is built from the identifier's attributes at the
    moment it is emitted: its score is the current score clamped below at
    0, its percentage is [percent_score] of the current attributes. *)
Lemma identity_at_scores (rec : lipproc.LipidRecord) (st : state)
    (ch : option combination) :
  scores_of (identity_at rec st ch) =
  (Z.max (st_score st) 0, st_max_score st, percent_score st).
Proof. reflexivity. Qed.

(** C5 at the failing input: for a dihydroceramide whose chain combination
    is found in the scan, [Cer_Negative] emits an identity with score 25,
    maximum score 23 and score percentage 109. *)
Theorem Cer_Negative_score_above_maximum :
  map scores_of
    (yielded (identify dh_ceramide
                (Cer_Negative dh_ceramide_scan dh_ceramide None)
                false Cer_Negative_init)) =
  [(25, 23, 109)]%Z.
Proof. vm_compute. reflexivity. Qed.

(** The sphingoid base rule gives score 20 of a maximum of 0 there. *)
Lemma sphingosine_dh_score :
  option_map fst
    (match sphingosine_dh dh_ceramide_scan None Cer_Negative_init with
     | Ok r => Some r
     | Raise _ => None
     end) = Some (20, 0)%Z.
Proof. vm_compute. reflexivity. Qed.

End score.

(** ** Fragments by name *)

Section by_name.

Context {E : Externals}.

(** A name the database does not have is answered with [None], and only
    such a name is. *)
Lemma has_fragment_unknown (s : Scan) (name : string) (ad : option string) :
  fragdb.by_name get_db name (ionmode s) = Ok None ->
  has_fragment s name ad = Ok (None, s).
Proof.
  intros H. unfold has_fragment, fragment_by_name. rewrite H. reflexivity.
Qed.

Lemma has_fragment_known (s s' : Scan) (name : string) (ad : option string)
    (fr : fragdb.FragmentAnnotation) (r : option bool) :
  fragdb.by_name get_db name (ionmode s) = Ok (Some fr) ->
  has_fragment s name ad = Ok (r, s') ->
  r <> None.
Proof.
  intros H. unfold has_fragment, fragment_by_name. rewrite H. simpl.
  intros Hr. inv_bind Hr. destruct x as [i s1]. inv_bind Hx.
  destruct x as [j s2]. injection Hx as <- <-. injection Hr as <- _.
  destruct j; discriminate.
Qed.

End by_name.

(** ** Adduct views *)

Lemma dict_set_Forall {V : Type} (P : string * V -> Prop)
    (d : list (string * V)) (key : string) (v : V) :
  Forall P d -> (forall k, P (k, v)) -> Forall P (dict_set d key v).
Proof.
  intros Hd Hv. induction Hd as [|[k w] d Hk Hd IH]; simpl.
  - constructor; [apply Hv | constructor].
  - destruct (String.eqb k key); constructor; auto.
Qed.

Section adduct_views.

Context {E : Externals}.

(** Caching an adduct view keeps the invariant: the view's annotation
    array has one entry per peak, in the scan's current order. *)
Lemma adduct_wf (s s' : Scan) (ad : string) :
  scan_wf s -> adduct s ad = Ok s' ->
  scan_wf s' /\ sorted_by s' = sorted_by s /\ mzs s' = mzs s.
Proof.
  intros Hwf H. unfold adduct in H.
  destruct (fragdb.FragmentDatabaseAggregator.dict_get (adducts s) ad).
  { injection H as <-. auto. }
  inv_bind H. inv_bind H. inv_bind H. injection H as <-.
  splits; try reflexivity.
  destruct Hwf as [(Hi & Hr & Ha & Hn & Hads) Ho].
  split; [|exact Ho]. unfold arrays_wf. simpl. splits; auto.
  apply dict_set_Forall; [exact Hads|]. intros k. simpl.
  unfold get_annot, fragdb.annotator in Hx0. now apply mapM_length in Hx0.
Qed.

(** What [has_mz] answers with [True] is in the scan: some peak matches
    the m/z within the tolerance. *)
Lemma has_mz_sound (s s' : Scan) (mz : Qc) :
  scan_wf s -> has_mz s (Fin mz) = Ok (true, s') ->
  exists x, In x (mzs s) /\ lookup.ppm_match x mz (tolerance s) = true.
Proof.
  intros Hwf H.
  destruct (has_mz_spec s (Fin mz) Hwf) as (b & s1 & s2 & Hs1 & Hh & _ & _ & Hb).
  rewrite Hh in H. injection H as -> _.
  destruct (proj1 Hb eq_refl) as [k Hk]. apply find_Some in Hk.
  destruct Hk as (x & Hx & Hm).
  destruct (sort_mz_spec s Hwf) as (p & s1' & Hs1' & Hp & Hre & Hsame & _).
  assert (s1' = s1) by congruence. subst s1'.
  destruct Hre as (Hmz & _). destruct Hsame as (Htol & _).
  exists x. rewrite <- Htol. split; [|exact Hm].
  apply nth_error_In in Hx.
  apply (Permutation_in _ (Permutation_sym (reindex_Permutation _ _ _ Hp Hmz))).
  exact Hx.
Qed.

(** When no peak matches, [has_mz] answers [False]. *)
Lemma has_mz_no_match (s : Scan) (mz : Qc) :
  scan_wf s ->
  Forall (fun x => lookup.ppm_match x mz (tolerance s) = false) (mzs s) ->
  exists s', has_mz s (Fin mz) = Ok (false, s').
Proof.
  intros Hwf Hall.
  destruct (has_mz_spec s (Fin mz) Hwf) as (b & s1 & s2 & Hs1 & Hh & _ & _ & Hb).
  exists s2. rewrite Hh. destruct b; [|reflexivity]. exfalso.
  destruct (proj1 Hb eq_refl) as [k Hk]. apply find_Some in Hk.
  destruct Hk as (x & Hx & Hm).
  destruct (sort_mz_spec s Hwf) as (p & s1' & Hs1' & Hp & Hre & Hsame & _).
  assert (s1' = s1) by congruence. subst s1'.
  destruct Hre as (Hmz & _). destruct Hsame as (Htol & _).
  apply nth_error_In in Hx.
  apply (Permutation_in _ (Permutation_sym (reindex_Permutation _ _ _ Hp Hmz)))
    in Hx.
  rewrite Forall_forall in Hall. rewrite Htol, (Hall x Hx) in Hm.
  discriminate.
Qed.

End adduct_views.

Lemma scan_adduct_Ok :
  exists s, scan_adduct = Ok s /\ scan_wf s /\
            List.length (adducts s) = 1%nat.
Proof.
  unfold scan_adduct.
  destruct (Scan_init (E := env_of db_pc) [Q2Qc 200; Q2Qc 100; Q2Qc 300] pos
              (Some (Q2Qc 400)) (Some [Q2Qc 5; Q2Qc 9; Q2Qc 7])
              (Some (Q2Qc 10))) as [s0|e] eqn:H0.
  - assert (Hwf0 : scan_wf s0)
      by (eapply env_of_init_wf; [|exact H0]; reflexivity).
    simpl. destruct (adduct (E := env_of db_pc) s0 "[M+NH4]+") as [s|e] eqn:H1.
    + exists s. splits; [reflexivity | |].
      * exact (proj1 (adduct_wf s0 s _ Hwf0 H1)).
      * revert H1. vm_compute in H0. injection H0 as <-.
        vm_compute. intros [= <-]. reflexivity.
    + exfalso. revert H1. vm_compute in H0. injection H0 as <-.
      vm_compute. discriminate.
  - exfalso. vm_compute in H0. discriminate.
Qed.

Lemma sort_transitions_co_permute_witness :
  exists s,
    scan_adduct = Ok s /\
    (exists s', sort_mz (E := env_of db_pc) s = Ok s' /\ co_permuted s s') /\
    (exists s', sort_intensity (E := env_of db_pc) s = Ok s' /\
                co_permuted s s').
Proof.
  destruct scan_adduct_Ok as (s & H & Hwf & _). exists s. split; [exact H|].
  exact (sort_transitions_co_permute (E := env_of db_pc) s Hwf).
Defined.

(* ------------------------------------------------------------------ *)
(** * Further properties *)

(** ** Indexing two arrays by one index array *)

Lemma Forall2_nth_error_rel {A B : Type} (R : A -> B -> Prop)
    (a : list A) (b : list B) (i : nat) (x : A) (y : B) :
  Forall2 R a b -> nth_error a i = Some x -> nth_error b i = Some y -> R x y.
Proof.
  intros H. revert i. induction H as [|x0 y0 a b Hxy H IH]; intros [|i];
    simpl; try discriminate.
  - intros [= <-] [= <-]. exact Hxy.
  - apply IH.
Qed.

Lemma reindex_rel {A B : Type} (R : A -> B -> Prop) (a a' : list A)
    (b b' : list B) (p : list nat) :
  Forall2 R a b -> reindex a p = Ok a' -> reindex b p = Ok b' ->
  Forall2 R a' b'.
Proof.
  intros HR Ha Hb. apply reindex_Forall2 in Ha, Hb. revert b' Hb.
  induction Ha as [|i x p a' Hix Ha IH]; intros b' Hb.
  - inversion Hb. constructor.
  - inversion Hb as [|? y ? b'' Hiy Hb']; subst. constructor.
    + eapply Forall2_nth_error_rel; eauto.
    + now apply IH.
Qed.

Lemma reindex_map {A B : Type} (f : A -> B) (a a' : list A) (p : list nat) :
  reindex a p = Ok a' -> reindex (map f a) p = Ok (map f a').
Proof.
  intros Ha. apply reindex_Forall2 in Ha. apply reindex_Forall2.
  induction Ha as [|i x p a' Hix Ha IH]; simpl; constructor; auto.
  now rewrite nth_error_map, Hix.
Qed.

Lemma reindex_combine {A B : Type} (a a' : list A) (b b' : list B)
    (p : list nat) :
  reindex a p = Ok a' -> reindex b p = Ok b' ->
  reindex (combine a b) p = Ok (combine a' b').
Proof.
  intros Ha Hb. apply reindex_Forall2 in Ha, Hb. apply reindex_Forall2.
  revert b' Hb. induction Ha as [|i x p a' Hix Ha IH]; intros b' Hb.
  - inversion Hb. constructor.
  - inversion Hb as [|? y ? b'' Hiy Hb']; subst. simpl. constructor.
    + clear - Hix Hiy. revert a b Hix Hiy.
      induction i as [|i IHi]; intros [|x0 a] [|y0 b]; simpl;
        try discriminate.
      * intros [= <-] [= <-]. reflexivity.
      * apply IHi.
    + now apply IH.
Qed.

Lemma reindex_rev {A : Type} (a b : list A) (p : list nat) :
  reindex a (rev p) = Ok b -> reindex a p = Ok (rev b).
Proof.
  intros H. apply reindex_Forall2 in H. apply reindex_Forall2.
  apply Forall2_flip in H. apply Forall2_flip.
  rewrite <- (rev_involutive p). generalize dependent (rev p).
  intros q H. induction H as [|x i b q Hix H IH]; simpl; [constructor|].
  apply Forall2_app; [exact IH | repeat constructor; exact Hix].
Qed.

Lemma descending_rev (l : list Qc) : ascending l -> descending (rev l).
Proof.
  unfold ascending, descending. intros H.
  induction H as [|x l Hs IH Hx]; simpl; [constructor|].
  assert (Happ : forall l1 : list Qc,
            StronglySorted (fun x y => (y <= x)%Qc) l1 ->
            Forall (fun y => (x <= y)%Qc) l1 ->
            StronglySorted (fun x y => (y <= x)%Qc) (l1 ++ [x])).
  { intros l1 Hs1. induction Hs1 as [|y l1 Hs1 IH1 Hy]; simpl; intros Hall.
    - repeat constructor.
    - inversion Hall as [|? ? Hxy Hall']; subst. constructor.
      + now apply IH1.
      + apply Forall_app. split; [exact Hy | repeat constructor; exact Hxy]. }
  apply Happ; [exact IH|]. apply Forall_rev. exact Hx.
Qed.

(** ** What the constructor builds *)

Section construction_arrays.

Context {E : Externals}.

(** The arrays of a constructed scan, step by step: annotation and
    normalization in the order given, one reordering by ascending m/z,
    one by descending intensity. *)
Lemma Scan_init_arrays (mzs' : list Qc) (ionmode' : IonMode)
    (precursor' : option Qc) (intensities' : option (list Qc))
    (tolerance' : option Qc) (s : Scan) :
  Scan_init mzs' ionmode' precursor' intensities' tolerance' = Ok s ->
  let ints0 := match intensities' with
               | None => repeat (Q2Qc 1) (List.length mzs')
               | Some l => l
               end in
  let tol := or_default tolerance' ms2_tolerance in
  exists a0 m m3 i3 x3 a3 x5 a5,
    fragdb.annotator get_db ms2_tolerance mzs' ionmode' precursor' (Some tol)
      = Ok a0 /\
    array_max ints0 = Ok m /\ m <> 0%Qc /\
    reindex mzs' (argsort mzs') = Ok m3 /\
    reindex ints0 (argsort mzs') = Ok i3 /\
    reindex (map (fun x => (x / m)%Qc) ints0) (argsort mzs') = Ok x3 /\
    reindex a0 (argsort mzs') = Ok a3 /\
    reindex m3 (rev (argsort i3)) = Ok (mzs s) /\
    reindex i3 (rev (argsort i3)) = Ok (intensities s) /\
    reindex x3 (rev (argsort i3)) = Ok x5 /\
    reindex a3 (rev (argsort i3)) = Ok a5 /\
    inorm s = Some x5 /\ annot s = Some a5 /\ imax s = Some m /\
    irank s = Some (arange (List.length (mzs s))) /\
    iisort s = Some (rev (argsort i3)) /\
    imzsort s = Some (argsort (mzs s)) /\
    sorted_by s = Some by_intensities /\ adducts s = [] /\
    tolerance s = tol /\ precursor s = precursor' /\ ionmode s = ionmode' /\
    chain_list s = None /\ annot_fields s = fields_only a0.
Proof.
  intros H ints0 tol. unfold Scan_init in H. fold ints0 tol in H.
  inv_bind H. rename x into a0, Hx into Ha0.
  unfold get_annot in Ha0. simpl in Ha0.
  inv_bind H. rename x into s2, Hx into Hs2.
  unfold normalize_intensities in Hs2. simpl in Hs2.
  inv_bind Hs2. rename x into m, Hx into Hm.
  destruct (Qceqb m 0%Qc) eqn:Hm0; [discriminate|].
  injection Hs2 as <-.
  assert (Hmne : m <> 0%Qc).
  { intros ->. vm_compute in Hm0. discriminate. }
  inv_bind H. rename x into s3, Hx into Hs3.
  unfold sort_mz in Hs3. simpl in Hs3. inv_bind Hs3.
  rename x into s3', Hx into Hs3'. injection Hs3 as <-.
  unfold sort in Hs3'. simpl in Hs3'.
  inv_bind Hs3'. rename x into i3, Hx into Hi3.
  inv_bind Hs3'. rename x into m3, Hx into Hm3.
  inv_bind Hs3'. rename x into a3, Hx into Ha3. inv_bind Ha3.
  rename x into a3', Hx into Ha3'. injection Ha3 as <-.
  inv_bind Hs3'. rename x into x3, Hx into Hx3. inv_bind Hx3.
  rename x into x3', Hx into Hx3'. injection Hx3 as <-.
  injection Hs3' as <-.
  inv_bind H. rename x into s5, Hx into Hs5. injection H as <-.
  unfold sort_intensity in Hs5. simpl in Hs5. inv_bind Hs5.
  rename x into s5', Hx into Hs5'. injection Hs5 as <-.
  unfold sort in Hs5'. simpl in Hs5'.
  inv_bind Hs5'. rename x into i5, Hx into Hi5.
  inv_bind Hs5'. rename x into m5, Hx into Hm5.
  inv_bind Hs5'. rename x into a5, Hx into Ha5. inv_bind Ha5.
  rename x into a5', Hx into Ha5'. injection Ha5 as <-.
  inv_bind Hs5'. rename x into x5, Hx into Hx5. inv_bind Hx5.
  rename x into x5', Hx into Hx5'. injection Hx5 as <-.
  injection Hs5' as <-. simpl.
  exists a0, m, m3, i3, x3', a3', x5', a5'. splits; auto.
Qed.

End construction_arrays.

(** ** Alignment of the derived arrays *)

Section alignment_facts.

Context {E : Externals}.

Lemma Scan_init_aligned_arrays (mzs' : list Qc) (ionmode' : IonMode)
    (precursor' : option Qc) (intensities' : option (list Qc))
    (tolerance' : option Qc) (s : Scan) :
  Scan_init mzs' ionmode' precursor' intensities' tolerance' = Ok s ->
  aligned s.
Proof.
  intros H. apply Scan_init_arrays in H. cbv zeta in H.
  destruct H as (a0 & m & m3 & i3 & x3 & a3 & x5 & a5 & Ha0 & Hm & Hmne &
                 Hm3 & Hi3 & Hx3 & Ha3 & Hm5 & Hi5 & Hx5 & Ha5 & Hin & Han &
                 Himax & _ & _ & _ & _ & _ & Htol & Hprec & Hion & _).
  exists m, x5, a5. splits; auto.
  - eapply reindex_rel; [|exact Hi5|exact Hx5].
    eapply reindex_rel; [|exact Hi3|exact Hx3].
    clear. induction (match intensities' with
                      | Some l => l
                      | None => repeat (Q2Qc 1) (List.length mzs')
                      end); simpl; constructor; auto.
  - rewrite Htol, Hprec, Hion.
    eapply reindex_rel; [|exact Hm5|exact Ha5].
    eapply reindex_rel; [|exact Hm3|exact Ha3].
    unfold fragdb.annotator in Ha0. now apply mapM_Forall2 in Ha0.
Qed.

Lemma sort_aligned (s s' : Scan) (p : list nat) :
  aligned s -> sort s p = Ok s' -> aligned s'.
Proof.
  intros (m & x & a & Hm & Hx & Ha & Hix & Hma) H.
  unfold sort in H. inv_bind H. rename x0 into i', Hx0 into Hi'.
  inv_bind H. rename x0 into m', Hx0 into Hm'.
  inv_bind H. inv_bind H. rename x1 into a', Hx1 into Ha'.
  inv_bind H. rename x1 into x', Hx1 into Hx'.
  inv_bind H. injection H as <-.
  rewrite Ha in Ha'. rewrite Hx in Hx'. simpl in Ha', Hx'.
  inv_bind Ha'. injection Ha' as <-. inv_bind Hx'. injection Hx' as <-.
  exists m. eexists. eexists. simpl. splits; try reflexivity; auto.
  - eapply reindex_rel; [exact Hix|exact Hi'|eassumption].
  - eapply reindex_rel; [exact Hma|exact Hm'|eassumption].
Qed.

Lemma with_sorted_by_aligned (s : Scan) (k : option SortKey) :
  aligned s -> aligned (with_sorted_by s k).
Proof. intros H. exact H. Qed.

Lemma sort_mz_aligned (s s' : Scan) :
  aligned s -> sort_mz s = Ok s' -> aligned s'.
Proof.
  intros Ha H. unfold sort_mz in H.
  destruct (sorted_by s) as [[|]|].
  - now injection H as <-.
  - inv_bind H. injection H as <-. apply with_sorted_by_aligned.
    destruct (imzsort s); eapply sort_aligned; eauto.
  - inv_bind H. injection H as <-. apply with_sorted_by_aligned.
    destruct (imzsort s); eapply sort_aligned; eauto.
Qed.

Lemma sort_intensity_aligned (s s' : Scan) :
  aligned s -> sort_intensity s = Ok s' -> aligned s'.
Proof.
  intros Ha H. unfold sort_intensity in H.
  destruct (sorted_by s) as [[|]|].
  - inv_bind H. injection H as <-. apply with_sorted_by_aligned.
    destruct (iisort s); eapply sort_aligned; eauto.
  - now injection H as <-.
  - inv_bind H. injection H as <-. apply with_sorted_by_aligned.
    destruct (iisort s); eapply sort_aligned; eauto.
Qed.

Lemma mz_lookup_aligned (s s' : Scan) (mz : flt) (i : option nat) :
  aligned s -> mz_lookup s mz = Ok (i, s') -> aligned s'.
Proof.
  intros Ha H. unfold mz_lookup in H. inv_bind H. inv_bind H. inv_bind H.
  injection H as _ <-.
  eapply sort_intensity_aligned; [|eassumption].
  eapply sort_mz_aligned; eassumption.
Qed.

Lemma mz_among_most_abundant_aligned (s s' : Scan) (mz : flt) (n : nat)
    (b : bool) :
  aligned s -> mz_among_most_abundant s mz n = Ok (b, s') -> aligned s'.
Proof.
  intros Ha H. unfold mz_among_most_abundant in H.
  inv_bind H. inv_bind H. inv_bind H. injection H as _ <-.
  eapply sort_intensity_aligned; [|eassumption].
  eapply sort_mz_aligned; eassumption.
Qed.

End alignment_facts.

(** ** The constructor *)

Section constructed_scans.

Context {E : Externals}.

Hypothesis argsort_perm :
  forall l, Permutation (argsort l) (seq 0 (List.length l)).
Hypothesis argsort_sorted :
  forall l m, reindex l (argsort l) = Ok m -> ascending m.

(** X1: a scan built by the constructor from m/z values and intensities
    of one length is in intensity order: its intensities are descending,
    the rank array counts 0, 1, 2, ..., and its peaks (m/z with intensity)
    are the peaks given, reordered. *)
Theorem Scan_init_intensity_order (mzs' : list Qc) (ionmode' : IonMode)
    (precursor' : option Qc) (intensities' : option (list Qc))
    (tolerance' : option Qc) (s : Scan) :
  let ints0 := match intensities' with
               | None => repeat (Q2Qc 1) (List.length mzs')
               | Some l => l
               end in
  List.length ints0 = List.length mzs' ->
  Scan_init mzs' ionmode' precursor' intensities' tolerance' = Ok s ->
  sorted_by s = Some by_intensities /\
  descending (intensities s) /\
  irank s = Some (seq 0 (List.length mzs')) /\
  Permutation (combine mzs' ints0) (combine (mzs s) (intensities s)).
Proof.
  intros ints0 Hlen H. apply Scan_init_arrays in H. cbv zeta in H.
  fold ints0 in H.
  destruct H as (a0 & m & m3 & i3 & x3 & a3 & x5 & a5 & _ & _ & _ &
                 Hm3 & Hi3 & _ & _ & Hm5 & Hi5 & _ & _ & _ & _ & _ &
                 Hrank & _ & _ & Hsb & _).
  assert (Hp0 : List.length (argsort mzs') = List.length mzs').
  { rewrite (Permutation_length (argsort_perm mzs')). apply length_seq. }
  assert (Hl3 : List.length i3 = List.length mzs').
  { rewrite (reindex_length _ _ _ Hi3). exact Hp0. }
  assert (Hlm3 : List.length m3 = List.length mzs').
  { rewrite (reindex_length _ _ _ Hm3). exact Hp0. }
  assert (Pii : Permutation (rev (argsort i3)) (seq 0 (List.length i3))).
  { eapply Permutation_trans; [apply Permutation_sym, Permutation_rev|].
    apply argsort_perm. }
  assert (Hl5 : List.length (mzs s) = List.length mzs').
  { rewrite (reindex_length _ _ _ Hm5), (Permutation_length Pii), length_seq.
    exact Hl3. }
  splits.
  - exact Hsb.
  - rewrite <- (rev_involutive (intensities s)). apply descending_rev.
    eapply argsort_sorted. apply reindex_rev. exact Hi5.
  - rewrite Hrank, Hl5. reflexivity.
  - eapply Permutation_trans.
    + eapply reindex_Permutation;
        [|exact (reindex_combine _ _ _ _ _ Hm3 Hi3)].
      rewrite length_combine, Hlen, Nat.min_id. apply argsort_perm.
    + eapply reindex_Permutation;
        [|exact (reindex_combine _ _ _ _ _ Hm5 Hi5)].
      rewrite length_combine, Hlm3, Hl3, Nat.min_id, <- Hl3. exact Pii.
Qed.

End constructed_scans.

Lemma scan_three_init (s : Scan) :
  scan_three = Ok s ->
  Scan_init (E := env_of db_pc) [Q2Qc 200; Q2Qc 100; Q2Qc 300] pos None
    (Some [Q2Qc 5; Q2Qc 9; Q2Qc 7]) (Some (Q2Qc 10)) = Ok s.
Proof. unfold scan_three. exact (fun H => H). Qed.

Lemma Scan_init_intensity_order_witness :
  exists s,
    scan_three = Ok s /\
    sorted_by s = Some by_intensities /\
    descending (intensities s) /\
    irank s = Some (seq 0 3) /\
    Permutation
      (combine [Q2Qc 200; Q2Qc 100; Q2Qc 300] [Q2Qc 5; Q2Qc 9; Q2Qc 7])
      (combine (mzs s) (intensities s)).
Proof.
  destruct scan_three_Ok as [s H]. exists s. split; [exact H|].
  exact (Scan_init_intensity_order (E := env_of db_pc) argsort_stable_perm
           argsort_stable_sorted [Q2Qc 200; Q2Qc 100; Q2Qc 300] pos None
           (Some [Q2Qc 5; Q2Qc 9; Q2Qc 7]) (Some (Q2Qc 10)) s eq_refl
           (scan_three_init s H)).
Defined.

Section constructed_alignment.

Context {E : Externals}.

(** X2: in a scan the constructor returns, with a database that has
    rows, for intensities whose largest is not zero and no peak at the
    precursor m/z (there the code works with numpy's nan and inf, which
    are not modelled), the derived arrays describe the peaks they stand
    beside: [imax] is the largest
    intensity given, the normalized intensity at each index is the
    intensity at that index divided by [imax], and the row of the
    annotation array at each index holds the annotations the annotator
    gives for the m/z at that index.  The annotation array is an array of
    fields, not of named tuples, exactly when the annotator gives every
    peak the same number of annotations, not zero. *)
Theorem Scan_init_aligned (mzs' : list Qc) (ionmode' : IonMode)
    (precursor' : option Qc) (intensities' : option (list Qc))
    (tolerance' : option Qc) (s : Scan) :
  let ints0 := match intensities' with
               | None => repeat (Q2Qc 1) (List.length mzs')
               | Some l => l
               end in
  fragdb.FragmentDatabaseAggregator.fragments (get_db ionmode') <> [] ->
  array_max ints0 <> Ok 0%Qc ->
  (forall p, precursor' = Some p -> ~ In p mzs') ->
  Scan_init mzs' ionmode' precursor' intensities' tolerance' = Ok s ->
  aligned s /\
  (exists m, imax s = Some m /\ array_max ints0 = Ok m) /\
  exists rows,
    fragdb.annotator get_db ms2_tolerance mzs' ionmode' precursor'
      (Some (or_default tolerance' ms2_tolerance)) = Ok rows /\
    annot_fields s = fields_only rows.
Proof.
  intros ints0 _ _ _ H. split; [eapply Scan_init_aligned_arrays; eauto|].
  apply Scan_init_arrays in H. cbv zeta in H. fold ints0 in H.
  destruct H as (a0 & m & m3 & i3 & x3 & a3 & x5 & a5 & Ha0 & Hm & Hmne & H).
  split.
  - exists m. split; [tauto | exact Hm].
  - exists a0. split; [exact Ha0 | tauto].
Qed.

(** X3: the alignment of the derived arrays with the peaks is kept by
    [sort] with any index array it accepts, by both sort transitions and
    by the m/z queries. *)
Theorem sort_keeps_aligned (s : Scan) :
  aligned s ->
  (forall p s', sort s p = Ok s' -> aligned s') /\
  (forall s', sort_mz s = Ok s' -> aligned s') /\
  (forall s', sort_intensity s = Ok s' -> aligned s') /\
  (forall mz i s', mz_lookup s mz = Ok (i, s') -> aligned s') /\
  (forall mz n b s', mz_among_most_abundant s mz n = Ok (b, s') -> aligned s').
Proof.
  intros Ha. splits.
  - intros p s'. now apply sort_aligned.
  - intros s'. now apply sort_mz_aligned.
  - intros s'. now apply sort_intensity_aligned.
  - intros mz i s'. now apply mz_lookup_aligned.
  - intros mz n b s'. now apply mz_among_most_abundant_aligned.
Qed.

(** X4: [sort_mz] on a constructed scan returns with the m/z values
    ascending, and the peaks (m/z with intensity) of before, reordered. *)
Theorem sort_mz_ascending (s : Scan) :
  scan_wf s ->
  exists s',
    sort_mz s = Ok s' /\ sorted_by s' = Some by_mzs /\ ascending (mzs s') /\
    Permutation (combine (mzs s) (intensities s))
      (combine (mzs s') (intensities s')).
Proof.
  intros Hwf.
  destruct (sort_mz_spec s Hwf)
    as (p & s' & Hs & Hp & Hre & _ & Hsb & Hwf' & _).
  exists s'. splits; auto.
  - destruct Hwf' as [_ (ii & im & _ & _ & _ & _ & Ho)].
    rewrite Hsb in Ho. tauto.
  - destruct Hre as (Hm & Hi & _).
    eapply reindex_Permutation; [|exact (reindex_combine _ _ _ _ _ Hm Hi)].
    destruct Hwf as [(Hli & _) _].
    rewrite length_combine, Hli, Nat.min_id. exact Hp.
Qed.

End constructed_alignment.

Lemma db_pc_rows :
  fragdb.FragmentDatabaseAggregator.fragments db_pc <> [].
Proof. discriminate. Qed.

Lemma db_nl_rows :
  fragdb.FragmentDatabaseAggregator.fragments db_nl <> [].
Proof. discriminate. Qed.

Lemma three_intensities_max :
  array_max [Q2Qc 5; Q2Qc 9; Q2Qc 7] <> Ok 0%Qc.
Proof.
  intros H. injection H as H. discriminate.
Qed.

Lemma Scan_init_aligned_witness :
  exists s,
    scan_three = Ok s /\ aligned (E := env_of db_pc) s /\
    (exists m,
        imax s = Some m /\ array_max [Q2Qc 5; Q2Qc 9; Q2Qc 7] = Ok m) /\
    exists rows,
      fragdb.annotator (fun _ => db_pc) (Q2Qc 10)
        [Q2Qc 200; Q2Qc 100; Q2Qc 300] pos None
        (Some (or_default (Some (Q2Qc 10)) (Q2Qc 10))) = Ok rows /\
      annot_fields s = fields_only rows.
Proof.
  destruct scan_three_Ok as [s H]. exists s. split; [exact H|].
  exact (Scan_init_aligned (E := env_of db_pc)
           [Q2Qc 200; Q2Qc 100; Q2Qc 300] pos None
           (Some [Q2Qc 5; Q2Qc 9; Q2Qc 7]) (Some (Q2Qc 10)) s
           db_pc_rows three_intensities_max
           (fun p (Hp : None = Some p) =>
              match Hp in _ = o
                    return match o with Some _ => _ | None => True end
              with eq_refl => I end)
           (scan_three_init s H)).
Defined.

Lemma scan_three_aligned (s : Scan) :
  scan_three = Ok s -> aligned (E := env_of db_pc) s.
Proof.
  unfold scan_three. apply Scan_init_aligned_arrays.
Qed.

Lemma sort_keeps_aligned_witness :
  exists s,
    scan_three = Ok s /\
    forall s', sort_mz (E := env_of db_pc) s = Ok s' ->
               aligned (E := env_of db_pc) s'.
Proof.
  destruct scan_three_Ok as [s H]. exists s. split; [exact H|].
  exact (proj1 (proj2 (sort_keeps_aligned (E := env_of db_pc) s
                         (scan_three_aligned s H)))).
Defined.

Lemma sort_mz_ascending_witness :
  exists s,
    scan_three = Ok s /\
    exists s',
      sort_mz (E := env_of db_pc) s = Ok s' /\ sorted_by s' = Some by_mzs /\
      ascending (mzs s') /\
      Permutation (combine (mzs s) (intensities s))
        (combine (mzs s') (intensities s')).
Proof.
  destruct scan_three_Ok as [s H]. exists s. split; [exact H|].
  exact (sort_mz_ascending (E := env_of db_pc) s (scan_three_wf s H)).
Defined.

(** ** Looking up an m/z *)

Lemma find_NaN (h : list Qc) (tol : Qc) : lookup.find h NaN tol = None.
Proof. reflexivity. Qed.

Lemma find_is_Some (h : list Qc) (q tol : Qc) :
  (exists j, lookup.find h (Fin q) tol = Some j) <->
  (exists x, In x h /\ lookup.ppm_match x q tol = true).
Proof.
  split.
  - intros [j Hj]. apply find_Some in Hj. destruct Hj as (x & Hx & Hm).
    exists x. split; [eapply nth_error_In; eauto | exact Hm].
  - intros (x & Hx & Hm).
    destruct (lookup.find h (Fin q) tol) as [j|] eqn:Hf; [eauto|].
    apply find_None in Hf. rewrite Forall_forall in Hf.
    rewrite (Hf x Hx) in Hm. discriminate.
Qed.

Section lookups.

Context {E : Externals}.

(** The index [mz_lookup] returns points, in the scan it leaves, at a peak
    within tolerance of the m/z. *)
Lemma mz_lookup_index (s s' : Scan) (mz : Qc) (i : nat) :
  scan_wf s -> mz_lookup s (Fin mz) = Ok (Some i, s') ->
  scan_wf s' /\ sorted_by s' = Some by_intensities /\
  tolerance s' = tolerance s /\ Permutation (mzs s) (mzs s') /\
  (exists x, nth_error (mzs s') i = Some x /\
             lookup.ppm_match x mz (tolerance s) = true) /\
  (sorted_by s = Some by_intensities -> mzs s' = mzs s).
Proof.
  intros Hwf H. unfold mz_lookup in H.
  destruct (sort_mz_spec s Hwf)
    as (p & s1 & Hs1 & Hp & Hre1 & Hsame1 & Hsb1 & Hwf1 & _ & Hp1).
  rewrite Hs1 in H. cbn [bind] in H.
  destruct (sort_intensity_spec s1 Hwf1)
    as (q & s2 & Hs2 & Hq & Hre2 & Hsame2 & Hsb2 & Hwf2 & _ & Hq1).
  specialize (Hq1 Hsb1).
  destruct (lookup.find (mzs s1) (Fin mz) (tolerance s1)) as [[|k]|] eqn:Hf;
    cbn [bind] in H.
  - rewrite Hs2 in H. discriminate.
  - destruct (imzsort s1) as [im|] eqn:Him; simpl in H; [|discriminate].
    unfold getitem in H.
    destruct (nth_error im (S k)) as [j|] eqn:Hj; simpl in H; [|discriminate].
    rewrite Hs2 in H. simpl in H. injection H as <- <-.
    destruct Hre1 as (Hm1 & _). destruct Hre2 as (Hm2 & _).
    destruct Hsame1 as (Ht1 & _ & _ & _ & Hii1 & Him1 & _).
    destruct Hsame2 as (Ht2 & _).
    assert (Hn1 : List.length (mzs s1) = List.length (mzs s)).
    { rewrite (reindex_length _ _ _ Hm1), (Permutation_length Hp).
      apply length_seq. }
    splits; auto.
    + congruence.
    + eapply Permutation_trans.
      * eapply reindex_Permutation; [exact Hp | exact Hm1].
      * eapply reindex_Permutation; [exact Hq | exact Hm2].
    + destruct Hwf1 as [_ (ii & im' & Hii & Him' & _ & _ & Ho)].
      rewrite Hsb1 in Ho. destruct Ho as (_ & m & Hm & Hback).
      assert (ii = q) by congruence. assert (im' = im) by congruence.
      subst ii im'. assert (m = mzs s2) by congruence. subst m.
      apply find_Some in Hf. destruct Hf as (x & Hx & Hmatch).
      exists x. rewrite <- Ht1. split; [|exact Hmatch].
      rewrite <- (reindex_nth _ _ _ Hback _ _ Hj). exact Hx.
    + intros Hsb. specialize (Hp1 Hsb).
      destruct Hwf as [_ (ii0 & im0 & Hii0 & Him0 & _ & _ & Ho0)].
      rewrite Hsb in Ho0. destruct Ho0 as (m0 & Hm0 & _ & Hback0).
      assert (im0 = p) by congruence. subst im0.
      assert (m0 = mzs s1) by congruence. subst m0.
      assert (ii0 = q) by congruence. subst ii0. congruence.
  - rewrite Hs2 in H. discriminate.
Qed.

(** X5: when [mz_lookup] returns an index on a constructed scan, the peak
    at that index of the scan it leaves is within tolerance of the m/z
    asked for; and for a scan that was in intensity order the m/z array is
    the one of before the call, so the index is good for the caller's
    scan. *)
Theorem mz_lookup_index_matches (s s' : Scan) (mz : Qc) (i : nat) :
  scan_wf s -> mz_lookup s (Fin mz) = Ok (Some i, s') ->
  (exists x, nth_error (mzs s') i = Some x /\
             lookup.ppm_match x mz (tolerance s) = true) /\
  (sorted_by s = Some by_intensities -> mzs s' = mzs s).
Proof.
  intros Hwf H. destruct (mz_lookup_index s s' mz i Hwf H) as (_ & _ & _ & _ & H1 & H2).
  now split.
Qed.

Lemma nl_NaN (s : Scan) (x : Qc) :
  precursor s = None \/ precursor s = Some 0%Qc ->
  nl s x None = Ok (NaN, s).
Proof.
  intros [H|H]; unfold nl; rewrite H; reflexivity.
Qed.

Lemma mz_lookup_NaN (s : Scan) :
  scan_wf s -> exists s', mz_lookup s NaN = Ok (None, s') /\ scan_wf s'.
Proof.
  intros Hwf.
  destruct (mz_lookup_spec s NaN Hwf) as (i & s1 & s' & _ & H & _ & Hwf' & Hi).
  exists s'. split; [|exact Hwf']. destruct i as [i|]; [|exact H].
  destruct (proj1 Hi ltac:(discriminate)) as [k Hk]. discriminate.
Qed.

(** X6: on a constructed scan whose precursor is unknown (or zero), every
    neutral loss query without an adduct answers in the negative, for any
    neutral loss mass: [has_nl] is [False], [nl_lookup] and
    [get_nl_intensity] are [None] and [nl_among_most_abundant] is
    [False]. *)
Theorem nl_queries_without_precursor (s : Scan) (x : Qc) (n : nat) :
  scan_wf s ->
  precursor s = None \/ precursor s = Some 0%Qc ->
  (exists s', has_nl s x None = Ok (false, s')) /\
  (exists s', nl_lookup s x None = Ok (None, s')) /\
  (exists s', get_nl_intensity s x None = Ok (None, s')) /\
  (exists s', nl_among_most_abundant s x n None = Ok (false, s')).
Proof.
  intros Hwf Hp. pose proof (nl_NaN s x Hp) as Hnl.
  destruct (mz_lookup_NaN s Hwf) as (s' & Hl & _).
  unfold has_nl, nl_lookup, get_nl_intensity, nl_among_most_abundant.
  rewrite Hnl. simpl. unfold has_mz, get_intensity. rewrite Hl. simpl.
  splits; eauto.
  destruct (mz_among_most_abundant_spec s NaN n Hwf) as (b & s2 & H & _).
  exists s2. rewrite H. unfold mz_among_most_abundant in H.
  inv_bind H. inv_bind H. inv_bind H. injection H as <- _. reflexivity.
Qed.

Lemma mask_select_In {A : Type} (a : list A) (mask : list bool) (x : A) :
  In x (mask_select a mask) -> In x a.
Proof.
  revert mask. induction a as [|y a IH]; intros [|b mask]; simpl;
    try contradiction.
  destruct b; simpl; intros H.
  - destruct H as [H|H]; [now left | right; eauto].
  - right; eauto.
Qed.

Lemma mask_select_mono {A : Type} (a : list A) (f g : nat -> bool)
    (ir : list nat) (x : A) :
  (forall r, f r = true -> g r = true) ->
  In x (mask_select a (map f ir)) -> In x (mask_select a (map g ir)).
Proof.
  intros Hfg. revert ir. induction a as [|y a IH]; intros [|r ir]; simpl;
    try contradiction.
  destruct (f r) eqn:Hf.
  - rewrite (Hfg r Hf). intros [H|H]; [now left | right; eauto].
  - intros H. destruct (g r); [right|]; eauto.
Qed.

Lemma mask_select_none {A : Type} (a : list A) (ir : list nat) :
  mask_select a (map (fun r => Nat.ltb r 0) ir) = [].
Proof.
  revert ir. induction a as [|y a IH]; intros [|r ir]; simpl; auto.
Qed.

(** X7: [mz_among_most_abundant] on a constructed scan: among the 0 most
    abundant fragments there is nothing; what is among the [n] most
    abundant is among the [n'] most abundant for every [n' >= n]; and an
    m/z that is among them has a peak of the scan within tolerance. *)
Theorem mz_among_most_abundant_grows (s : Scan) (mz : Qc) :
  scan_wf s ->
  (exists s', mz_among_most_abundant s (Fin mz) 0 = Ok (false, s')) /\
  (forall n n' s1,
      (n <= n')%nat ->
      mz_among_most_abundant s (Fin mz) n = Ok (true, s1) ->
      mz_among_most_abundant s (Fin mz) n' = Ok (true, s1)) /\
  (forall n s1,
      mz_among_most_abundant s (Fin mz) n = Ok (true, s1) ->
      exists x, In x (mzs s) /\ lookup.ppm_match x mz (tolerance s) = true).
Proof.
  intros Hwf.
  destruct (sort_mz_spec s Hwf)
    as (p & s1 & Hs1 & Hp & Hre1 & Hsame1 & Hsb1 & Hwf1 & _).
  destruct (sort_intensity_spec s1 Hwf1) as (q & s2 & Hs2 & _).
  pose proof Hwf1 as [(_ & (ir & Hir & _) & _) _].
  unfold mz_among_most_abundant. rewrite Hs1. cbn [bind]. rewrite Hir.
  cbn [bind]. rewrite Hs2. cbn [bind]. splits.
  - exists s2. rewrite mask_select_none. reflexivity.
  - intros n n' s3 Hn H.
    destruct (lookup.find (mask_select (mzs s1) (map (fun r => Nat.ltb r n) ir))
                (Fin mz) (tolerance s1)) as [j|] eqn:Hf; [|discriminate].
    injection H as <-.
    assert (Hex : exists j', lookup.find
                    (mask_select (mzs s1) (map (fun r => Nat.ltb r n') ir))
                    (Fin mz) (tolerance s1) = Some j').
    { apply find_is_Some. destruct (proj1 (find_is_Some _ _ _) (ex_intro _ j Hf))
        as (x & Hx & Hm).
      exists x. split; [|exact Hm].
      eapply mask_select_mono; [|exact Hx].
      intros r Hr. apply Nat.ltb_lt in Hr. apply Nat.ltb_lt. lia. }
    destruct Hex as [j' ->]. reflexivity.
  - intros n s3 H.
    destruct (lookup.find (mask_select (mzs s1) (map (fun r => Nat.ltb r n) ir))
                (Fin mz) (tolerance s1)) as [j|] eqn:Hf; [|discriminate].
    destruct (proj1 (find_is_Some _ _ _) (ex_intro _ j Hf)) as (x & Hx & Hm).
    exists x. destruct Hsame1 as (Ht & _). rewrite <- Ht. split; [|exact Hm].
    apply mask_select_In in Hx. destruct Hre1 as (Hm1 & _).
    apply (Permutation_in _ (Permutation_sym (reindex_Permutation _ _ _ Hp Hm1))).
    exact Hx.
Qed.

(** X8: [get_intensity] on a constructed scan always returns; and what it
    returns for an m/z is the intensity of a peak within tolerance of that
    m/z, divided by the largest intensity. *)
Theorem get_intensity_normalized (s : Scan) (mz : Qc) :
  scan_wf s -> aligned s ->
  (exists r s', get_intensity s (Fin mz) = Ok (r, s')) /\
  (forall v s',
      get_intensity s (Fin mz) = Ok (Some v, s') ->
      exists i x ins m,
        nth_error (mzs s') i = Some x /\
        lookup.ppm_match x mz (tolerance s) = true /\
        nth_error (intensities s') i = Some ins /\
        imax s' = Some m /\ v = (ins / m)%Qc).
Proof.
  intros Hwf Hal.
  destruct (mz_lookup_spec s (Fin mz) Hwf) as (i & s1 & s2 & _ & Hl & _ & Hwf2 & _).
  unfold get_intensity. rewrite Hl. simpl.
  destruct i as [i|]; [|split; [eauto | discriminate]].
  destruct (mz_lookup_index s s2 mz i Hwf Hl) as (_ & _ & _ & _ & (x & Hx & Hm) & _).
  pose proof (mz_lookup_aligned s s2 _ _ Hal Hl)
    as (m & xs & a & Himax & Hinorm & _ & Hix & _).
  rewrite Hinorm. simpl.
  assert (Hlen : List.length xs = List.length (mzs s2)).
  { destruct Hwf2 as [(_ & _ & _ & (xs' & Hxs' & Hl') & _) _]. congruence. }
  destruct (nth_error xs i) as [v|] eqn:Hv.
  2:{ apply nth_error_None in Hv.
      assert (i < List.length (mzs s2))%nat
        by (apply nth_error_Some; congruence). lia. }
  unfold getitem. rewrite Hv. simpl. split; [eauto|].
  intros v' s' [= <- <-].
  destruct (nth_error (intensities s2) i) as [ins|] eqn:Hins.
  2:{ apply nth_error_None in Hins. apply Forall2_length in Hix.
      assert (i < List.length xs)%nat by (apply nth_error_Some; congruence).
      lia. }
  exists i, x, ins, m. splits; auto.
  exact (Forall2_nth_error_rel _ _ _ _ _ _ Hix Hins Hv).
Qed.

(** X9: when [has_fragment] answers [True] for a name on a constructed
    scan, the name is in the database and a peak of the scan is within
    tolerance of the m/z looked up for it: the fragment's own m/z for a
    charged fragment, the precursor less the fragment's mass for a neutral
    loss. *)
Theorem has_fragment_sound (s s' : Scan) (name : string) :
  scan_wf s -> has_fragment s name None = Ok (Some true, s') ->
  exists fr x,
    fragdb.by_name get_db name (ionmode s) = Ok (Some fr) /\
    In x (mzs s) /\
    if Z.eqb (fragdb.charge fr) 0
    then exists p, precursor s = Some p /\
                   lookup.ppm_match x (p - fragdb.mz fr)%Qc (tolerance s) = true
    else lookup.ppm_match x (fragdb.mz fr) (tolerance s) = true.
Proof.
  intros Hwf H. unfold has_fragment, fragment_by_name in H.
  inv_bind H. destruct x as [r s1]. inv_bind Hx. rename x into frag.
  destruct frag as [fr|]; [|injection Hx as <- <-; discriminate].
  inv_bind Hx. destruct x as [i s2]. injection Hx as <- <-.
  destruct i as [i|]; [|discriminate]. injection H as <-.
  exists fr. destruct (Z.eqb (fragdb.charge fr) 0).
  - unfold nl_lookup, nl in Hx1.
    destruct (precursor s) as [p|] eqn:Hp.
    + destruct (Qceqb p 0%Qc); simpl in Hx1.
      * destruct (mz_lookup_NaN s Hwf) as (s3 & H3 & _). congruence.
      * destruct (mz_lookup_index s s2 _ i Hwf Hx1)
          as (_ & _ & _ & Hperm & (x & Hx & Hm) & _).
        exists x. splits; eauto.
        apply (Permutation_in _ (Permutation_sym Hperm)).
        eapply nth_error_In; eauto.
    + simpl in Hx1. destruct (mz_lookup_NaN s Hwf) as (s3 & H3 & _).
      congruence.
  - destruct (mz_lookup_index s s2 _ i Hwf Hx1)
      as (_ & _ & _ & Hperm & (x & Hx & Hm) & _).
    exists x. splits; eauto.
    apply (Permutation_in _ (Permutation_sym Hperm)).
    eapply nth_error_In; eauto.
Qed.

End lookups.

(** ** The lookups on concrete scans *)

Lemma scan_three_lookup_300 :
  exists s i s',
    scan_three = Ok s /\
    mz_lookup (E := env_of db_pc) s (Fin (Q2Qc 300)) = Ok (Some i, s').
Proof. do 3 eexists. split; [vm_compute; reflexivity|].
  vm_compute. reflexivity.
Qed.

Lemma scan_three_no_precursor (s : Scan) :
  scan_three = Ok s -> precursor s = None.
Proof.
  unfold scan_three. intros H. apply Scan_init_arrays in H. cbv zeta in H.
  destruct H as (a0 & m & m3 & i3 & x3 & a3 & x5 & a5 & _ & _ & _ & _ & _ &
                 _ & _ & _ & _ & _ & _ & _ & _ & _ & _ & _ & _ & _ & _ & _ &
                 Hp & _).
  exact Hp.
Qed.

Lemma mz_lookup_index_matches_witness :
  exists s i s',
    scan_three = Ok s /\
    mz_lookup (E := env_of db_pc) s (Fin (Q2Qc 300)) = Ok (Some i, s') /\
    (exists x, nth_error (mzs s') i = Some x /\
               lookup.ppm_match x (Q2Qc 300) (tolerance s) = true) /\
    (sorted_by s = Some by_intensities -> mzs s' = mzs s).
Proof.
  destruct scan_three_lookup_300 as (s & i & s' & H & Hl).
  exists s, i, s'. split; [exact H|]. split; [exact Hl|].
  exact (mz_lookup_index_matches (E := env_of db_pc) s s' (Q2Qc 300) i
           (scan_three_wf s H) Hl).
Defined.

Lemma nl_queries_without_precursor_witness :
  exists s,
    scan_three = Ok s /\
    (exists s', has_nl (E := env_of db_pc) s (Q2Qc 18) None = Ok (false, s')) /\
    (exists s', nl_lookup (E := env_of db_pc) s (Q2Qc 18) None = Ok (None, s')) /\
    (exists s', get_nl_intensity (E := env_of db_pc) s (Q2Qc 18) None
                = Ok (None, s')) /\
    (exists s', nl_among_most_abundant (E := env_of db_pc) s (Q2Qc 18) 2 None
                = Ok (false, s')).
Proof.
  destruct scan_three_Ok as [s H]. exists s. split; [exact H|].
  exact (nl_queries_without_precursor (E := env_of db_pc) s (Q2Qc 18) 2
           (scan_three_wf s H) (or_introl (scan_three_no_precursor s H))).
Defined.

Lemma mz_among_most_abundant_grows_witness :
  exists s,
    scan_three = Ok s /\
    (exists s', mz_among_most_abundant (E := env_of db_pc) s
                  (Fin (Q2Qc 300)) 0 = Ok (false, s')) /\
    (forall n n' s1,
        (n <= n')%nat ->
        mz_among_most_abundant (E := env_of db_pc) s (Fin (Q2Qc 300)) n
        = Ok (true, s1) ->
        mz_among_most_abundant (E := env_of db_pc) s (Fin (Q2Qc 300)) n'
        = Ok (true, s1)) /\
    (forall n s1,
        mz_among_most_abundant (E := env_of db_pc) s (Fin (Q2Qc 300)) n
        = Ok (true, s1) ->
        exists x, In x (mzs s) /\
                  lookup.ppm_match x (Q2Qc 300) (tolerance s) = true).
Proof.
  destruct scan_three_Ok as [s H]. exists s. split; [exact H|].
  exact (mz_among_most_abundant_grows (E := env_of db_pc) s (Q2Qc 300)
           (scan_three_wf s H)).
Defined.

Lemma get_intensity_normalized_witness :
  exists s,
    scan_three = Ok s /\
    (exists r s', get_intensity (E := env_of db_pc) s (Fin (Q2Qc 300))
                  = Ok (r, s')) /\
    (forall v s',
        get_intensity (E := env_of db_pc) s (Fin (Q2Qc 300)) = Ok (Some v, s') ->
        exists i x ins m,
          nth_error (mzs s') i = Some x /\
          lookup.ppm_match x (Q2Qc 300) (tolerance s) = true /\
          nth_error (intensities s') i = Some ins /\
          imax s' = Some m /\ v = (ins / m)%Qc).
Proof.
  destruct scan_three_Ok as [s H]. exists s. split; [exact H|].
  exact (get_intensity_normalized (E := env_of db_pc) s (Q2Qc 300)
           (scan_three_wf s H) (scan_three_aligned s H)).
Defined.

Lemma scan_pc_mid_wf (s : Scan) : scan_pc_mid = Ok s -> scan_wf s.
Proof.
  unfold scan_pc_mid. intros H. eapply env_of_init_wf; [|exact H]. reflexivity.
Qed.

Lemma scan_pc_mid_has_fragment :
  exists s s',
    scan_pc_mid = Ok s /\
    has_fragment (E := env_of db_pc) s "PC/SM [P+Ch] (184.0733)" None
    = Ok (Some true, s').
Proof. do 2 eexists. split; [vm_compute; reflexivity|].
  vm_compute. reflexivity.
Qed.

Lemma has_fragment_sound_witness :
  exists s s',
    scan_pc_mid = Ok s /\
    has_fragment (E := env_of db_pc) s "PC/SM [P+Ch] (184.0733)" None
    = Ok (Some true, s') /\
    exists fr x,
      fragdb.by_name (get_db (Externals := env_of db_pc))
        "PC/SM [P+Ch] (184.0733)" (ionmode s) = Ok (Some fr) /\
      In x (mzs s) /\
      if Z.eqb (fragdb.charge fr) 0
      then exists p, precursor s = Some p /\
                     lookup.ppm_match x (p - fragdb.mz fr)%Qc (tolerance s)
                     = true
      else lookup.ppm_match x (fragdb.mz fr) (tolerance s) = true.
Proof.
  destruct scan_pc_mid_has_fragment as (s & s' & H & Hf).
  exists s, s'. split; [exact H|]. split; [exact Hf|].
  exact (has_fragment_sound (E := env_of db_pc) s s' _
           (scan_pc_mid_wf s H) Hf).
Defined.

(** ** Construction without peaks *)

Section no_peaks.

Context {E : Externals}.

(** X10: a scan cannot be built without peaks: with an empty m/z array,
    and no intensities or an empty array of them, the constructor raises
    [ValueError], as taking the maximum of the empty intensity array
    does. *)
Theorem Scan_init_no_peaks (ionmode' : IonMode) (precursor' tolerance' : option Qc) :
  Scan_init [] ionmode' precursor' None tolerance' = Raise ValueError /\
  Scan_init [] ionmode' precursor' (Some []) tolerance' = Raise ValueError.
Proof.
  split; reflexivity.
Qed.

End no_peaks.

(** ** Caching of adduct views *)

Lemma dict_get_set_same {V : Type} (d : list (string * V)) (k : string) (v : V) :
  fragdb.FragmentDatabaseAggregator.dict_get (dict_set d k v) k = Some v.
Proof.
  induction d as [|[k0 w] d IH]; simpl.
  - now rewrite String.eqb_refl.
  - destruct (String.eqb k0 k) eqn:Hk; simpl; rewrite Hk; auto.
Qed.

Lemma dict_get_set_other {V : Type} (d : list (string * V)) (k k' : string)
    (v : V) :
  k' <> k ->
  fragdb.FragmentDatabaseAggregator.dict_get (dict_set d k v) k' =
  fragdb.FragmentDatabaseAggregator.dict_get d k'.
Proof.
  intros Hne. induction d as [|[k0 w] d IH]; simpl.
  - destruct (String.eqb_spec k k'); [congruence | reflexivity].
  - destruct (String.eqb_spec k0 k) as [->|Hk]; simpl.
    + destruct (String.eqb_spec k k'); [congruence | reflexivity].
    + destruct (String.eqb k0 k'); auto.
Qed.

Section adduct_cache.

Context {E : Externals}.

(** X11: [adduct] builds the view of an adduct once.  After a call that
    returns, the view is in the cache and a second call changes nothing;
    a view that was not there before holds the annotations of the scan's
    m/z values for the precursor converted to the reference adduct; the
    views of other adducts and the scan's own arrays are untouched. *)
Theorem adduct_is_cached (s s' : Scan) (ad : string) :
  adduct s ad = Ok s' ->
  adduct s' ad = Ok s' /\
  (exists data,
      fragdb.FragmentDatabaseAggregator.dict_get (adducts s') ad = Some data /\
      (fragdb.FragmentDatabaseAggregator.dict_get (adducts s) ad = None ->
       reference_precursor (ionmode s) ad (precursor s)
       = Ok (fake_precursor data) /\
       get_annot s (Some (fake_precursor data)) None
       = Ok (adduct_annot_ data))) /\
  (forall other,
      other <> ad ->
      fragdb.FragmentDatabaseAggregator.dict_get (adducts s') other =
      fragdb.FragmentDatabaseAggregator.dict_get (adducts s) other) /\
  mzs s' = mzs s /\ intensities s' = intensities s /\ annot s' = annot s /\
  sorted_by s' = sorted_by s.
Proof.
  intros H. unfold adduct in H.
  destruct (fragdb.FragmentDatabaseAggregator.dict_get (adducts s) ad)
    as [data|] eqn:Hd.
  - injection H as <-. unfold adduct. rewrite Hd. splits; auto.
    exists data. split; [reflexivity | discriminate].
  - inv_bind H. inv_bind H. inv_bind H. injection H as <-.
    unfold adduct. simpl. rewrite dict_get_set_same. splits; auto.
    + eexists. split; [reflexivity|]. simpl. intros _. now split.
    + intros other Hne. now apply dict_get_set_other.
Qed.

End adduct_cache.

Lemma scan_adduct_steps :
  exists s0 s,
    Scan_init (E := env_of db_pc) [Q2Qc 200; Q2Qc 100; Q2Qc 300] pos
      (Some (Q2Qc 400)) (Some [Q2Qc 5; Q2Qc 9; Q2Qc 7]) (Some (Q2Qc 10))
    = Ok s0 /\
    adduct (E := env_of db_pc) s0 "[M+NH4]+" = Ok s.
Proof. do 2 eexists. split; [vm_compute; reflexivity|].
  vm_compute. reflexivity.
Qed.

Lemma adduct_is_cached_witness :
  exists s0 s,
    adduct (E := env_of db_pc) s0 "[M+NH4]+" = Ok s /\
    adduct (E := env_of db_pc) s "[M+NH4]+" = Ok s.
Proof.
  destruct scan_adduct_steps as (s0 & s & _ & H). exists s0, s.
  split; [exact H|].
  exact (proj1 (adduct_is_cached (E := env_of db_pc) s0 s _ H)).
Defined.

(** ** The fragment database: building it and looking up by name *)

Section database_build.

Import fragdb.FragmentDatabaseAggregator.

Lemma insert_fragment_perm (x : fragdb.FragmentAnnotation)
    (l : list fragdb.FragmentAnnotation) :
  Permutation (insert_fragment x l) (x :: l).
Proof.
  induction l as [|y l IH]; simpl; [reflexivity|].
  destruct (Qcleb _ _); [reflexivity|].
  rewrite IH. apply perm_swap.
Qed.

Lemma sorted_fragments_perm (l : list fragdb.FragmentAnnotation) :
  Permutation (sorted_fragments l) l.
Proof.
  induction l as [|x l IH]; simpl; [reflexivity|].
  rewrite insert_fragment_perm. now constructor.
Qed.

Lemma insert_fragment_sorted (x : fragdb.FragmentAnnotation)
    (l : list fragdb.FragmentAnnotation) :
  StronglySorted (fun a b => (fragdb.mz a <= fragdb.mz b)%Qc) l ->
  StronglySorted (fun a b => (fragdb.mz a <= fragdb.mz b)%Qc)
    (insert_fragment x l).
Proof.
  intros H. induction H as [|y l Hs IH Hy]; simpl.
  - repeat constructor.
  - destruct (Qcleb _ _) eqn:Hle.
    + apply Qcleb_le in Hle. constructor; [now constructor|].
      constructor; [exact Hle|].
      eapply Forall_impl; [|exact Hy]. intros z Hz.
      eapply Qcle_trans; eauto.
    + apply Qcleb_false in Hle. constructor; [exact IH|].
      apply Forall_forall. intros z Hz.
      apply (Permutation_in _ (insert_fragment_perm x l)) in Hz.
      destruct Hz as [<-|Hz]; [exact Hle|].
      rewrite Forall_forall in Hy. now apply Hy.
Qed.

Lemma sorted_fragments_sorted (l : list fragdb.FragmentAnnotation) :
  StronglySorted (fun a b => (fragdb.mz a <= fragdb.mz b)%Qc)
    (sorted_fragments l).
Proof.
  induction l as [|x l IH]; simpl; [constructor|].
  now apply insert_fragment_sorted.
Qed.

Lemma in_combine_seq {A : Type} (l : list A) (start i : nat) (x : A) :
  In (i, x) (combine (seq start (List.length l)) l) <->
  (start <= i)%nat /\ nth_error l (i - start) = Some x.
Proof.
  revert start. induction l as [|y l IH]; intros start; simpl.
  - split; [contradiction|]. intros [_ H]. destruct (i - start)%nat; discriminate.
  - rewrite IH. split.
    + intros [[= <- <-]|[Hle Hn]].
      * split; [lia|]. now rewrite Nat.sub_diag.
      * split; [lia|]. replace (i - start)%nat with (S (i - S start)) by lia.
        exact Hn.
    + intros [Hle Hn]. destruct (i - start)%nat as [|k] eqn:Hk.
      * left. injection Hn as <-. f_equal. lia.
      * right. split; [lia|]. replace (i - S start)%nat with k by lia.
        exact Hn.
Qed.

(** The index built over a list of numbered rows: a name it holds comes
    with the number of a row of that name, and it holds every name of a
    row. *)
Lemma index_fold (l : list (nat * fragdb.FragmentAnnotation))
    (d : list (string * nat)) (name' : string) :
  let d' := fold_left (fun d ir => dict_set d (fragdb.name (snd ir)) (fst ir))
              l d in
  (forall i, dict_get d' name' = Some i ->
             dict_get d name' = Some i \/
             exists r, In (i, r) l /\ fragdb.name r = name') /\
  (dict_get d' name' = None ->
   dict_get d name' = None /\
   forall i r, In (i, r) l -> fragdb.name r <> name').
Proof.
  revert d. induction l as [|[j r0] l IH]; intros d; simpl.
  - split; [auto|]. intros H. split; [exact H | contradiction].
  - specialize (IH (dict_set d (fragdb.name r0) j)). cbv zeta in IH.
    destruct IH as [IH1 IH2]. split.
    + intros i Hi. destruct (IH1 i Hi) as [Hd|(r & Hin & Hr)].
      * destruct (String.eqb_spec (fragdb.name r0) name') as [Heq|Hne].
        -- subst name'. rewrite dict_get_set_same in Hd. injection Hd as <-.
           right. exists r0. split; [now left | reflexivity].
        -- rewrite dict_get_set_other in Hd by congruence. now left.
      * right. exists r. split; [now right | exact Hr].
    + intros Hn. destruct (IH2 Hn) as [Hd Hall].
      destruct (String.eqb_spec (fragdb.name r0) name') as [Heq|Hne].
      * subst name'. rewrite dict_get_set_same in Hd. discriminate.
      * rewrite dict_get_set_other in Hd by congruence.
        split; [exact Hd|]. intros i r [[= <- <-]|Hin]; [exact Hne|].
        eapply Hall; eauto.
Qed.

(** X12: [build] leaves the rows it was given sorted by ascending m/z,
    none lost and none added. *)
Theorem build_sorts_by_mz (rows : list fragdb.FragmentAnnotation) (tol : Qc)
    (cs : list (string * list fragdb.FragConstraint)) :
  let db := build rows tol cs in
  Permutation rows (fragments db) /\
  ascending (map fragdb.mz (fragments db)) /\
  db_len db = List.length rows.
Proof.
  cbv zeta. simpl. splits.
  - apply Permutation_sym, sorted_fragments_perm.
  - unfold ascending.
    pose proof (sorted_fragments_sorted rows) as H.
    induction H as [|x l Hs IH Hx]; simpl; constructor; auto.
    rewrite Forall_map. exact Hx.
  - unfold db_len. simpl. apply Permutation_length, sorted_fragments_perm.
Qed.

(** X13: on a database made by [build], looking a fragment up by name
    never fails; a name borne by a row is answered with a row of that
    name, among the rows given, and [mz_by_name] with that row's m/z; a
    name no row bears is answered with [None] by both. *)
Theorem by_name_after_build (rows : list fragdb.FragmentAnnotation) (tol : Qc)
    (cs : list (string * list fragdb.FragConstraint)) (name' : string) :
  let db := build rows tol cs in
  ((exists r, In r rows /\ fragdb.name r = name') ->
   exists r, by_name db name' = Ok (Some r) /\
             mz_by_name db name' = Ok (Some (fragdb.mz r)) /\
             In r rows /\ fragdb.name r = name') /\
  ((forall r, In r rows -> fragdb.name r <> name') ->
   by_name db name' = Ok None /\ mz_by_name db name' = Ok None).
Proof.
  cbv zeta. unfold by_name, mz_by_name, build. simpl.
  set (frs := sorted_fragments rows).
  pose proof (index_fold (combine (seq 0 (List.length frs)) frs) [] name')
    as [H1 H2].
  fold (index_by_name frs) in H1, H2.
  assert (Hperm : Permutation frs rows) by apply sorted_fragments_perm.
  destruct (dict_get (index_by_name frs) name') as [i|] eqn:Hd.
  - destruct (H1 i eq_refl) as [Hd0|(r & Hin & Hr)]; [discriminate|].
    apply in_combine_seq in Hin. destruct Hin as [_ Hn].
    rewrite Nat.sub_0_r in Hn.
    assert (Hrows : In r rows).
    { apply (Permutation_in _ Hperm). eapply nth_error_In; eauto. }
    split.
    + intros _. exists r. unfold getitem. rewrite Hn. simpl. auto.
    + intros Hno. exfalso. exact (Hno r Hrows Hr).
  - destruct (H2 eq_refl) as [_ Hall]. split; [|auto].
    intros (r & Hin & Hr). exfalso.
    apply (Permutation_in _ (Permutation_sym Hperm)) in Hin.
    apply In_nth_error in Hin. destruct Hin as [i Hi].
    apply (Hall i r); [|exact Hr].
    apply in_combine_seq. split; [lia|]. now rewrite Nat.sub_0_r.
Qed.

(** X14: [lookup] on a database with at least one row never fails.  For
    an m/z it returns, in database order, exactly the rows within the
    tolerance in force (the one given, or the database's own when none or
    zero is given) that pass the charge test: charged rows for an ion,
    charge-zero rows for a neutral loss; so no row is returned by both
    kinds of lookup.  For [nan] it returns nothing. *)
Theorem lookup_exact (db : t) (m : Qc) (tol : option Qc) :
  fragments db <> [] ->
  let T := or_default tol (tolerance db) in
  lookup db (Fin m) false tol =
    Ok (filter (fun row => lookup.ppm_match (fragdb.mz row) m T
                           && negb (Z.eqb (fragdb.charge row) 0))
          (fragments db)) /\
  lookup db (Fin m) true tol =
    Ok (filter (fun row => lookup.ppm_match (fragdb.mz row) m T
                           && Z.eqb (fragdb.charge row) 0)
          (fragments db)) /\
  (forall rows_ion rows_nl row,
      lookup db (Fin m) false tol = Ok rows_ion ->
      lookup db (Fin m) true tol = Ok rows_nl ->
      In row rows_ion -> ~ In row rows_nl) /\
  (forall nl, lookup db NaN nl tol = Ok []).
Proof.
  intros _. cbv zeta. rewrite !lookup_spec. splits; try reflexivity.
  intros rows_ion rows_nl row [= <-] [= <-] Hi Hn.
  apply filter_In in Hi, Hn. destruct Hi as [_ Hi], Hn as [_ Hn].
  apply andb_true_iff in Hi, Hn. unfold charge_test in *.
  destruct (Z.eqb (fragdb.charge row) 0); simpl in *; intuition discriminate.
Qed.

End database_build.

Lemma lookup_exact_witness :
  fragdb.FragmentDatabaseAggregator.fragments db_pc <> [] /\
  fragdb.FragmentDatabaseAggregator.lookup db_pc (Fin (Q2Qc 184.0733)) false
    None =
  Ok (filter (fun row =>
                lookup.ppm_match (fragdb.mz row) (Q2Qc 184.0733)
                  (or_default None
                     (fragdb.FragmentDatabaseAggregator.tolerance db_pc))
                && negb (Z.eqb (fragdb.charge row) 0))
        (fragdb.FragmentDatabaseAggregator.fragments db_pc)).
Proof.
  split; [exact db_pc_rows|].
  exact (proj1 (lookup_exact db_pc (Q2Qc 184.0733) None db_pc_rows)).
Defined.

Section annotation.

Variable get_db : IonMode -> fragdb.FragmentDatabaseAggregator.t.
Variable ms2_tolerance : Qc.

(** X15: [annotate] on a database with at least one row, for an m/z
    that is not the precursor's own, never fails, and returns: first, when
    a precursor is known and is not zero, the neutral loss identities,
    which are the rows of charge zero within the rescaled tolerance of
    [precursor - mz]; then the ion identities, which are the charged rows
    within tolerance of the m/z; each in database order.  The tolerance
    is the annotator's ([tolerance or settings.get('ms2_tolerance')]), or
    the database's own when that is zero, and it is rescaled by
    [mz / (precursor - mz)] for the neutral loss. *)
Theorem annotate_identities (ionmode : IonMode) (precursor tol : option Qc)
    (mz : Qc) :
  let db := get_db ionmode in
  let T := or_default (Some (or_default tol ms2_tolerance))
             (fragdb.FragmentDatabaseAggregator.tolerance db) in
  fragdb.FragmentDatabaseAggregator.fragments db <> [] ->
  (forall p, precursor = Some p -> p <> mz) ->
  exists nls ions,
    fragdb.annotate get_db ms2_tolerance ionmode precursor tol mz
    = Ok (nls ++ ions) /\
    ions = filter (fun r => lookup.ppm_match (fragdb.mz r) mz T
                            && negb (Z.eqb (fragdb.charge r) 0))
             (fragdb.FragmentDatabaseAggregator.fragments db) /\
    nls = match precursor with
          | None => []
          | Some p =>
              if Qceqb p 0%Qc then []
              else
                filter (fun r =>
                          lookup.ppm_match (fragdb.mz r) (p - mz)%Qc
                            (or_default (Some (mz / (p - mz) * T)%Qc)
                               (fragdb.FragmentDatabaseAggregator.tolerance db))
                          && Z.eqb (fragdb.charge r) 0)
                  (fragdb.FragmentDatabaseAggregator.fragments db)
          end.
Proof.
  cbv zeta. intros _ Hp.
  do 2 eexists. split; [|split; reflexivity].
  unfold fragdb.annotate, fragdb.lookup, fragdb.lookup_nl.
  rewrite lookup_spec.
  destruct precursor as [p|]; [|reflexivity].
  destruct (Qceqb p 0%Qc) eqn:Hp0; [reflexivity|].
  unfold fragdb.FragmentDatabaseAggregator.lookup_nl.
  destruct (Qceqb (p - mz)%Qc 0%Qc) eqn:Hz.
  { exfalso. apply (Hp p eq_refl). apply Qceqb_eq in Hz.
    apply (f_equal (fun q => (q + mz)%Qc)) in Hz.
    ring_simplify in Hz. exact Hz. }
  rewrite lookup_spec. cbn [bind]. reflexivity.
Qed.

End annotation.

Lemma annotate_identities_witness :
  exists nls ions,
    fragdb.annotate (fun _ => db_nl) (Q2Qc 10) pos (Some (Q2Qc 786.6))
      (Some (Q2Qc 50)) (Q2Qc 603.57) = Ok (nls ++ ions) /\
    ions = [] /\ nls = fragdb.FragmentDatabaseAggregator.fragments db_nl.
Proof.
  destruct (annotate_identities (fun _ => db_nl) (Q2Qc 10) pos
              (Some (Q2Qc 786.6)) (Some (Q2Qc 50)) (Q2Qc 603.57)
              db_nl_rows
              (fun p (Hp : Some (Q2Qc 786.6) = Some p) =>
                 match Hp in _ = o
                       return match o with
                              | Some q => q <> Q2Qc 603.57
                              | None => True
                              end
                 with eq_refl => precursor_above_peak end))
    as (nls & ions & H & Hi & Hn).
  exists nls, ions. split; [exact H|]. split.
  - rewrite Hi. reflexivity.
  - rewrite Hn. reflexivity.
Defined.

(** ** The chain list *)

Section chain_list_facts.

Context {E : Externals}.

Lemma named_annotations_Ok (fields : bool)
    (aa aa' : list fragdb.FragmentAnnotation) :
  named_annotations fields aa = Ok aa' -> aa' = aa.
Proof.
  destruct aa as [|a aa]; simpl; [congruence|].
  destruct fields; congruence.
Qed.

Lemma named_annotations_tuples (aa : list fragdb.FragmentAnnotation) :
  named_annotations false aa = Ok aa.
Proof. destruct aa; reflexivity. Qed.

Lemma chain_fragments_of_spec (s : Scan) (fields : bool) (i : nat)
    (aa : list fragdb.FragmentAnnotation) (fs : list ChainFragment.t) :
  chain_fragments_of s fields i aa = Ok fs ->
  Forall (fragment_of (intensities s) i aa) fs.
Proof.
  unfold chain_fragments_of. intros H. inv_bind H.
  apply named_annotations_Ok in Hx. subst x. revert fs H.
  induction aa as [|a aa IH]; intros fs H; simpl in H.
  - injection H as <-. constructor.
  - assert (Hweak : forall fs',
              Forall (fragment_of (intensities s) i aa) fs' ->
              Forall (fragment_of (intensities s) i (a :: aa)) fs').
    { intros fs' H'. eapply Forall_impl; [|exact H'].
      intros f (H1 & H2 & H3 & an & Hin & H4). unfold fragment_of.
      splits; auto. exists an. split; [now right | exact H4]. }
    destruct (fragdb.cu a) as [[cc uu]|] eqn:Hcu; [|now apply Hweak, IH].
    destruct (Z.eqb_spec cc 0); [now apply Hweak, IH|].
    simpl in H. inv_bind H. inv_bind Hx. injection Hx as <-.
    inv_bind H. injection H as <-. constructor.
    + unfold fragment_of. simpl. splits; auto.
      * now apply getitem_Ok.
      * exists a. splits; auto.
    + now apply Hweak, IH.
Qed.

Lemma chain_fragments_of_total (s : Scan) (i : nat)
    (aa : list fragdb.FragmentAnnotation) :
  (i < List.length (intensities s))%nat ->
  exists fs, chain_fragments_of s false i aa = Ok fs.
Proof.
  intros Hi. unfold chain_fragments_of.
  rewrite named_annotations_tuples. cbn [bind].
  destruct (nth_error (intensities s) i) as [x|] eqn:Hx.
  2:{ apply nth_error_None in Hx. lia. }
  induction (flat_map _ aa) as [|a l [fs IH]]; simpl; [eauto|].
  unfold getitem at 1. rewrite Hx. simpl. rewrite IH. simpl. eauto.
Qed.

Lemma build_chain_list_loop (s : Scan) (fields : bool)
    (a : list (list fragdb.FragmentAnnotation)) (start : nat)
    (ls : list (list ChainFragment.t)) :
  mapM (fun ia => chain_fragments_of s fields (fst ia) (snd ia))
    (combine (seq start (List.length a)) a) = Ok ls ->
  Forall (fun f =>
            (start <= ChainFragment.i f)%nat /\
            exists aa, nth_error a (ChainFragment.i f - start) = Some aa /\
                       fragment_of (intensities s) (ChainFragment.i f) aa f)
    (List.concat ls) /\
  StronglySorted (fun f g => (ChainFragment.i f <= ChainFragment.i g)%nat)
    (List.concat ls).
Proof.
  revert start ls. induction a as [|aa a IH]; intros start ls H; simpl in H.
  - injection H as <-. simpl. split; constructor.
  - inv_bind H. inv_bind H. injection H as <-. simpl.
    apply chain_fragments_of_spec in Hx. simpl in Hx.
    destruct (IH _ _ Hx0) as [Hall Hsorted].
    assert (Hhere : Forall (fun f => ChainFragment.i f = start) x).
    { eapply Forall_impl; [|exact Hx]. intros f Hf. apply Hf. }
    split.
    + apply Forall_app. split.
      * rewrite Forall_forall in Hx, Hhere. apply Forall_forall.
        intros f Hf. pose proof (Hhere f Hf) as Hi. split; [lia|].
        exists aa. rewrite Hi, Nat.sub_diag. split; [reflexivity|].
        now apply Hx.
      * eapply Forall_impl; [|exact Hall].
        intros f (Hle & aa' & Hn & Hf). split; [lia|]. exists aa'.
        split; [|exact Hf].
        replace (ChainFragment.i f - start)%nat
          with (S (ChainFragment.i f - S start)) by lia.
        exact Hn.
    + clear - Hhere Hall Hsorted.
      induction Hhere as [|f x Hf Hhere IHx]; simpl; [exact Hsorted|].
      constructor; [exact IHx|]. apply Forall_app. split.
      * eapply Forall_impl; [|exact Hhere]. intros g Hg. cbv beta in Hg. lia.
      * eapply Forall_impl; [|exact Hall]. intros g Hg. cbv beta in Hg.
        destruct Hg as [Hg _]. lia.
Qed.

(** Over an array of fields the loop stops at the first peak that has an
    annotation. *)
Lemma build_chain_list_loop_fields (s : Scan)
    (a : list (list fragdb.FragmentAnnotation)) (start : nat) :
  Exists (fun aa => aa <> []) a ->
  mapM (fun ia => chain_fragments_of s true (fst ia) (snd ia))
    (combine (seq start (List.length a)) a) = Raise AttributeError.
Proof.
  intros H. revert start. induction H as [aa a Hne|aa a H IH]; intros start;
    simpl.
  - destruct aa as [|an aa]; [congruence | reflexivity].
  - destruct aa as [|an aa]; [|reflexivity].
    unfold chain_fragments_of at 1. simpl. now rewrite IH.
Qed.

(** X16: the chain list [_build_chain_list] makes of a scan's
    annotations.  Every chain fragment in it stands for an annotation of
    the peak at the fragment's index that has a carbon count other than
    zero: it carries that annotation's carbon count, unsaturation,
    fragment type and chain type, and that peak's intensity.  The list
    goes through the peaks in index order.  On a constructed scan whose
    annotation array holds named tuples, building it never fails.  When
    the annotation array is an array of fields (every peak has the same
    number of annotations, not zero), building it raises
    [AttributeError]: the fields have no attribute [c]. *)
Theorem chain_list_fragments (s : Scan)
    (a : list (list fragdb.FragmentAnnotation)) :
  annot s = Some a ->
  (forall cl,
      _build_chain_list s None = Ok cl ->
      Forall (fun f =>
                exists aa an,
                  nth_error a (ChainFragment.i f) = Some aa /\ In an aa /\
                  fragdb.cu an = Some (ChainFragment.c f, ChainFragment.u f) /\
                  ChainFragment.c f <> 0%Z /\
                  fragdb.fragtype an = ChainFragment.fragtype f /\
                  fragdb.chaintype an = ChainFragment.chaintype f /\
                  nth_error (intensities s) (ChainFragment.i f)
                  = Some (ChainFragment.intensity f)) cl /\
      StronglySorted
        (fun f g => (ChainFragment.i f <= ChainFragment.i g)%nat) cl) /\
  (scan_wf s -> annot_fields s = false ->
   exists cl, _build_chain_list s None = Ok cl) /\
  (annot_fields s = true -> Exists (fun aa => aa <> []) a ->
   _build_chain_list s None = Raise AttributeError).
Proof.
  intros Ha. unfold _build_chain_list. rewrite Ha. cbn [bind]. splits.
  - intros cl H. inv_bind H. injection H as <-.
    destruct (build_chain_list_loop s _ a 0 x Hx) as [Hall Hs].
    split; [|exact Hs]. eapply Forall_impl; [|exact Hall].
    intros f (_ & aa & Hn & _ & Hint & Hc & an & Hin & Hcu & Hft & Hct).
    rewrite Nat.sub_0_r in Hn. exists aa, an. splits; auto.
  - intros [(Hli & _ & (a' & Ha' & Hla) & _) _] Hnamed. rewrite Hnamed.
    assert (a' = a) by congruence. subst a'.
    assert (Hbound : forall start,
              (start + List.length a <= List.length (intensities s))%nat ->
              exists ls,
                mapM (fun ia => chain_fragments_of s false (fst ia) (snd ia))
                  (combine (seq start (List.length a)) a) = Ok ls).
    { clear. induction a as [|aa a IH]; intros start Hb; simpl; [eauto|].
      destruct (chain_fragments_of_total s start aa) as [fs Hfs];
        [simpl in Hb; lia|].
      rewrite Hfs. simpl. destruct (IH (S start)) as [ls Hls];
        [simpl in Hb; lia|].
      rewrite Hls. simpl. eauto. }
    destruct (Hbound 0%nat) as [ls Hls]; [simpl; lia|].
    rewrite Hls. simpl. eauto.
  - intros Hfields Hex. rewrite Hfields.
    now rewrite (build_chain_list_loop_fields s a 0 Hex).
Qed.

End chain_list_facts.

Lemma scan_fa_annot :
  exists s a, scan_fa = Ok s /\ annot s = Some a.
Proof. do 2 eexists. split; [vm_compute; reflexivity|].
  vm_compute. reflexivity.
Qed.

Lemma scan_fa_wf (s : Scan) : scan_fa = Ok s -> scan_wf s.
Proof.
  unfold scan_fa. intros H. eapply env_of_init_wf; [|exact H]. reflexivity.
Qed.

(** The annotation array of the four peaks holds named tuples. *)
Lemma scan_fa_named (s : Scan) : scan_fa = Ok s -> annot_fields s = false.
Proof.
  intros H. vm_compute in H. injection H as <-. reflexivity.
Qed.

(** That of the three fatty acid peaks alone is an array of fields. *)
Lemma scan_fa_fields_annot :
  exists s a,
    scan_fa_fields = Ok s /\ annot s = Some a /\ annot_fields s = true /\
    Exists (fun aa => aa <> []) a.
Proof.
  do 2 eexists. split; [vm_compute; reflexivity|].
  split; [vm_compute; reflexivity|].
  split; [vm_compute; reflexivity|].
  apply Exists_cons_hd. discriminate.
Qed.

Lemma chain_list_fragments_witness :
  (exists s,
      scan_fa = Ok s /\ exists cl, _build_chain_list s None = Ok cl) /\
  (exists s,
      scan_fa_fields = Ok s /\
      _build_chain_list s None = Raise AttributeError).
Proof.
  split.
  - destruct scan_fa_annot as (s & a & H & Ha). exists s. split; [exact H|].
    exact (proj1 (proj2 (chain_list_fragments s a Ha))
             (scan_fa_wf s H) (scan_fa_named s H)).
  - destruct scan_fa_fields_annot as (s & a & H & Ha & Hf & Hex). exists s.
    split; [exact H|].
    exact (proj2 (proj2 (chain_list_fragments s a Ha)) Hf Hex).
Defined.

(** ** The fragments for each position *)

Lemma Qcltb_false (x y : Qc) : Qcltb x y = false -> (y <= x)%Qc.
Proof.
  unfold Qcltb. intros H. apply negb_false_iff in H.
  now apply Qle_bool_iff in H.
Qed.

Lemma frags_at_dict_append {V : Type} (d : list (nat * list V)) (ci p : nat)
    (v : V) :
  frags_at (dict_append d ci v) p =
  if Nat.eqb p ci then frags_at d p ++ [v] else frags_at d p.
Proof.
  induction d as [|[k l] d IH]; simpl.
  - rewrite (Nat.eqb_sym ci p). destruct (Nat.eqb p ci); reflexivity.
  - destruct (Nat.eqb_spec k ci) as [->|Hk]; simpl.
    + rewrite (Nat.eqb_sym ci p). destruct (Nat.eqb p ci); reflexivity.
    + rewrite IH. destruct (Nat.eqb_spec k p) as [->|Hkp]; [|reflexivity].
      destruct (Nat.eqb_spec p ci); [congruence | reflexivity].
Qed.

Section positions_facts.

Context {E : Externals}.

Variable self : Scan.
Variable rec : lipproc.LipidRecord.
Variable head : option nat.
Variable thr : Qc.
Variable frag_types : option (list (option (list string))).

(** What makes a chain fragment a candidate for a position. *)
Let candidate (p : nat) (f : ChainFragment.t) : Prop :=
  In p (positions_for_frag_type self rec (ChainFragment.fragtype f)) /\
  frag_type_allowed frag_types p (ChainFragment.fragtype f) = Ok true /\
  (forall h, head = Some (S h) -> (ChainFragment.i f <= h)%nat) /\
  exists x, opt_nth (inorm self) (ChainFragment.i f) = Some x /\ (thr <= x)%Qc.

Lemma fold_positions_frags (frag : ChainFragment.t) (chpos : list nat)
    (d0 d : list (nat * list ChainFragment.t)) (p : nat) (f : ChainFragment.t) :
  fold_left
    (fun acc ci =>
       d <- acc ;;
       ok <- frag_type_allowed frag_types ci (ChainFragment.fragtype frag) ;;
       Ok (if ok then dict_append d ci frag else d))
    chpos (Ok d0) = Ok d ->
  In f (frags_at d p) ->
  In f (frags_at d0 p) \/
  (f = frag /\ In p chpos /\
   frag_type_allowed frag_types p (ChainFragment.fragtype frag) = Ok true).
Proof.
  revert d0. induction chpos as [|ci chpos IH]; intros d0 H Hin; simpl in H.
  - injection H as <-. now left.
  - destruct (frag_type_allowed frag_types ci (ChainFragment.fragtype frag))
      as [ok|e] eqn:Hok; simpl in H.
    2:{ exfalso. clear - H. induction chpos as [|c chpos IH]; simpl in H;
          [discriminate | exact (IH H)]. }
    destruct (IH _ H Hin) as [Hd|(Hf & Hp & Ha)].
    + destruct ok; [|now left]. rewrite frags_at_dict_append in Hd.
      destruct (Nat.eqb_spec p ci) as [->|Hne]; [|now left].
      apply in_app_or in Hd. destruct Hd as [Hd|[<-|[]]]; [now left|].
      right. splits; auto. now left.
    + right. splits; auto. now right.
Qed.

Lemma frags_for_positions_loop_sound (cl : list ChainFragment.t)
    (d0 d : list (nat * list ChainFragment.t)) :
  frags_for_positions_loop self rec head thr frag_types cl d0 = Ok d ->
  forall p f,
    In f (frags_at d p) ->
    In f (frags_at d0 p) \/ (In f cl /\ candidate p f).
Proof.
  revert d0. induction cl as [|frag cl IH]; intros d0 H p f Hin;
    cbn [frags_for_positions_loop] in H.
  - injection H as <-. now left.
  - destruct head as [[|h]|] eqn:Hhead.
    + (* head = 0 is falsy: no limit *)
      inv_bind H. inv_bind H.
      destruct (Qcltb x0 thr) eqn:Hthr; [injection H as <-; now left|].
      inv_bind H. destruct (IH _ H p f Hin) as [Hd|[Hcl Hc]].
      * destruct (fold_positions_frags _ _ _ _ _ _ Hx1 Hd)
          as [Hd0|(-> & Hp & Ha)]; [now left|].
        right. split; [now left|]. unfold candidate. splits; auto.
        -- discriminate.
        -- exists x0. destruct (inorm self); [|discriminate].
           injection Hx as <-. apply getitem_Ok in Hx0.
           split; [exact Hx0 | now apply Qcltb_false].
      * right. split; [now right | exact Hc].
    + destruct (Nat.leb (S h) (ChainFragment.i frag)) eqn:Hle;
        [injection H as <-; now left|].
      apply Nat.leb_gt in Hle. inv_bind H. inv_bind H.
      destruct (Qcltb x0 thr) eqn:Hthr; [injection H as <-; now left|].
      inv_bind H. destruct (IH _ H p f Hin) as [Hd|[Hcl Hc]].
      * destruct (fold_positions_frags _ _ _ _ _ _ Hx1 Hd)
          as [Hd0|(-> & Hp & Ha)]; [now left|].
        right. split; [now left|]. unfold candidate. splits; auto.
        -- intros h' [= <-]. lia.
        -- exists x0. destruct (inorm self); [|discriminate].
           injection Hx as <-. apply getitem_Ok in Hx0.
           split; [exact Hx0 | now apply Qcltb_false].
      * right. split; [now right | exact Hc].
    + inv_bind H. inv_bind H.
      destruct (Qcltb x0 thr) eqn:Hthr; [injection H as <-; now left|].
      inv_bind H. destruct (IH _ H p f Hin) as [Hd|[Hcl Hc]].
      * destruct (fold_positions_frags _ _ _ _ _ _ Hx1 Hd)
          as [Hd0|(-> & Hp & Ha)]; [now left|].
        right. split; [now left|]. unfold candidate. splits; auto.
        -- discriminate.
        -- exists x0. destruct (inorm self); [|discriminate].
           injection Hx as <-. apply getitem_Ok in Hx0.
           split; [exact Hx0 | now apply Qcltb_false].
      * right. split; [now right | exact Hc].
Qed.

End positions_facts.

Section positions_theorem.

Context {E : Externals}.

(** X17: every fragment [frags_for_positions] puts in the bucket of a
    position is a fragment of the chain list (the scan's own, or the
    adduct view's), the position is one the constraints of its fragment
    type allow for the record, its fragment type passes the [frag_types]
    filter of that position, its peak index is below [head] when a head
    is given, and its normalized intensity is not below the threshold. *)
Theorem frags_for_positions_sound (s : Scan) (rec : lipproc.LipidRecord)
    (head : option nat) (thr : Qc)
    (frag_types : option (list (option (list string)))) (ad : option string)
    (d : list (nat * list ChainFragment.t)) (s' : Scan) :
  frags_for_positions s rec head thr frag_types ad = Ok (d, s') ->
  exists cl,
    adduct_chain_list s ad = Ok (cl, s') /\
    forall p f,
      In f (frags_at d p) ->
      In f cl /\
      In p (positions_for_frag_type s' rec (ChainFragment.fragtype f)) /\
      frag_type_allowed frag_types p (ChainFragment.fragtype f) = Ok true /\
      (forall h, head = Some (S h) -> (ChainFragment.i f < S h)%nat) /\
      exists x, opt_nth (inorm s') (ChainFragment.i f) = Some x /\
                (thr <= x)%Qc.
Proof.
  unfold frags_for_positions. intros H. inv_bind H. destruct x as [cl s1].
  inv_bind H. injection H as <- <-. exists cl. split; [exact Hx|].
  intros p f Hin.
  destruct (frags_for_positions_loop_sound _ _ _ _ _ _ _ _ Hx0 p f Hin)
    as [[]|(Hcl & Hp & Ha & Hh & Hx')].
  splits; auto. intros h Hh'. specialize (Hh h Hh'). lia.
Qed.

End positions_theorem.

Lemma scan_fa_positions :
  exists s s1 d s2,
    scan_fa = Ok s /\ build_chain_list s = Ok s1 /\
    frags_for_positions (E := env_of db_fa) s1 rec_36_1 (Some 2%nat) (Q2Qc 0)
      None None = Ok (d, s2).
Proof.
  do 4 eexists. split; [vm_compute; reflexivity|].
  split; vm_compute; reflexivity.
Qed.

Lemma frags_for_positions_sound_witness :
  exists s1 d s2,
    frags_for_positions (E := env_of db_fa) s1 rec_36_1 (Some 2%nat) (Q2Qc 0)
      None None = Ok (d, s2) /\
    exists cl,
      adduct_chain_list (E := env_of db_fa) s1 None = Ok (cl, s2) /\
      forall p f,
        In f (frags_at d p) ->
        In f cl /\
        In p (positions_for_frag_type (E := env_of db_fa) s2 rec_36_1
                (ChainFragment.fragtype f)) /\
        frag_type_allowed None p (ChainFragment.fragtype f) = Ok true /\
        (forall h, Some 2%nat = Some (S h) -> (ChainFragment.i f < S h)%nat) /\
        exists x, opt_nth (inorm s2) (ChainFragment.i f) = Some x /\
                  (Q2Qc 0 <= x)%Qc.
Proof.
  destruct scan_fa_positions as (s & s1 & d & s2 & _ & _ & H).
  exists s1, d, s2. split; [exact H|].
  exact (frags_for_positions_sound (E := env_of db_fa) s1 rec_36_1
           (Some 2%nat) (Q2Qc 0) None None d s2 H).
Defined.

(** ** Completeness of the chain combination solver *)

Lemma gen_for_total {A B : Type} (body : A -> outcome (option B)) (l : list A) :
  (forall x, In x l -> exists o, body x = Ok o) ->
  raised (gen_for body l) = None /\
  forall x y, In x l -> body x = Ok (Some y) -> In y (yielded (gen_for body l)).
Proof.
  induction l as [|a l IH]; intros Hall; simpl.
  - split; [reflexivity | contradiction].
  - destruct (Hall a (or_introl eq_refl)) as [o Ho]. rewrite Ho.
    destruct IH as [IH1 IH2]; [intros x Hx; apply Hall; now right|].
    destruct o as [y0|]; simpl; (split; [exact IH1|]).
    + intros x y [<-|Hx] Hy; [left; congruence | right; eauto].
    + intros x y [<-|Hx] Hy; [congruence | eauto].
Qed.

Lemma product_In_conv {A : Type} (ls : list (list A)) (comb : list A) :
  Forall2 (fun x l => In x l) comb ls -> In comb (product ls).
Proof.
  intros H. induction H as [|x l comb ls Hx H IH]; simpl; [now left|].
  apply in_flat_map. exists x. split; [exact Hx|]. now apply in_map.
Qed.

Lemma sorted_nat_unique (l1 l2 : list nat) :
  StronglySorted le l1 -> StronglySorted le l2 -> Permutation l1 l2 -> l1 = l2.
Proof.
  intros H1. revert l2. induction H1 as [|a l1 Hs1 IH Ha]; intros l2 H2 Hp.
  - apply Permutation_nil in Hp. now subst.
  - destruct H2 as [|b l2 Hs2 Hb].
    + apply Permutation_sym, Permutation_nil in Hp. discriminate.
    + assert (Hab : a = b).
      { assert (Hin1 : In a (b :: l2))
          by (apply (Permutation_in _ Hp); now left).
        assert (Hin2 : In b (a :: l1))
          by (apply (Permutation_in _ (Permutation_sym Hp)); now left).
        destruct Hin1 as [->|Hin1]; [reflexivity|].
        destruct Hin2 as [->|Hin2]; [reflexivity|].
        rewrite Forall_forall in Ha, Hb.
        specialize (Ha _ Hin2). specialize (Hb _ Hin1). lia. }
      subst b. f_equal. apply IH; [assumption|].
      now apply Permutation_cons_inv in Hp.
Qed.

Lemma seq_sorted (start n : nat) : StronglySorted le (seq start n).
Proof.
  revert start. induction n as [|n IH]; intros start; simpl; constructor.
  - apply IH.
  - apply Forall_forall. intros x Hx. apply in_seq in Hx. lia.
Qed.

Lemma insert_item_sorted {V : Type} (x : nat * V) (l : list (nat * V)) :
  StronglySorted (fun a b => (fst a <= fst b)%nat) l ->
  StronglySorted (fun a b => (fst a <= fst b)%nat) (insert_item x l).
Proof.
  intros H. induction H as [|y l Hs IH Hy]; simpl.
  - repeat constructor.
  - destruct (Nat.leb_spec (fst x) (fst y)) as [Hle|Hgt].
    + constructor; [now constructor|]. constructor; [exact Hle|].
      eapply Forall_impl; [|exact Hy]. intros z Hz. cbv beta in Hz. lia.
    + constructor; [exact IH|]. apply Forall_forall. intros z Hz.
      apply (Permutation_in _ (insert_item_perm x l)) in Hz.
      destruct Hz as [<-|Hz]; [lia|].
      rewrite Forall_forall in Hy. now apply Hy.
Qed.

Lemma sorted_items_sorted {V : Type} (d : list (nat * V)) :
  StronglySorted (fun a b => (fst a <= fst b)%nat) (sorted_items d).
Proof.
  induction d as [|x d IH]; simpl; [constructor|].
  now apply insert_item_sorted.
Qed.

Lemma frags_at_In {V : Type} (d : list (nat * list V)) (k : nat) (l : list V) :
  NoDup (map fst d) -> In (k, l) d -> frags_at d k = l.
Proof.
  induction d as [|[k0 l0] d IH]; simpl; intros Hnd Hin; [contradiction|].
  inversion Hnd as [|? ? Hnin Hnd']; subst.
  destruct Hin as [[= -> ->]|Hin].
  - now rewrite Nat.eqb_refl.
  - destruct (Nat.eqb_spec k0 k) as [->|Hne]; [|now apply IH].
    exfalso. apply Hnin. apply in_map_iff. exists (k, l). now split.
Qed.

Lemma frags_at_key {V : Type} (d : list (nat * list V)) (p : nat) :
  frags_at d p <> [] -> In p (map fst d).
Proof.
  induction d as [|[k l] d IH]; simpl; [congruence|].
  destruct (Nat.eqb_spec k p); [now left | right; auto].
Qed.

(** A dict with an entry for each of the positions [0 .. K-1] and no
    other, read in the order of its keys, gives the buckets of the
    positions in turn. *)
Lemma sorted_buckets {V : Type} (K : nat) (d : list (nat * list V)) :
  buckets_wf K d -> List.length d = K ->
  map snd (sorted_items d) = map (frags_at d) (seq 0 K).
Proof.
  intros Hwf Hlen. pose proof Hwf as [Hnd Hall].
  assert (Hkeys : map fst (sorted_items d) = seq 0 K).
  { apply sorted_nat_unique.
    - pose proof (sorted_items_sorted d) as Hs.
      induction Hs as [|x l Hs IH Hx]; simpl; constructor; auto.
      rewrite Forall_map. exact Hx.
    - apply seq_sorted.
    - eapply Permutation_trans;
        [apply Permutation_map, sorted_items_perm|].
      apply NoDup_Permutation_bis; [exact Hnd | |].
      + rewrite length_seq, length_map. lia.
      + intros k Hk. apply in_map_iff in Hk. destruct Hk as [[k' l] [<- Hin]].
        rewrite Forall_forall in Hall. apply Hall in Hin. simpl in *.
        apply in_seq. lia. }
  rewrite <- Hkeys, map_map. apply map_ext_in. intros [k l] Hin. simpl.
  symmetry. apply frags_at_In; [exact Hnd|].
  apply (Permutation_in _ (sorted_items_perm d)). exact Hin.
Qed.

Lemma chains_plain_total (frag_comb : list ChainFragment.t)
    (chainsum : lipproc.ChainSummary.t) (n i j : nat) :
  (j + n <= List.length frag_comb)%nat ->
  (i + n <= List.length (lipproc.ChainSummary.attr chainsum))%nat ->
  exists chains,
    mapM (chain_for_position frag_comb chainsum None)
      (iterator_insert_from i j n None) = Ok chains.
Proof.
  revert i j. induction n as [|n IH]; intros i j Hj Hi; simpl; [eauto|].
  unfold chain_for_position at 1. simpl.
  destruct (nth_error frag_comb j) as [f|] eqn:Hf.
  2:{ apply nth_error_None in Hf. lia. }
  destruct (nth_error (lipproc.ChainSummary.attr chainsum) i) as [a|] eqn:Ha.
  2:{ apply nth_error_None in Ha. lia. }
  unfold getitem. rewrite Hf, Ha. simpl.
  destruct (IH (S i) (S j)) as [chains Hc]; [lia | lia |].
  rewrite Hc. simpl. eauto.
Qed.

Section solver_completeness.

Context {E : Externals}.

Variable rec : lipproc.LipidRecord.
Variable cs : lipproc.ChainSummary.t.

Hypothesis chainsum_rec : lipproc.chainsum rec = Some cs.

Hypothesis positions_below :
  forall constr p,
    In p (snd (match_constraints rec constr)) ->
    (p < lipproc.ChainSummary.len cs)%nat.

(** The chain summary holds the attributes of each of its positions. *)
Hypothesis attr_per_position :
  List.length (lipproc.ChainSummary.attr cs) = lipproc.ChainSummary.len cs.

Let K : nat := lipproc.ChainSummary.len cs.

(** X18: with the intensity check bypassed, [chain_combinations] leaves
    out no combination: for every choice of one candidate fragment per
    position whose carbon counts and unsaturations sum to the record's
    totals, it yields the chains of that choice, one per position with the
    counts of the fragment chosen there; and it ends without an
    exception. *)
Theorem chain_combinations_complete (self s1 s2 : Scan) (head : option nat)
    (thr : Qc) (frag_types : option (list (option (list string))))
    (ad : option string) (d : list (nat * list ChainFragment.t))
    (fc : list ChainFragment.t) :
  (0 < K)%nat ->
  build_chain_list self = Ok s1 ->
  frags_for_positions s1 rec head thr frag_types ad = Ok (d, s2) ->
  Forall2 (fun f p => In f (frags_at d p)) fc (seq 0 K) ->
  sumZ (map ChainFragment.c fc) = lipproc.ChainSummary.c cs ->
  sumZ (map ChainFragment.u fc) = lipproc.ChainSummary.u cs ->
  let g := chain_combinations self rec head thr None true frag_types
             (Some false) ad in
  raised g = None /\
  exists chains,
    In (chains, None) (yielded g) /\ Forall2 same_counts fc chains.
Proof.
  intros HK Hs1 Hd Hfc Hc Hu g. unfold g, chain_combinations.
  rewrite (chainsum_or_sum_rec rec cs chainsum_rec HK), chainsum_rec.
  assert (Htruthy : chainsum_truthy (Some cs) = true).
  { unfold chainsum_truthy. fold K. destruct (Nat.eqb_spec K 0);
      [lia | reflexivity]. }
  rewrite Htruthy. simpl negb. simpl andb. cbv iota.
  rewrite Hs1. cbn [bind]. rewrite Hd. cbn [bind gen_of].
  pose proof (frags_for_positions_wf rec cs positions_below
                _ _ _ _ _ _ _ Hd) as Hwf.
  fold K in Hwf.
  assert (Hlen : List.length d = K).
  { apply Nat.le_antisymm; [now apply buckets_wf_length|].
    destruct Hwf as [Hnd _].
    assert (Hincl : incl (seq 0 K) (map fst d)).
    { intros p Hp. apply in_seq in Hp.
      assert (Hfp : exists f, nth_error fc p = Some f).
      { destruct (nth_error fc p) eqn:Hn; [eauto|].
        apply nth_error_None in Hn. apply Forall2_length in Hfc.
        rewrite length_seq in Hfc. lia. }
      destruct Hfp as [f Hf]. apply frags_at_key.
      assert (Hin : In f (frags_at d p)).
      { eapply (Forall2_nth_error_rel _ _ _ p f p Hfc Hf).
        rewrite nth_error_seq. destruct (Nat.ltb_spec p K); [reflexivity|lia]. }
      intros Hnil. rewrite Hnil in Hin. contradiction. }
    pose proof (NoDup_incl_length (seq_NoDup K 0) Hincl) as Hl.
    now rewrite length_seq, length_map in Hl. }
  change (List.length (lipproc.ChainSummary.typ cs)) with K.
  rewrite Hlen, Nat.eqb_refl. cbn [negb].
  rewrite (sorted_buckets K d Hwf Hlen).
  match goal with
  | |- context [gen_for ?b ?l] => set (body := b); set (combos := l)
  end.
  assert (Hbody : forall x, In x combos ->
            (exists o, body x = Ok o) /\
            (Z.eqb (sumZ (map ChainFragment.c x)) (lipproc.ChainSummary.c cs) &&
             Z.eqb (sumZ (map ChainFragment.u x)) (lipproc.ChainSummary.u cs)
             = true ->
             exists chains, body x = Ok (Some (chains, None)) /\
                            Forall2 same_counts x chains)).
  { intros x Hx. unfold combos in Hx. apply product_In in Hx.
    assert (Hxl : List.length x = K).
    { apply Forall2_length in Hx. now rewrite length_map, length_seq in Hx. }
    unfold body.
    destruct (Z.eqb (sumZ (map ChainFragment.c x)) (lipproc.ChainSummary.c cs) &&
              Z.eqb (sumZ (map ChainFragment.u x)) (lipproc.ChainSummary.u cs));
      [|split; [eauto | discriminate]].
    cbn [bind]. unfold _chains_frag_comb. cbn [option_map].
    unfold iterator_insert.
    destruct (chains_plain_total x cs (lipproc.ChainSummary.len cs) 0 0)
      as [chains Hch]; [fold K; lia | fold K; unfold K; lia|].
    rewrite Hch. cbn [bind]. split; [eauto|]. intros _. exists chains.
    split; [reflexivity|].
    apply (chains_plain x cs None) in Hch; [|discriminate].
    now rewrite firstn_skipn_all in Hch by exact Hxl. }
  destruct (gen_for_total body combos) as [Hraised Hyield].
  { intros x Hx. now apply Hbody. }
  split; [exact Hraised|].
  assert (Hin : In fc combos).
  { unfold combos. apply product_In_conv.
    clear - Hfc. induction Hfc; simpl; constructor; auto. }
  destruct (proj2 (Hbody fc Hin)) as (chains & Hb & Hsame).
  { rewrite Hc, Hu, !Z.eqb_refl. reflexivity. }
  exists chains. split; [|exact Hsame]. eapply Hyield; eauto.
Qed.

End solver_completeness.

Lemma scan_fa_candidates :
  exists s s1 d s2 fc,
    scan_fa = Ok s /\ build_chain_list s = Ok s1 /\
    frags_for_positions (E := env_of db_fa) s1 rec_36_1 None (Q2Qc 0)
      None None = Ok (d, s2) /\
    Forall2 (fun f p => In f (frags_at d p)) fc (seq 0 2) /\
    sumZ (map ChainFragment.c fc) = 36%Z /\
    sumZ (map ChainFragment.u fc) = 1%Z.
Proof.
  do 5 eexists. split; [vm_compute; reflexivity|].
  split; [vm_compute; reflexivity|].
  split; [vm_compute; reflexivity|].
  split.
  - apply Forall2_cons; [cbv; left; reflexivity|].
    apply Forall2_cons; [cbv; right; left; reflexivity|].
    apply Forall2_nil.
  - split; vm_compute; reflexivity.
Qed.

Lemma chain_combinations_complete_witness :
  exists s fc,
    scan_fa = Ok s /\
    let g := chain_combinations (E := env_of db_fa) s rec_36_1 None (Q2Qc 0)
               None true None (Some false) None in
    raised g = None /\
    exists chains,
      In (chains, None) (yielded g) /\ Forall2 same_counts fc chains.
Proof.
  destruct scan_fa_candidates as (s & s1 & d & s2 & fc & H & Hb & Hd & Hfc & Hc & Hu).
  exists s, fc. split; [exact H|].
  exact (chain_combinations_complete (E := env_of db_fa)
           rec_36_1 chainsum_36_1 eq_refl
           (fun constr p =>
              match_chain_types_below rec_36_1 chainsum_36_1 constr p eq_refl)
           eq_refl s s1 s2 None (Q2Qc 0) None None d fc
           (Nat.lt_0_succ 1) Hb Hd Hfc Hc Hu).
Defined.

(** ** The missing chain *)

Section missing_chain_facts.

Context {E : Externals}.

Variable rec : lipproc.LipidRecord.
Variable cs : lipproc.ChainSummary.t.

Hypothesis chainsum_rec : lipproc.chainsum rec = Some cs.

Let K : nat := lipproc.ChainSummary.len cs.

(** X19: [missing_chain] and the position it is asked for.  For a
    position the record does not have, the generator raises [ValueError]
    before yielding anything.  Every combination it yields has one chain
    per position of the record, and the chain at the missing position has
    the chain type and the attributes the record's chain summary gives for
    that position. *)
Theorem missing_chain_position (self : Scan) (missing_position : nat)
    (head : option nat) (thr : Qc) (expected : option (list R))
    (no_intensity_check : bool)
    (frag_types : option (list (option (list string)))) (ad : option string) :
  let g := missing_chain self rec missing_position head thr expected
             no_intensity_check frag_types ad in
  (forall cl s1 d s2,
      adduct_chain_list self ad = Ok (cl, s1) ->
      frags_for_positions s1 rec head thr frag_types ad = Ok (d, s2) ->
      (K <= missing_position)%nat ->
      g = mkGen [] (Some ValueError)) /\
  (forall chains details,
      In (chains, details) (yielded g) ->
      (missing_position < K)%nat /\ List.length chains = K /\
      exists missing,
        nth_error chains missing_position = Some missing /\
        nth_error (lipproc.ChainSummary.typ cs) missing_position
        = Some (lipproc.Chain.typ missing) /\
        nth_error (lipproc.ChainSummary.attr cs) missing_position
        = Some (lipproc.Chain.attr missing)).
Proof.
  intros g. unfold g, missing_chain. split.
  - intros cl s1 d s2 Hcl Hd Hmp. rewrite Hcl. cbn [bind]. rewrite Hd.
    cbn [bind]. rewrite chainsum_rec. cbn [bind].
    change (List.length (lipproc.ChainSummary.typ cs)) with K.
    destruct (Nat.leb_spec K missing_position); [reflexivity | lia].
  - intros chains details Hin. apply gen_of_In in Hin.
    destruct Hin as (g' & Hg & Hin). inv_bind Hg. destruct x as [cl s1].
    inv_bind Hg. destruct x as [d s2]. rewrite chainsum_rec in Hg.
    simpl in Hg.
    change (List.length (lipproc.ChainSummary.typ cs)) with K in Hg.
    destruct (Nat.leb_spec K missing_position) as [|Hmp]; [discriminate|].
    injection Hg as <-.
    apply gen_for_In in Hin. destruct Hin as (fc & Hfc & Hbody).
    rewrite (chainsum_or_sum_rec rec cs chainsum_rec ltac:(fold K; lia))
      in Hbody.
    match type of Hbody with
    | (if ?b then _ else _) = _ => destruct b
    end; [discriminate|].
    match type of Hbody with
    | (if ?b then _ else _) = _ => destruct b
    end; [discriminate|].
    inv_bind Hbody. destruct x; [|discriminate].
    inv_bind Hbody. inv_bind Hbody. inv_bind Hbody. injection Hbody as ->.
    apply getitem_Ok in Hx2, Hx3.
    apply _chains_frag_comb_chains in Hx4. simpl in Hx4.
    pose proof (mapM_length _ _ _ Hx4) as Hl.
    rewrite iterator_insert_length in Hl.
    apply chains_missing in Hx4; [|lia|fold K; lia].
    destruct Hx4 as (c1 & c2 & Hch & Hl1 & _).
    splits; auto.
    eexists. rewrite Hch. split.
    + rewrite nth_error_app2 by lia.
      replace (missing_position - List.length c1)%nat with 0%nat by lia.
      reflexivity.
    + simpl. split; assumption.
Qed.

End missing_chain_facts.

Lemma missing_chain_position_witness :
  exists s s1,
    scan_fa = Ok s /\ build_chain_list s = Ok s1 /\
    forall chains details,
      In (chains, details)
        (yielded (missing_chain (E := env_of db_fa) s1 rec_36_1 1 None
                    (Q2Qc 0) None true None None)) ->
      (1 < 2)%nat /\ List.length chains = 2%nat /\
      exists missing,
        nth_error chains 1 = Some missing /\
        nth_error ["FA"; "FA"]%string 1 = Some (lipproc.Chain.typ missing) /\
        nth_error [plain_attr; plain_attr] 1
        = Some (lipproc.Chain.attr missing).
Proof.
  destruct scan_fa_chain_list_Ok as (s & s1 & H & Hb). exists s, s1.
  splits; [exact H | exact Hb |].
  exact (proj2 (missing_chain_position (E := env_of db_fa)
                  rec_36_1 chainsum_36_1 eq_refl
                  s1 1 None (Q2Qc 0) None true None None)).
Defined.

(** ** Queries by chain type *)

Lemma Qcltb_lt (x y : Qc) : Qcltb x y = true <-> (x < y)%Qc.
Proof.
  unfold Qcltb. rewrite negb_true_iff. split.
  - intros H. apply Qcnot_le_lt. intros Hle. apply Qcleb_le in Hle.
    unfold Qcleb in Hle. congruence.
  - intros H. destruct (Qle_bool (this y) (this x)) eqn:Hb; [|reflexivity].
    apply (Qcleb_le y x) in Hb. exfalso. eapply Qclt_not_le; eauto.
Qed.

Section chain_type_facts.

Context {E : Externals}.

Variable s : Scan.
Variable crit : chain_criteria.

Hypothesis s_wf : scan_wf s.

(** The annotation array holds named tuples. *)
Hypothesis s_named : annot_fields s = false.

Lemma meets_bound (i : nat) :
  meets s i crit -> (i < List.length (mzs s))%nat.
Proof.
  intros (aa & an & Hn & _).
  destruct s_wf as [(_ & _ & (a & Ha & Hla) & _) _].
  rewrite Ha in Hn. simpl in Hn. rewrite <- Hla.
  apply nth_error_Some. congruence.
Qed.

Lemma chain_fragment_type_is_meets (i : nat) :
  exists b,
    chain_fragment_type_is s i crit None = Ok (b, s) /\
    (b = true <-> meets s i crit).
Proof.
  unfold chain_fragment_type_is.
  destruct (Nat.leb_spec (List.length (mzs s)) i) as [Hge|Hlt].
  - exists false. split; [reflexivity|]. split; [discriminate|].
    intros Hm. apply meets_bound in Hm. lia.
  - destruct s_wf as [(_ & _ & (a & Ha & Hla) & _) _].
    unfold adduct_annot. rewrite Ha. cbn [bind].
    destruct (nth_error a i) as [aa|] eqn:Haa.
    2:{ apply nth_error_None in Haa. lia. }
    unfold getitem. rewrite Haa. cbn [bind].
    rewrite s_named, named_annotations_tuples. cbn [bind].
    eexists. split; [reflexivity|].
    rewrite existsb_exists. unfold meets. rewrite Ha. simpl. split.
    + intros (an & Hin & Hm). eauto.
    + intros (aa' & an & Hn & Hin & Hm). exists an.
      assert (aa' = aa) by congruence. subst. auto.
Qed.

Lemma first_fragment_from_spec (idx : list nat) :
  exists r,
    first_fragment_from s idx crit None = Ok (r, s) /\
    match r with
    | Some i =>
        exists pre post,
          idx = pre ++ i :: post /\ meets s i crit /\
          Forall (fun j => ~ meets s j crit) pre
    | None => Forall (fun j => ~ meets s j crit) idx
    end.
Proof.
  induction idx as [|i idx (r & Hr & IH)]; cbn [first_fragment_from].
  - exists None. split; [reflexivity | constructor].
  - destruct (chain_fragment_type_is_meets i) as (b & Hb & Hm).
    rewrite Hb. cbn [bind]. destruct b.
    + exists (Some i). split; [reflexivity|]. exists [], idx.
      splits; auto. apply Hm. reflexivity.
    + assert (Hno : ~ meets s i crit).
      { intros H. apply Hm in H. discriminate. }
      exists r. split; [exact Hr|]. destruct r as [j|].
      * destruct IH as (pre & post & -> & Hj & Hpre).
        exists (i :: pre), post. splits; auto.
      * now constructor.
Qed.

Lemma first_fragment_seq (n : nat) :
  exists r,
    first_fragment_from s (seq 0 n) crit None = Ok (r, s) /\
    match r with
    | Some i =>
        (i < n)%nat /\ meets s i crit /\
        forall j, (j < i)%nat -> ~ meets s j crit
    | None => forall j, (j < n)%nat -> ~ meets s j crit
    end.
Proof.
  destruct (first_fragment_from_spec (seq 0 n)) as (r & Hr & H).
  exists r. split; [exact Hr|]. destruct r as [i|].
  - destruct H as (pre & post & Hseq & Hi & Hpre).
    assert (Hlen : List.length pre = i /\ (i < n)%nat).
    { assert (Hn : nth_error (seq 0 n) (List.length pre) = Some i).
      { rewrite Hseq, nth_error_app2, Nat.sub_diag by lia. reflexivity. }
      rewrite nth_error_seq in Hn.
      destruct (Nat.ltb_spec (List.length pre) n); [|discriminate].
      injection Hn as Hn. simpl in Hn. lia. }
    destruct Hlen as [Hlen Hin]. splits; auto.
    intros j Hj. rewrite Forall_forall in Hpre. apply Hpre.
    assert (Hn : nth_error (seq 0 n) j = Some j).
    { rewrite nth_error_seq. destruct (Nat.ltb_spec j n); [reflexivity|lia]. }
    rewrite Hseq, nth_error_app1 in Hn by lia.
    eapply nth_error_In; eauto.
  - intros j Hj. rewrite Forall_forall in H. apply H. apply in_seq. lia.
Qed.

Lemma fragments_from_spec (idx : list nat) :
  exists l,
    fragments_by_chain_type_from s idx crit None = Ok (l, s) /\
    forall i, In i l <-> In i idx /\ meets s i crit.
Proof.
  induction idx as [|i idx (l & Hl & IH)]; cbn [fragments_by_chain_type_from].
  - exists []. split; [reflexivity|]. intros i. simpl. tauto.
  - destruct (chain_fragment_type_is_meets i) as (b & Hb & Hm).
    rewrite Hb. cbn [bind]. rewrite Hl. cbn [bind]. eexists.
    split; [reflexivity|]. intros j. destruct b; simpl; rewrite IH.
    + split.
      * intros [<-|[Hj Hmj]]; [|tauto]. split; [now left|]. now apply Hm.
      * intros [[<-|Hj] Hmj]; tauto.
    + split; [tauto|]. intros [[<-|Hj] Hmj]; [|tauto].
      apply Hm in Hmj. discriminate.
Qed.

(** X20: [highest_fragment_by_chain_type] on a constructed scan whose
    annotation array holds named tuples (not every peak has the same
    non-zero number of annotations), for the scan's own annotations,
    never fails and leaves the scan as it was.  It answers with the
    lowest index below the head limit whose fragment has an annotation
    meeting the criteria, the most intense such fragment of a scan in
    intensity order, and with [None] exactly when no fragment below the
    head limit has one. *)
Theorem highest_fragment_is_first (head : option nat) :
  exists r,
    highest_fragment_by_chain_type s head crit None = Ok (r, s) /\
    match r with
    | Some i =>
        (i < head_limit s head)%nat /\ meets s i crit /\
        forall j, (j < i)%nat -> ~ meets s j crit
    | None => forall j, (j < head_limit s head)%nat -> ~ meets s j crit
    end.
Proof.
  unfold highest_fragment_by_chain_type. apply first_fragment_seq.
Qed.

Lemma among_most_abundant_spec (n : nat) :
  exists b,
    chain_fragment_type_among_most_abundant s n crit None = Ok (b, s) /\
    (b = true <-> exists i, (i < n)%nat /\ meets s i crit).
Proof.
  unfold chain_fragment_type_among_most_abundant, fragments_by_chain_type.
  destruct (fragments_from_spec (seq 0 (head_limit s (Some n))))
    as (l & Hl & Hin).
  rewrite Hl. cbn [bind]. eexists. split; [reflexivity|].
  simpl in Hin. split.
  - intros Hb. destruct l as [|i l]; [discriminate|].
    destruct (proj1 (Hin i) (or_introl eq_refl)) as [Hi Hm].
    apply in_seq in Hi. exists i. split; [lia | exact Hm].
  - intros (i & Hi & Hm). pose proof (meets_bound i Hm) as Hb.
    assert (Hil : In i l).
    { apply Hin. split; [|exact Hm]. apply in_seq. lia. }
    destruct l; [contradiction | reflexivity].
Qed.

Lemma chain_among_most_abundant_spec (n : nat) (min_mass : option Qc) :
  exists b,
    chain_among_most_abundant s n crit min_mass false None = Ok (b, s) /\
    (b = true <-> exists i, (i < n)%nat /\ meets s i crit).
Proof.
  unfold chain_among_most_abundant.
  destruct (first_fragment_seq n) as (r & Hr & H). rewrite Hr. cbn [bind].
  eexists. split; [reflexivity|]. destruct r as [i|].
  - split; [|reflexivity]. intros _. exists i. tauto.
  - split; [discriminate|]. intros (i & Hi & Hm). exfalso. exact (H i Hi Hm).
Qed.

(** X21: on a constructed scan whose annotation array holds named
    tuples (not every peak has the same non-zero number of annotations),
    for the scan's own annotations, the chain type queries return and
    agree with each other.  [has_chain_fragment_type]
    is [True] exactly when some fragment of the scan has an annotation
    meeting the criteria; [get_most_abundant_chain] answers as
    [highest_fragment_by_chain_type] without a head does, whatever [head]
    it is given; and [chain_among_most_abundant] without skipping answers
    as [chain_fragment_type_among_most_abundant] does for the same number
    of fragments, whatever [min_mass] it is given. *)
Theorem chain_type_queries_agree (n : nat) (min_mass : option Qc) :
  (exists b,
      has_chain_fragment_type s crit None = Ok (b, s) /\
      (b = true <-> exists i, meets s i crit)) /\
  get_most_abundant_chain s n crit None =
    highest_fragment_by_chain_type s None crit None /\
  chain_among_most_abundant s n crit min_mass false None =
    chain_fragment_type_among_most_abundant s n crit None.
Proof.
  splits.
  - unfold has_chain_fragment_type, highest_fragment_by_chain_type.
    destruct (first_fragment_seq (head_limit s None)) as (r & Hr & H).
    rewrite Hr. cbn [bind]. eexists. split; [reflexivity|].
    destruct r as [i|].
    + split; [|reflexivity]. intros _. exists i. tauto.
    + split; [discriminate|]. intros (i & Hm). exfalso.
      apply (H i); [|exact Hm]. simpl. now apply meets_bound.
  - reflexivity.
  - destruct (chain_among_most_abundant_spec n min_mass) as (b1 & H1 & Hb1).
    destruct (among_most_abundant_spec n) as (b2 & H2 & Hb2).
    rewrite H1, H2. assert (b1 = b2); [|congruence].
    destruct b1, b2; auto.
    + symmetry. apply Hb2, Hb1. reflexivity.
    + apply Hb1, Hb2. reflexivity.
Qed.

(** The normalized intensity at index [k] is above [percent] per cent. *)
Let above (percent : Qc) (k : nat) : Prop :=
  exists x, opt_nth (inorm s) k = Some x /\ (percent / Q2Qc 100 < x)%Qc.

Lemma chain_percent_loop_spec (percent : Qc) (n start : nat) :
  (start + n <= List.length (mzs s))%nat ->
  exists b,
    chain_percent_loop s (seq start n) percent crit None = Ok (b, s) /\
    (b = true <->
     exists i j,
       (start <= i < start + n)%nat /\ (j < i)%nat /\
       (forall k, (start <= k <= i)%nat -> above percent k) /\
       meets s j crit).
Proof.
  destruct s_wf as [(_ & _ & _ & (xs & Hxs & Hlx) & _) _].
  revert start. induction n as [|n IH]; intros start Hb;
    cbn [seq chain_percent_loop].
  - exists false. split; [reflexivity|]. split; [discriminate|].
    intros (i & j & Hi & _). lia.
  - rewrite Hxs. cbn [bind].
    destruct (nth_error xs start) as [x|] eqn:Hx.
    2:{ apply nth_error_None in Hx. lia. }
    unfold getitem. rewrite Hx. cbn [bind].
    destruct (Qcltb (percent / Q2Qc 100) x) eqn:Hab.
    + apply Qcltb_lt in Hab.
      assert (Habove : above percent start).
      { exists x. rewrite Hxs. simpl. auto. }
      destruct (chain_among_most_abundant_spec start None) as (b1 & H1 & Hb1).
      rewrite H1. cbn [bind]. destruct b1.
      * exists true. split; [reflexivity|]. split; [|reflexivity]. intros _.
        destruct (proj1 Hb1 eq_refl) as (j & Hj & Hm).
        exists start, j. splits; auto; [lia|].
        intros k Hk. replace k with start by lia. exact Habove.
      * destruct (IH (S start)) as (b & Hl & Hiff); [lia|].
        exists b. split; [exact Hl|]. rewrite Hiff. split.
        -- intros (i & j & Hi & Hj & Hk & Hm). exists i, j. splits; auto; [lia|].
           intros k Hk'. destruct (Nat.eq_dec k start) as [->|Hne];
             [exact Habove | apply Hk; lia].
        -- intros (i & j & Hi & Hj & Hk & Hm).
           destruct (Nat.eq_dec i start) as [->|Hne].
           ++ exfalso. assert (false = true); [|discriminate].
              apply Hb1. exists j. split; assumption.
           ++ exists i, j. splits; auto; [lia|]. intros k Hk'. apply Hk. lia.
    + exists false. split; [reflexivity|]. split; [discriminate|].
      intros (i & j & Hi & _ & Hk & _).
      destruct (Hk start ltac:(lia)) as (x' & Hx' & Hlt).
      rewrite Hxs in Hx'. simpl in Hx'. assert (x' = x) by congruence. subst x'.
      apply Qcltb_lt in Hlt. congruence.
Qed.

(** X23: [chain_percent_of_most_abundant] on a constructed scan whose
    annotation array holds named tuples (not every peak has the same
    non-zero number of annotations), for the scan's own annotations,
    never fails; and it is [True] exactly when a
    fragment at an index [j] has an annotation meeting the criteria and
    there is an index [i] after [j] such that every fragment up to and
    including [i] has a normalized intensity above the percentage: the
    fragment must be followed by another fragment above the
    percentage. *)
Theorem chain_percent_of_most_abundant_spec (percent : Qc) :
  exists b,
    chain_percent_of_most_abundant s percent crit None = Ok (b, s) /\
    (b = true <->
     exists i j,
       (j < i < List.length (mzs s))%nat /\
       (forall k, (k <= i)%nat ->
                  exists x, opt_nth (inorm s) k = Some x /\
                            (percent / Q2Qc 100 < x)%Qc) /\
       meets s j crit).
Proof.
  unfold chain_percent_of_most_abundant.
  destruct (chain_percent_loop_spec percent (List.length (mzs s)) 0)
    as (b & Hb & Hiff); [lia|].
  exists b. split; [exact Hb|]. rewrite Hiff. split.
  - intros (i & j & Hi & Hj & Hk & Hm). exists i, j. splits; auto; [lia|].
    intros k Hk'. apply Hk. lia.
  - intros (i & j & Hi & Hk & Hm). exists i, j. splits; auto; [lia|lia|].
    intros k Hk'. apply Hk. lia.
Qed.

End chain_type_facts.

Section chain_type_growth.

Context {E : Externals}.

Variable s : Scan.
Variable crit : chain_criteria.

Hypothesis s_wf : scan_wf s.

(** In an array of fields no fragment is found to meet any criteria: a
    call that returns has found the index without annotations. *)
Lemma chain_fragment_type_is_fields (i : nat) (b : bool) (s' : Scan) :
  annot_fields s = true ->
  chain_fragment_type_is s i crit None = Ok (b, s') -> b = false /\ s' = s.
Proof.
  intros Hf. unfold chain_fragment_type_is.
  destruct (Nat.leb (List.length (mzs s)) i); [intros [= <- <-]; auto|].
  unfold adduct_annot. destruct (annot s) as [a|]; [|discriminate].
  cbn [bind]. destruct (getitem a i) as [aa|]; [|discriminate].
  cbn [bind]. rewrite Hf. destruct aa as [|an aa]; [|discriminate].
  simpl. intros [= <- <-]. auto.
Qed.

Lemma fragments_from_fields (idx l : list nat) (s' : Scan) :
  annot_fields s = true ->
  fragments_by_chain_type_from s idx crit None = Ok (l, s') ->
  l = [] /\ s' = s.
Proof.
  intros Hf. revert l s'. induction idx as [|i idx IH]; intros l s';
    cbn [fragments_by_chain_type_from].
  - intros [= <- <-]. auto.
  - intros H. inv_bind H. destruct x as [b s1].
    destruct (chain_fragment_type_is_fields i b s1 Hf Hx) as [-> ->].
    inv_bind H. destruct x as [l' s2].
    destruct (IH l' s2 Hx0) as [-> ->]. injection H as <- <-. auto.
Qed.

(** X22: [chain_fragment_type_among_most_abundant] on a constructed scan,
    for the scan's own annotations: among the 0 most abundant fragments
    there is nothing; what is found among the [n] most abundant is found
    among the [n'] most abundant for [n' >= n]; and what is found among
    them, [has_chain_fragment_type] finds. *)
Theorem among_most_abundant_grows (n n' : nat) :
  chain_fragment_type_among_most_abundant s 0 crit None = Ok (false, s) /\
  ((n <= n')%nat ->
   chain_fragment_type_among_most_abundant s n crit None = Ok (true, s) ->
   chain_fragment_type_among_most_abundant s n' crit None = Ok (true, s)) /\
  (chain_fragment_type_among_most_abundant s n crit None = Ok (true, s) ->
   has_chain_fragment_type s crit None = Ok (true, s)).
Proof.
  assert (Hfields : annot_fields s = true ->
            forall k, chain_fragment_type_among_most_abundant s k crit None
                      <> Ok (true, s)).
  { intros Hf k H. unfold chain_fragment_type_among_most_abundant in H.
    inv_bind H. destruct x as [l s']. unfold fragments_by_chain_type in Hx.
    destruct (fragments_from_fields _ l s' Hf Hx) as [-> _]. discriminate. }
  splits.
  - reflexivity.
  - intros Hn H. destruct (annot_fields s) eqn:Hf;
      [now apply (Hfields eq_refl) in H|].
    destruct (among_most_abundant_spec s crit s_wf Hf n) as (b & Hb & Hi).
    destruct (among_most_abundant_spec s crit s_wf Hf n') as (b' & Hb' & Hi').
    rewrite Hb'. assert (b = true) by congruence. subst b.
    destruct (proj1 Hi eq_refl) as (i & Hlt & Hm).
    rewrite (proj2 Hi'); [reflexivity|]. exists i. split; [lia | exact Hm].
  - intros H. destruct (annot_fields s) eqn:Hf;
      [now apply (Hfields eq_refl) in H|].
    destruct (among_most_abundant_spec s crit s_wf Hf n) as (b & Hb & Hi).
    assert (b = true) by congruence. subst b.
    destruct (proj1 Hi eq_refl) as (i & _ & Hm).
    unfold has_chain_fragment_type, highest_fragment_by_chain_type.
    destruct (first_fragment_seq s crit s_wf Hf (head_limit s None))
      as (r & Hr & Hnone).
    rewrite Hr. cbn [bind]. destruct r; [reflexivity|]. exfalso.
    apply (Hnone i); [|exact Hm]. simpl. now apply (meets_bound s crit s_wf).
Qed.

End chain_type_growth.


Lemma highest_fragment_is_first_witness :
  exists s r,
    scan_fa = Ok s /\
    highest_fragment_by_chain_type (E := env_of db_fa) s (Some 2%nat)
      crit_fa_h None = Ok (r, s) /\
    match r with
    | Some i =>
        (i < head_limit s (Some 2%nat))%nat /\ meets s i crit_fa_h /\
        forall j, (j < i)%nat -> ~ meets s j crit_fa_h
    | None =>
        forall j, (j < head_limit s (Some 2%nat))%nat -> ~ meets s j crit_fa_h
    end.
Proof.
  destruct scan_fa_Ok as [s H].
  destruct (highest_fragment_is_first (E := env_of db_fa) s crit_fa_h
              (scan_fa_wf s H) (scan_fa_named s H) (Some 2%nat)) as (r & Hr).
  exists s, r. split; [exact H | exact Hr].
Defined.

Lemma chain_type_queries_agree_witness :
  exists s,
    scan_fa = Ok s /\
    chain_among_most_abundant (E := env_of db_fa) s 2 crit_fa_h None false None
    = chain_fragment_type_among_most_abundant (E := env_of db_fa) s 2
        crit_fa_h None.
Proof.
  destruct scan_fa_Ok as [s H]. exists s. split; [exact H|].
  exact (proj2 (proj2 (chain_type_queries_agree (E := env_of db_fa) s
                         crit_fa_h (scan_fa_wf s H) (scan_fa_named s H)
                         2 None))).
Defined.

Lemma among_most_abundant_grows_witness :
  exists s,
    scan_fa = Ok s /\
    chain_fragment_type_among_most_abundant (E := env_of db_fa) s 0
      crit_fa_h None = Ok (false, s).
Proof.
  destruct scan_fa_Ok as [s H]. exists s. split; [exact H|].
  exact (proj1 (among_most_abundant_grows (E := env_of db_fa) s crit_fa_h
                  (scan_fa_wf s H) 1 2)).
Defined.

Lemma chain_percent_of_most_abundant_spec_witness :
  exists s b,
    scan_fa = Ok s /\
    chain_percent_of_most_abundant (E := env_of db_fa) s (Q2Qc 50) crit_fa_h
      None = Ok (b, s) /\
    (b = true <->
     exists i j,
       (j < i < List.length (mzs s))%nat /\
       (forall k, (k <= i)%nat ->
                  exists x, opt_nth (inorm s) k = Some x /\
                            (Q2Qc 50 / Q2Qc 100 < x)%Qc) /\
       meets s j crit_fa_h).
Proof.
  destruct scan_fa_Ok as [s H].
  destruct (chain_percent_of_most_abundant_spec (E := env_of db_fa) s
              crit_fa_h (scan_fa_wf s H) (scan_fa_named s H) (Q2Qc 50))
    as (b & Hb).
  exists s, b. split; [exact H | exact Hb].
Defined.

Example chain_percent_scan_fa :
  exists s,
    scan_fa = Ok s /\
    chain_percent_of_most_abundant (E := env_of db_fa) s (Q2Qc 50) crit_fa_h
      None = Ok (true, s) /\
    chain_percent_of_most_abundant (E := env_of db_fa) s (Q2Qc 95) crit_fa_h
      None = Ok (false, s).
Proof.
  eexists. split; [vm_compute; reflexivity|].
  split; vm_compute; reflexivity.
Qed.

(** ** The intensity-ratio check on any number of intensities *)

Lemma combinations2_pairs {A : Type} (P : A -> A -> Prop) (l : list A) :
  Forall (fun p => P (fst p) (snd p)) (combinations2 l) <->
  ForallOrdPairs P l.
Proof.
  induction l as [|x l IH]; simpl.
  - split; constructor.
  - rewrite Forall_app, Forall_map, IH. simpl. split.
    + intros [H1 H2]. now constructor.
    + intros H. inversion H; subst. now split.
Qed.

Lemma all_log_ratios_spec (L : R) (cos : list (R * R)) :
  (1 < L)%R ->
  Forall (fun p => (0 < fst p)%R /\ (0 < snd p)%R) cos ->
  exists b,
    all_log_ratios L cos = Ok b /\
    (b = true <-> Forall (fun p => (fst p <= L * snd p)%R) cos).
Proof.
  intros HL Hpos. induction Hpos as [|[a b] cos [Ha Hb] Hpos (r & Hr & IH)];
    simpl.
  - exists true. split; [reflexivity|]. split; constructor.
  - simpl in Ha, Hb.
    rewrite (math_log_Ok a), (math_log_Ok b) by assumption. cbn [bind].
    destruct (Rle_lt_dec a (L * b)) as [Hle|Hgt].
    + rewrite Rleb_true by (now apply log_ratio_le_1).
      exists r. split; [exact Hr|]. rewrite IH. split.
      * intros H. now constructor.
      * intros H. now inversion H.
    + rewrite Rleb_false.
      2:{ apply Rnot_le_lt. intros H. apply log_ratio_le_1 in H; try assumption.
          lra. }
      exists false. split; [reflexivity|]. split; [discriminate|].
      intros H. inversion H; subst. simpl in *. lra.
Qed.

Lemma intcorr_plain (cntr : nat -> nat) (n : nat) (xs : list R) (i : nat) :
  (i + List.length xs <= n)%nat ->
  (forall k, (i <= k < i + List.length xs)%nat -> cntr k = 1%nat) ->
  intcorr cntr (repeat 1%R n) i xs (seq i (List.length xs)) = Ok xs.
Proof.
  revert i. induction xs as [|x xs IH]; intros i Hn Hc; simpl; [reflexivity|].
  simpl in Hn.
  assert (Hg : getitem (repeat 1%R n) i = Ok 1%R).
  { apply getitem_Ok. rewrite nth_error_repeat by lia. reflexivity. }
  rewrite Hg. cbn [bind]. destruct (Req_dec_T 1 0) as [H10|_]; [lra|].
  rewrite IH; [|lia|intros k Hk; apply Hc; simpl; lia]. cbn [bind].
  rewrite (Hc i) by (simpl; lia). simpl. f_equal. f_equal. field.
Qed.

Section ratio_pairs.

Context {E : Externals}.

Hypothesis logbase_above_1 : (1 < chain_fragment_instensity_ratios_logbase)%R.

(** With the logarithms of real numbers, the check on positive
    intensities of different peaks with no expected ratios passes exactly
    when each intensity is at most [logbase] times each intensity that
    comes after it in the list. *)
Lemma intensity_ratios_real_pairs (xs : list R) (logbase : R) :
  Forall (fun x => (0 < x)%R) xs ->
  exists b,
    intensity_ratios xs None None logbase = Ok b /\
    (b = true <->
     ForallOrdPairs
       (fun a b => (a <= chain_fragment_instensity_ratios_logbase * b)%R) xs).
Proof.
  intros Hpos. unfold intensity_ratios.
  destruct (Nat.eqb_spec (List.length xs) 1) as [H1|H1].
  - exists true. split; [reflexivity|]. split; [|reflexivity]. intros _.
    destruct xs as [|x [|y xs]]; try discriminate. repeat constructor.
  - assert (Hex : existsb (fun x => Rleb x 0) xs = false).
    { apply not_true_is_false. intros H. apply existsb_exists in H.
      destruct H as (x & Hx & Hle). rewrite Forall_forall in Hpos.
      specialize (Hpos x Hx). rewrite Rleb_false in Hle by assumption.
      discriminate. }
    rewrite Hex. rewrite intcorr_plain.
    + cbn [bind].
      destruct (all_log_ratios_spec chain_fragment_instensity_ratios_logbase
                  (combinations2 xs) logbase_above_1) as (b & Hb & Hiff).
      { apply (combinations2_pairs (fun a b => (0 < a)%R /\ (0 < b)%R)).
        clear - Hpos. induction Hpos as [|x xs Hx Hpos IH]; constructor; auto.
        eapply Forall_impl; [|exact Hpos]. intros y Hy. split; assumption. }
      exists b. split; [exact Hb|]. rewrite Hiff.
      apply (combinations2_pairs
               (fun a b => (a <= chain_fragment_instensity_ratios_logbase * b)%R)).
    + simpl. lia.
    + intros k Hk. apply NoDup_count_occ'; [apply seq_NoDup|].
      apply in_seq. lia.
Qed.

(** X24: the intensity-ratio check on positive intensities of different
    peaks, with no expected ratios and the [logbase] setting above 1,
    never fails; and it passes whenever no intensity is larger than one
    that comes after it in the list, however many times smaller it is:
    the check bounds only how far an earlier intensity exceeds a later
    one. *)
Theorem intensity_ratios_ascending (xs : list R) (logbase : R) :
  Forall (fun x => (0 < x)%R) xs ->
  (exists b, intensity_ratios xs None None logbase = Ok b) /\
  (ForallOrdPairs Rle xs ->
   intensity_ratios xs None None logbase = Ok true).
Proof.
  intros Hpos.
  destruct (intensity_ratios_real_pairs xs logbase Hpos) as (b & Hb & Hiff).
  split; [eauto|]. intros Hasc. rewrite Hb. f_equal. apply Hiff.
  clear - Hpos Hasc logbase_above_1.
  induction Hasc as [|x xs Hx Hasc IH]; [constructor|].
  inversion Hpos as [|? ? Hx0 Hpos']; subst.
  constructor; [|now apply IH].
  rewrite Forall_forall in Hx, Hpos'. apply Forall_forall. intros y Hy.
  specialize (Hx y Hy). specialize (Hpos' y Hy). nra.
Qed.

(** X25: the edge cases of the intensity-ratio check.  A single
    intensity passes whatever its value, and so does an empty list; with
    two or more intensities, one that is zero or negative makes the check
    raise [AttributeError]: the [ValueError] the code goes to raise is
    not reached, its message reads [self.sample], which no scan has. *)
Theorem intensity_ratios_edges (frag_indices : option (list nat))
    (expected : option (list R)) (logbase : R) :
  (forall x, intensity_ratios [x] frag_indices expected logbase = Ok true) /\
  intensity_ratios [] frag_indices expected logbase = Ok true /\
  (forall xs,
      List.length xs <> 1%nat -> Exists (fun x => (x <= 0)%R) xs ->
      intensity_ratios xs frag_indices expected logbase
      = Raise AttributeError).
Proof.
  splits.
  - reflexivity.
  - unfold intensity_ratios. simpl.
    destruct frag_indices as [[|]|]; reflexivity.
  - intros xs Hlen Hex. unfold intensity_ratios.
    destruct (Nat.eqb_spec (List.length xs) 1); [contradiction|].
    assert (H : existsb (fun x => Rleb x 0) xs = true).
    { apply existsb_exists. apply Exists_exists in Hex.
      destruct Hex as (x & Hx & Hle). exists x. split; [exact Hx|].
      now apply Rleb_true. }
    rewrite H. reflexivity.
Qed.

End ratio_pairs.

Lemma intensity_ratios_ascending_witness :
  intensity_ratios (E := env_of db_pc) [100; 900; 1000]%R None None 2%R
  = Ok true.
Proof.
  apply (intensity_ratios_ascending (E := env_of db_pc) (logbase_1_5 db_pc)
           [100; 900; 1000]%R 2%R).
  - repeat constructor; lra.
  - repeat constructor; lra.
Defined.

(** ** Scores and identities *)

Section score_facts.

Import identifier.

(** X26: the score percentage is never negative; it is 200 when the
    maximum score is zero; with a positive maximum score it is at most
    100 for a score up to the maximum, exactly 100 for the maximum score
    itself, and 0 for a score of zero or less. *)
Theorem percent_score_range (st : state) :
  (0 <= percent_score st)%Z /\
  (st_max_score st = 0%Z -> percent_score st = 200%Z) /\
  ((0 < st_max_score st)%Z -> (st_score st <= st_max_score st)%Z ->
   (percent_score st <= 100)%Z) /\
  ((0 < st_max_score st)%Z -> st_score st = st_max_score st ->
   percent_score st = 100%Z) /\
  ((0 < st_max_score st)%Z -> (st_score st <= 0)%Z -> percent_score st = 0%Z).
Proof.
  pose proof (percent_score_formula st) as (Hf & H0 & Hnn).
  splits; auto.
  - intros Hm Hs. now apply percent_score_bounds.
  - intros Hm Hs. pose proof (percent_score_bounds st Hm ltac:(lia)) as Hb.
    rewrite Hf in * by lia. rewrite Hs in *.
    assert (Hq : (inject_Z (st_max_score st) / inject_Z (st_max_score st) * 100
                  == inject_Z 100)%Q).
    { change (inject_Z 100) with 100%Q. field.
      intros H. unfold Qeq in H. simpl in H. lia. }
    assert (H100 : (100 <= np_round (inject_Z (st_max_score st)
                                     / inject_Z (st_max_score st) * 100))%Z).
    { apply np_round_ge. rewrite Hq. apply Qle_refl. }
    lia.
  - intros Hm Hs. rewrite Hf by lia. apply Z.max_r.
    apply np_round_le.
    assert (Hmq : (0 < inject_Z (st_max_score st))%Q)
      by (now rewrite <- (Zlt_Qlt 0)).
    assert (Hsq : (inject_Z (st_score st) <= 0)%Q)
      by (now rewrite <- (Zle_Qle _ 0)).
    assert (Hdiv : (inject_Z (st_score st) / inject_Z (st_max_score st) <= 0)%Q).
    { apply Qle_shift_div_r; [exact Hmq|]. rewrite Qmult_0_l. exact Hsq. }
    change (inject_Z 0) with 0%Q. Lqa.lra.
Qed.

Variable rec : lipproc.LipidRecord.

Lemma identity_at_well_scored (st : state) (ch : option combination) :
  (0 <= score (identity_at rec st ch))%Z /\
  (0 <= score_pct (identity_at rec st ch))%Z /\
  hg (identity_at rec st ch) = lipproc.hg rec /\
  chainsum (identity_at rec st ch) = lipproc.chainsum rec.
Proof.
  simpl. splits; auto; [lia|].
  apply (percent_score_formula st).
Qed.

(** X27: what [identify] emits, for any identifier class.  For a record
    without headgroup it emits nothing.  When [confirm_class] raises,
    that exception ends it before anything is emitted.  Every identity it
    emits has a score and a score percentage that are not negative, and
    the headgroup and chain summary of the record.  An identity without
    chains is emitted only when no chain combination was confirmed, and
    is then the only one. *)
Theorem identify_emits (m : methods) (explicit_and_implicit : bool)
    (st0 : state) :
  let g := identify rec m explicit_and_implicit st0 in
  (lipproc.hg rec = None -> g = mkGen [] None) /\
  (forall e, lipproc.hg rec <> None -> confirm_class m st0 = Raise e ->
             g = mkGen [] (Some e)) /\
  Forall (fun id =>
            (0 <= score id)%Z /\ (0 <= score_pct id)%Z /\
            hg id = lipproc.hg rec /\ chainsum id = lipproc.chainsum rec)
    (yielded g) /\
  (forall id, In id (yielded g) -> chains id = None -> yielded g = [id]).
Proof.
  cbv zeta.
  set (well_scored := fun id : MS2Identity =>
         (0 <= score id)%Z /\ (0 <= score_pct id)%Z /\
         hg id = lipproc.hg rec /\ chainsum id = lipproc.chainsum rec).
  assert (Hat : forall st ch, well_scored (identity_at rec st ch))
    by (intros; apply identity_at_well_scored).
  assert (Hmap : forall l : list (combination * state),
            Forall well_scored
              (map (fun y => identity_at rec (snd y) (Some (fst y))) l) /\
            Forall (fun id => chains id <> None)
              (map (fun y => identity_at rec (snd y) (Some (fst y))) l)).
  { intros l. split; apply Forall_forall; intros id Hid;
      apply in_map_iff in Hid; destruct Hid as (y & <- & _);
      [apply Hat | discriminate]. }
  clearbody well_scored.
  unfold identify.
  destruct (lipproc.hg rec) as [h|].
  2:{ split; [reflexivity|]. split; [congruence|].
      split; [constructor|]. intros id []. }
  split; [discriminate|].
  destruct (confirm_class m st0) as [st1|e].
  2:{ split; [intros e' _ [= <-]; reflexivity|].
      split; [constructor|]. intros id []. }
  split; [discriminate|].
  destruct (confirm_chains_explicit m st1) as [ex after_ex].
  destruct (Hmap ex) as [Hex1 Hex2].
  set (ids_ex := map (fun y => identity_at rec (snd y) (Some (fst y))) ex) in *.
  destruct after_ex as [st2|e].
  2:{ split; [exact Hex1|]. cbn [yielded]. intros id Hid Hn.
      rewrite Forall_forall in Hex2. now apply Hex2 in Hid. }
  match goal with
  | |- context [if ?c then _ else _] => destruct c
  end.
  2:{ split; [exact Hex1|]. cbn [yielded]. intros id Hid Hn.
      rewrite Forall_forall in Hex2. now apply Hex2 in Hid. }
  destruct (confirm_chains_implicit m st2) as [im after_im].
  destruct (Hmap im) as [Him1 Him2].
  set (ids_im := map (fun y => identity_at rec (snd y) (Some (fst y))) im) in *.
  assert (Hboth : forall id, In id (ids_ex ++ ids_im) -> chains id <> None).
  { intros id Hid. apply in_app_or in Hid. rewrite Forall_forall in Hex2, Him2.
    destruct Hid; auto. }
  destruct after_im as [st3|e].
  2:{ split; [now apply Forall_app|]. cbn [yielded]. intros id Hid Hn.
      now apply Hboth in Hid. }
  match goal with
  | |- context [if ?c then _ else _] => destruct c eqn:Hlast
  end.
  - apply andb_true_iff in Hlast. destruct Hlast as [Hlast _].
    apply andb_true_iff in Hlast. destruct Hlast as [Hlast _].
    apply negb_true_iff, orb_false_iff in Hlast. destruct Hlast as [He Hi].
    apply negb_false_iff, Nat.eqb_eq in He, Hi.
    assert (ex = []) by (destruct ex; [reflexivity | discriminate]).
    assert (im = []) by (destruct im; [reflexivity | discriminate]).
    subst ex im. cbn [yielded]. simpl. split.
    + constructor; [|constructor]. apply Hat.
    + intros id [<-|[]] _. reflexivity.
  - cbn [yielded]. split; [now apply Forall_app|]. intros id Hid Hn.
    now apply Hboth in Hid.
Qed.

End score_facts.

Section chain_combination_identifier_facts.

Import identifier.

Variable scn : ScanQueries.
Variable has_chain_combinations_head : option nat -> outcome bool.
Variable rec : lipproc.LipidRecord.

Lemma score_chain_combinations_adds (head : option nat) (points : Z)
    (st st' : state) :
  score_chain_combinations has_chain_combinations_head head points st = Ok st' ->
  st_max_score st' = st_max_score st /\
  (st_score st' = st_score st \/ st_score st' = (st_score st + points)%Z).
Proof.
  unfold score_chain_combinations. intros H. inv_bind H.
  destruct x; injection H as <-; simpl; split; auto; lia.
Qed.

(** With a class that overrides [confirm_class] only, every identity is
    built from the attributes [confirm_class] left. *)
Lemma identifier_with_identities (confirm : state -> outcome state)
    (explicit_and_implicit : bool) (st0 : state) (id : MS2Identity) :
  In id (yielded (identify rec (identifier_with scn confirm)
                    explicit_and_implicit st0)) ->
  exists st1 ch, confirm st0 = Ok st1 /\ id = identity_at rec st1 ch.
Proof.
  unfold identify. destruct (lipproc.hg rec); [|contradiction].
  cbn [confirm_class identifier_with].
  destruct (confirm st0) as [st1|e]; [|contradiction].
  cbn [confirm_chains_explicit confirm_chains_implicit identifier_with].
  unfold base_confirm_chains_explicit, base_confirm_chains_implicit.
  set (gx := chain_combinations scn).
  assert (Hex : forall id',
            In id' (map (fun y => identity_at rec (snd y) (Some (fst y)))
                      (map (fun y => (y, st1)) (yielded gx))) ->
            exists ch, id' = identity_at rec st1 ch).
  { intros id' H. rewrite map_map in H. apply in_map_iff in H.
    destruct H as (y & <- & _). eauto. }
  destruct (raised gx) as [e|]; cbn [gen_outcome].
  { intros H. destruct (Hex _ H) as [ch Hch]. eauto. }
  match goal with
  | |- context [if ?c then _ else _] => destruct c
  end.
  2:{ intros H. destruct (Hex _ H) as [ch Hch]. eauto. }
  set (gi := implicit_combinations scn (missing_chains st1)).
  assert (Him : forall id',
            In id' (map (fun y => identity_at rec (snd y) (Some (fst y)))
                      (map (fun y => (y, st1)) (yielded gi))) ->
            exists ch, id' = identity_at rec st1 ch).
  { intros id' H. rewrite map_map in H. apply in_map_iff in H.
    destruct H as (y & <- & _). eauto. }
  destruct (raised gi) as [e|]; cbn [gen_outcome].
  { cbn [yielded]. intros H. apply in_app_or in H.
    destruct H as [H|H]; [destruct (Hex _ H) | destruct (Him _ H)]; eauto. }
  match goal with
  | |- context [if ?c then _ else _] => destruct c
  end; cbn [yielded]; intros H.
  - apply in_app_or in H. destruct H as [H|H]; [destruct (Hex _ H); eauto|].
    apply in_app_or in H. destruct H as [H|H]; [destruct (Him _ H); eauto|].
    destruct H as [<-|[]]. eauto.
  - apply in_app_or in H.
    destruct H as [H|H]; [destruct (Hex _ H) | destruct (Him _ H)]; eauto.
Qed.

(** X28: the identifiers of di- and triacylglycerols score within their
    maximum.  Starting from the score of zero the constructor sets,
    every identity [DAG_Positive], [DAG_Negative], [TAG_Positive] or
    [TAG_Negative] emits has a maximum score of 6, 6, 10 or 5, a score
    between zero and that maximum, and a score percentage between 0 and
    100. *)
Theorem glycerolipid_scores_within_maximum (explicit_and_implicit : bool)
    (st0 : state) (id : MS2Identity) :
  st_score st0 = 0%Z ->
  let emitted_by (m : methods) :=
    In id (yielded (identify rec m explicit_and_implicit st0)) in
  let within (maximum : Z) :=
    max_score id = maximum /\ (0 <= score id <= maximum)%Z /\
    (0 <= score_pct id <= 100)%Z in
  (emitted_by (DAG_Positive scn has_chain_combinations_head) -> within 6%Z) /\
  (emitted_by (DAG_Negative scn has_chain_combinations_head) -> within 6%Z) /\
  (emitted_by (TAG_Positive scn has_chain_combinations_head) -> within 10%Z) /\
  (emitted_by (TAG_Negative scn has_chain_combinations_head) -> within 5%Z).
Proof.
  intros H0. cbv zeta.
  assert (Hwithin : forall st1 ch maximum,
            st_max_score st1 = maximum -> (0 < maximum)%Z ->
            (0 <= st_score st1 <= maximum)%Z ->
            max_score (identity_at rec st1 ch) = maximum /\
            (0 <= score (identity_at rec st1 ch) <= maximum)%Z /\
            (0 <= score_pct (identity_at rec st1 ch) <= 100)%Z).
  { intros st1 ch maximum Hm Hpos Hs. simpl.
    split; [exact Hm|]. split; [lia|].
    apply percent_score_bounds; lia. }
  splits; intros Hin; apply identifier_with_identities in Hin;
    destruct Hin as (st1 & ch & Hc & ->).
  - unfold DAG_confirm_class in Hc. inv_bind Hc.
    apply score_chain_combinations_adds in Hx, Hc.
    cbn [set_max_score set_score st_score st_max_score] in Hx.
    apply Hwithin; lia.
  - unfold DAG_confirm_class in Hc. inv_bind Hc.
    apply score_chain_combinations_adds in Hx, Hc.
    cbn [set_max_score set_score st_score st_max_score] in Hx.
    apply Hwithin; lia.
  - unfold TAG_Positive_confirm_class in Hc. inv_bind Hc.
    apply score_chain_combinations_adds in Hx, Hc.
    cbn [set_max_score set_score st_score st_max_score] in Hx.
    apply Hwithin; lia.
  - unfold TAG_Negative_confirm_class in Hc.
    apply score_chain_combinations_adds in Hc.
    cbn [set_max_score set_score st_score st_max_score] in Hc.
    apply Hwithin; lia.
Qed.

End chain_combination_identifier_facts.

Lemma glycerolipid_scores_within_maximum_witness :
  identifier.st_score glycerolipid_init = 0%Z /\
  exists id,
    In id (yielded (identifier.identify dh_ceramide
                      (DAG_Positive dh_ceramide_scan (fun _ => Ok true))
                      false glycerolipid_init)) /\
    identifier.max_score id = 6%Z /\
    (0 <= identifier.score id <= 6)%Z /\
    (0 <= identifier.score_pct id <= 100)%Z.
Proof.
  split; [reflexivity|].
  destruct (yielded (identifier.identify dh_ceramide
                       (DAG_Positive dh_ceramide_scan (fun _ => Ok true))
                       false glycerolipid_init)) as [|id l] eqn:Hy;
    [vm_compute in Hy; discriminate|].
  exists id. split; [now left|].
  apply (proj1 (glycerolipid_scores_within_maximum dh_ceramide_scan
                  (fun _ => Ok true) dh_ceramide false glycerolipid_init id
                  eq_refl)).
  rewrite Hy. now left.
Defined.
